(** * Video metadata generator

    A verification development for the response parser
    ([parseSeoResponse]), the video collection controller of the [App]
    component ([onModeSelect], [handleRemoveVideo], the restore effect) and
    the upload and poll client ([uploadFile]). *)

From ITree Require Import ITree ITreeFacts Events.State Events.StateFacts.
From Paco Require Import paco.
From Stdlib Require Import String Ascii NArith ZArith Bool Arith Lia List.
Import ListNotations.

(** ** JavaScript strings

    A JavaScript string is a sequence of UTF-16 code units.  String literals
    of the source are written here as Rocq strings (UTF-8 bytes) and decoded
    by [lit]. *)

Definition codeUnit := N.
Definition jsstring := list codeUnit.

Fixpoint utf16 (bs : list N) : jsstring :=
  match bs with
  | [] => []
  | b0 :: t0 =>
      if (b0 <? 128)%N then b0 :: utf16 t0 else
      match t0 with
      | [] => [65533%N]
      | b1 :: t1 =>
          if (b0 <? 224)%N then ((b0 mod 32) * 64 + b1 mod 64)%N :: utf16 t1 else
          match t1 with
          | [] => [65533%N]
          | b2 :: t2 =>
              if (b0 <? 240)%N
              then ((b0 mod 16) * 4096 + (b1 mod 64) * 64 + b2 mod 64)%N :: utf16 t2
              else
                match t2 with
                | [] => [65533%N]
                | b3 :: t3 =>
                    let cp := ((b0 mod 8) * 262144 + (b1 mod 64) * 4096
                               + (b2 mod 64) * 64 + b3 mod 64)%N in
                    (55296 + (cp - 65536) / 1024)%N
                      :: (56320 + (cp - 65536) mod 1024)%N :: utf16 t3
                end
          end
      end
  end.

Definition lit (s : string) : jsstring :=
  utf16 (map N_of_ascii (list_ascii_of_string s)).
Arguments lit : simpl never.

Definition jsstring_eqb (a b : jsstring) : bool :=
  if list_eq_dec N.eq_dec a b then true else false.

(** Equality of two values that are a string or [null] / [undefined]. *)
Definition option_eqb (a b : option jsstring) : bool :=
  match a, b with
  | Some x, Some y => jsstring_eqb x y
  | None, None => true
  | _, _ => false
  end.

(** [!s] for a string: the empty string is the only falsy one. *)
Definition isEmpty (s : jsstring) : bool :=
  match s with [] => true | _ :: _ => false end.

Definition asterisk : codeUnit := 42%N.
Definition colon : codeUnit := 58%N.
Definition lineFeed : codeUnit := 10%N.
Definition backslash : codeUnit := 92%N.
Definition apostrophe : codeUnit := 39%N.

(** WhiteSpace and LineTerminator code units: what [\s] matches and what
    [String.prototype.trim] strips. *)
Definition isWhiteSpace (c : codeUnit) : bool :=
  existsb (N.eqb c)
    [9; 10; 11; 12; 13; 32; 160; 5760; 8232; 8233; 8239; 8287; 12288; 65279]%N
  || ((8192 <=? c) && (c <=? 8202))%N.

Fixpoint trimStart (s : jsstring) : jsstring :=
  match s with
  | [] => []
  | c :: s' => if isWhiteSpace c then trimStart s' else s
  end.

Definition trimEnd (s : jsstring) : jsstring := rev (trimStart (rev s)).

Definition trim (s : jsstring) : jsstring := trimEnd (trimStart s).

(** [str.replace(/\*/g, '')] *)
Definition removeAsterisks (s : jsstring) : jsstring :=
  filter (fun c => negb (c =? asterisk)%N) s.

(** ** Regular expressions

    The fragment of the pattern language that the parser's two patterns use,
    with the backtracking semantics of the language specification: a matcher
    yields the match states it can end in, in the order in which
    backtracking tries them. *)

Inductive regex : Type :=
| Empty                                  (* the empty pattern *)
| Lit (c : codeUnit)                     (* a pattern character *)
| Space                                  (* \s *)
| AnyChar                                (* [\s\S] *)
| Seq (r1 r2 : regex)
| Alt (r1 r2 : regex)                    (* r1|r2 *)
| Star (greedy : bool) (r : regex)       (* r* and r*? *)
| Group (k : nat) (r : regex)            (* the k-th capturing group *)
| Lookahead (r : regex)                  (* (?=r) *)
| EndOfInput.                            (* $ without the m flag *)

Notation "r1 >> r2" := (Seq r1 r2) (at level 60, right associativity).

Record MatchState : Type := mkMatchState {
  rest : jsstring;                       (* the input from the current index on *)
  captures : nat -> option jsstring
}.

Definition setCapture (k : nat) (s : jsstring) (caps : nat -> option jsstring)
  : nat -> option jsstring :=
  fun j => if Nat.eqb j k then Some s else caps j.

Section Parser.

(** [String.prototype.toUpperCase] and [toLowerCase] are the host's Unicode
    case conversions; the development is parametric in them. *)
Variable toUpperCase : jsstring -> jsstring.
Variable toLowerCase : jsstring -> jsstring.

(** Canonicalize of the language specification, for a pattern with the [i]
    flag and without the [u] flag. *)
Definition Canonicalize (ch : codeUnit) : codeUnit :=
  match toUpperCase [ch] with
  | [cu] => if ((128 <=? ch) && (cu <? 128))%N then ch else cu
  | _ => ch
  end.

Definition sameChar (pat ch : codeUnit) : bool :=
  (Canonicalize ch =? Canonicalize pat)%N.

(** RepeatMatcher for [r*] and [r*?]: [m] matches [r]; an iteration that
    consumes nothing is rejected, so [n], the length of the remaining input,
    bounds the number of iterations. *)
Fixpoint iterate (greedy : bool) (m : MatchState -> list MatchState) (n : nat)
  (x : MatchState) {struct n} : list MatchState :=
  match n with
  | O => [x]
  | S n' =>
      let more :=
        flat_map
          (fun y =>
             if Nat.ltb (length (rest y)) (length (rest x))
             then iterate greedy m n' y else [])
          (m x) in
      if greedy then more ++ [x] else x :: more
  end.

(** All patterns of the parser carry the [i] flag: a pattern character is
    compared after Canonicalize.  The class [\s] is compared as it is, since
    case conversion relates no white space code unit to another code unit. *)
Fixpoint run (r : regex) (st : MatchState) {struct r} : list MatchState :=
  match r with
  | Empty => [st]
  | Lit p =>
      match rest st with
      | c :: s' => if sameChar p c then [mkMatchState s' (captures st)] else []
      | [] => []
      end
  | Space =>
      match rest st with
      | c :: s' => if isWhiteSpace c then [mkMatchState s' (captures st)] else []
      | [] => []
      end
  | AnyChar =>
      match rest st with
      | _ :: s' => [mkMatchState s' (captures st)]
      | [] => []
      end
  | Seq r1 r2 => flat_map (run r2) (run r1 st)
  | Alt r1 r2 => run r1 st ++ run r2 st
  | Star greedy r1 => iterate greedy (run r1) (length (rest st)) st
  | Group k r1 =>
      map (fun y =>
             mkMatchState (rest y)
               (setCapture k
                  (firstn (length (rest st) - length (rest y)) (rest st))
                  (captures y)))
          (run r1 st)
  | Lookahead r1 =>
      match run r1 st with
      | y :: _ => [mkMatchState (rest st) (captures y)]
      | [] => []
      end
  | EndOfInput =>
      match rest st with
      | [] => [st]
      | _ :: _ => []
      end
  end.

(** RegExpBuiltinExec without the [g] and [y] flags: the match is tried at
    index 0, 1, ... up to the length of the input. *)
Fixpoint exec (r : regex) (s : jsstring) : option MatchState :=
  match run r (mkMatchState s (fun _ => None)) with
  | m :: _ => Some m
  | [] =>
      match s with
      | [] => None
      | _ :: s' => exec r s'
      end
  end.

(** [regex.test(text)] *)
Definition test (r : regex) (s : jsstring) : bool :=
  match exec r s with Some _ => true | None => false end.

(** ** The response parser *)

Record SeoData : Type := mkSeoData {
  title : jsstring;
  russianTitle : jsstring;
  keywords : jsstring
}.

(** [(str || '').replace(/\*/g, '').trim()] *)
Definition clean (str : option jsstring) : jsstring :=
  trim (removeAsterisks (match str with Some s => s | None => [] end)).

Definition allHeaders : list jsstring :=
  [ lit "Заголовок"; lit "Title"; lit "Russian Title";
    lit "Русский заголовок"; lit "Ключевые слова"; lit "Keywords" ].

(** A header spliced into a pattern: it has no pattern syntax character, so
    each of its code units is a pattern character. *)
Fixpoint word (h : jsstring) : regex :=
  match h with
  | [] => Empty
  | c :: h' => Lit c >> word h'
  end.

(** [(?:${headers.join('|')})] *)
Fixpoint disjunction (hs : list jsstring) : regex :=
  match hs with
  | [] => Empty
  | [h] => word h
  | h :: hs' => Alt (word h) (disjunction hs')
  end.

Definition stars : regex := Star true (Lit asterisk).     (* \** *)
Definition spaces : regex := Star true Space.             (* \s* *)

(** [\**\s*(?:cur)\**\s*:\s*([\s\S]*?)(?=\n\s*\**\s*(?:look)\**\s*:|$)] *)
Definition sectionRegex (currentHeaders lookaheadHeaders : list jsstring) : regex :=
  stars >> spaces >> disjunction currentHeaders >> stars >> spaces >> Lit colon
    >> spaces >> Group 1 (Star false AnyChar)
    >> Lookahead
         (Alt (Lit lineFeed >> spaces >> stars >> spaces
                 >> disjunction lookaheadHeaders >> stars >> spaces >> Lit colon)
              EndOfInput).

(** [\**\s*${h}\**\s*:] *)
Definition headerRegex (h : jsstring) : regex :=
  stars >> spaces >> word h >> stars >> spaces >> Lit colon.

Definition getSectionContent (text : jsstring) (currentHeaders : list jsstring)
  : jsstring :=
  let lookaheadHeaders :=
    filter
      (fun h =>
         negb (existsb
                 (fun ch => jsstring_eqb (toLowerCase h) (toLowerCase ch))
                 currentHeaders))
      allHeaders in
  match exec (sectionRegex currentHeaders lookaheadHeaders) text with
  | Some m => clean (captures m 1)
  | None => []
  end.

Definition parseSeoResponse (text : option jsstring) : SeoData :=
  match text with
  | None | Some [] => mkSeoData [] [] []
  | Some text =>
      let title := getSectionContent text [lit "Заголовок"; lit "Title"] in
      let russianTitle :=
        getSectionContent text [lit "Russian Title"; lit "Русский заголовок"] in
      let keywords :=
        getSectionContent text [lit "Ключевые слова"; lit "Keywords"] in
      let keywords :=
        if isEmpty title && isEmpty keywords && isEmpty russianTitle
        then
          if negb (existsb (fun h => test (headerRegex h) text) allHeaders)
          then clean (Some text)
          else keywords
        else keywords in
      mkSeoData title russianTitle keywords
  end.

End Parser.

(** ** Case conversion tables

    The host's case conversion, tabulated for the Basic Latin, Latin-1
    Supplement and Cyrillic (U+0400 to U+045F) blocks, where every code unit
    of the header list and of the texts evaluated below lies. *)

Definition upperUnit (c : codeUnit) : jsstring :=
  (if (97 <=? c) && (c <=? 122) then [c - 32]
   else if c =? 181 then [924]
   else if c =? 223 then [83; 83]
   else if (224 <=? c) && (c <=? 254) && negb (c =? 247) then [c - 32]
   else if c =? 255 then [376]
   else if (1072 <=? c) && (c <=? 1103) then [c - 32]
   else if (1104 <=? c) && (c <=? 1119) then [c - 80]
   else [c])%N.

Definition lowerUnit (c : codeUnit) : jsstring :=
  (if (65 <=? c) && (c <=? 90) then [c + 32]
   else if (192 <=? c) && (c <=? 222) && negb (c =? 215) then [c + 32]
   else if (1040 <=? c) && (c <=? 1071) then [c + 32]
   else if (1024 <=? c) && (c <=? 1039) then [c + 80]
   else [c])%N.

Definition toUpperCaseTab (s : jsstring) : jsstring := flat_map upperUnit s.
Definition toLowerCaseTab (s : jsstring) : jsstring := flat_map lowerUnit s.

Definition parse (text : jsstring) : SeoData :=
  parseSeoResponse toUpperCaseTab toLowerCaseTab (Some text).

Definition nl : string := String (ascii_of_nat 10) EmptyString.

(** ** [String.prototype.replaceAll] with a string pattern

    The occurrences of [search] are found from left to right, each search
    resuming after the previous occurrence; the replacement is taken as it
    is (the one used by the source holds no [$]). *)

Fixpoint startsWith (p s : jsstring) : bool :=
  match p, s with
  | [], _ => true
  | a :: p', b :: s' => (a =? b)%N && startsWith p' s'
  | _ :: _, [] => false
  end.

Fixpoint replaceAllFrom (search rep : jsstring) (skip : nat) (s : jsstring)
  : jsstring :=
  match s with
  | [] => []
  | c :: s' =>
      match skip with
      | S k => replaceAllFrom search rep k s'
      | O =>
          if startsWith search s
          then rep ++ replaceAllFrom search rep (length search - 1) s'
          else c :: replaceAllFrom search rep 0 s'
      end
  end.

Definition replaceAll (s search rep : jsstring) : jsstring :=
  match search with
  | [] => rep ++ flat_map (fun c => c :: rep) s
  | _ :: _ => replaceAllFrom search rep 0 s
  end.

(** Following the spec's words, for comparison with the code: every
    occurrence of the two-character sequence backslash, apostrophe is
    replaced by a single apostrophe. *)
Fixpoint unescapeApostrophes (s : jsstring) : jsstring :=
  match s with
  | [] => []
  | c :: s' =>
      match s' with
      | d :: s'' =>
          if ((c =? backslash) && (d =? apostrophe))%N
          then apostrophe :: unescapeApostrophes s''
          else c :: unescapeApostrophes s'
      | [] => [c]
      end
  end.

(** ** The video collection and the display state *)

Record File : Type := mkFile {
  fileName : jsstring;
  fileType : jsstring
}.

Module GeminiFile.
Record t : Type := mk {
  name : jsstring;
  state : jsstring;
  mimeType : jsstring;
  uri : jsstring
}.
End GeminiFile.

Module Timecode.
Record t : Type := mk {
  time : jsstring;
  text : jsstring
}.
End Timecode.

Module Entry.
(** [VideoFileEntry] *)
Record t : Type := mk {
  id : jsstring;
  name : jsstring;
  url : jsstring;
  file : File;
  geminiFile : option GeminiFile.t;
  uploadError : option jsstring;
  seoData : option SeoData;
  textResponse : option jsstring;
  timecodeList : option (list Timecode.t)
}.

(** [{...v, timecodeList: l}] *)
Definition withTimecodeList (l : list Timecode.t) (v : t) : t :=
  mk (id v) (name v) (url v) (file v) (geminiFile v) (uploadError v)
     (seoData v) (textResponse v) (Some l).

(** [{...v, textResponse: txt, seoData: parsed}] *)
Definition withSeo (txt : option jsstring) (parsed : SeoData) (v : t) : t :=
  mk (id v) (name v) (url v) (file v) (geminiFile v) (uploadError v)
     (Some parsed) txt (timecodeList v).
End Entry.

Module FunctionCall.
(** A function call of a response: its name and [args.timecodes]. *)
Record t : Type := mk {
  name : jsstring;
  timecodes : list Timecode.t
}.
End FunctionCall.

Module Response.
Record t : Type := mk {
  text : option jsstring;
  functionCalls : option (list FunctionCall.t)
}.
End Response.

(** The state hooks of [App] that the controller reads or writes, and the
    object URLs revoked so far. *)
Record AppState : Type := mkAppState {
  videoFiles : list Entry.t;
  activeVideoId : option jsstring;
  timecodeList : option (list Timecode.t);
  textResponse : option jsstring;
  requestedTimecode : option N;
  activeMode : option jsstring;
  isLoading : bool;
  isUploading : bool;
  videoError : bool;
  seoData : SeoData;
  correctionText : jsstring;
  additionalText : jsstring;
  applyToAll : bool;
  revokedURLs : list jsstring
}.

Definition setVideoFiles (x : list Entry.t) (s : AppState) : AppState :=
  mkAppState x (activeVideoId s) (timecodeList s) (textResponse s)
    (requestedTimecode s) (activeMode s) (isLoading s) (isUploading s)
    (videoError s) (seoData s) (correctionText s) (additionalText s)
    (applyToAll s) (revokedURLs s).

Definition setActiveVideoId (x : option jsstring) (s : AppState) : AppState :=
  mkAppState (videoFiles s) x (timecodeList s) (textResponse s)
    (requestedTimecode s) (activeMode s) (isLoading s) (isUploading s)
    (videoError s) (seoData s) (correctionText s) (additionalText s)
    (applyToAll s) (revokedURLs s).

Definition setTimecodeList (x : option (list Timecode.t)) (s : AppState)
  : AppState :=
  mkAppState (videoFiles s) (activeVideoId s) x (textResponse s)
    (requestedTimecode s) (activeMode s) (isLoading s) (isUploading s)
    (videoError s) (seoData s) (correctionText s) (additionalText s)
    (applyToAll s) (revokedURLs s).

Definition setTextResponse (x : option jsstring) (s : AppState) : AppState :=
  mkAppState (videoFiles s) (activeVideoId s) (timecodeList s) x
    (requestedTimecode s) (activeMode s) (isLoading s) (isUploading s)
    (videoError s) (seoData s) (correctionText s) (additionalText s)
    (applyToAll s) (revokedURLs s).

Definition setActiveMode (x : option jsstring) (s : AppState) : AppState :=
  mkAppState (videoFiles s) (activeVideoId s) (timecodeList s) (textResponse s)
    (requestedTimecode s) x (isLoading s) (isUploading s)
    (videoError s) (seoData s) (correctionText s) (additionalText s)
    (applyToAll s) (revokedURLs s).

Definition setIsLoading (x : bool) (s : AppState) : AppState :=
  mkAppState (videoFiles s) (activeVideoId s) (timecodeList s) (textResponse s)
    (requestedTimecode s) (activeMode s) x (isUploading s)
    (videoError s) (seoData s) (correctionText s) (additionalText s)
    (applyToAll s) (revokedURLs s).

Definition setSeoData (x : SeoData) (s : AppState) : AppState :=
  mkAppState (videoFiles s) (activeVideoId s) (timecodeList s) (textResponse s)
    (requestedTimecode s) (activeMode s) (isLoading s) (isUploading s)
    (videoError s) x (correctionText s) (additionalText s)
    (applyToAll s) (revokedURLs s).

Definition setCorrectionText (x : jsstring) (s : AppState) : AppState :=
  mkAppState (videoFiles s) (activeVideoId s) (timecodeList s) (textResponse s)
    (requestedTimecode s) (activeMode s) (isLoading s) (isUploading s)
    (videoError s) (seoData s) x (additionalText s)
    (applyToAll s) (revokedURLs s).

Definition setAdditionalText (x : jsstring) (s : AppState) : AppState :=
  mkAppState (videoFiles s) (activeVideoId s) (timecodeList s) (textResponse s)
    (requestedTimecode s) (activeMode s) (isLoading s) (isUploading s)
    (videoError s) (seoData s) (correctionText s) x
    (applyToAll s) (revokedURLs s).

Definition setApplyToAll (x : bool) (s : AppState) : AppState :=
  mkAppState (videoFiles s) (activeVideoId s) (timecodeList s) (textResponse s)
    (requestedTimecode s) (activeMode s) (isLoading s) (isUploading s)
    (videoError s) (seoData s) (correctionText s) (additionalText s)
    x (revokedURLs s).

(** [URL.revokeObjectURL(u)] *)
Definition revokeObjectURL (u : jsstring) (s : AppState) : AppState :=
  mkAppState (videoFiles s) (activeVideoId s) (timecodeList s) (textResponse s)
    (requestedTimecode s) (activeMode s) (isLoading s) (isUploading s)
    (videoError s) (seoData s) (correctionText s) (additionalText s)
    (applyToAll s) (u :: revokedURLs s).

Definition MODE_SEO : jsstring := lit "SEO Описание".

Definition emptySeoData : SeoData := mkSeoData [] [] [].

(** [x === activeVideoId], for a string [x] *)
Definition isActiveId (x : jsstring) (s : AppState) : bool :=
  match activeVideoId s with
  | Some a => jsstring_eqb x a
  | None => false
  end.

Definition hasId (x : jsstring) (v : Entry.t) : bool :=
  jsstring_eqb (Entry.id v) x.

(** [Array.prototype.findIndex]: -1 when no element passes. *)
Fixpoint findIndexFrom {A : Type} (f : A -> bool) (l : list A) (i : Z) : Z :=
  match l with
  | [] => (-1)%Z
  | x :: l' => if f x then i else findIndexFrom f l' (i + 1)%Z
  end.

Definition findIndex {A : Type} (f : A -> bool) (l : list A) : Z :=
  findIndexFrom f l 0%Z.

(** [l[i]] *)
Definition elementAt {A : Type} (l : list A) (i : Z) : option A :=
  if (i <? 0)%Z then None else nth_error l (Z.to_nat i).

(** The derived [activeVideo] of a render. *)
Definition activeVideo (s : AppState) : option Entry.t :=
  match activeVideoId s with
  | Some ((_ :: _) as a) => find (hasId a) (videoFiles s)
  | _ => None
  end.

(** [t || null] *)
Definition orNull (t : option jsstring) : option jsstring :=
  match t with
  | Some ((_ :: _) as x) => Some x
  | _ => None
  end.

(** The guard of the restore effect: the entry has cached structured
    fields with a non-empty title or non-empty keywords. *)
Definition hasSeoFields (v : Entry.t) : bool :=
  match Entry.seoData v with
  | Some d => negb (isEmpty (title d)) || negb (isEmpty (keywords d))
  | None => false
  end.

(** One run of the restore effect (the effect on [activeVideoId] and
    [activeVideo]). *)
Definition restoreEffect (s : AppState) : AppState :=
  match activeVideo s with
  | None =>
      match activeVideoId s, videoFiles s with
      | Some (_ :: _), first :: _ => setActiveVideoId (Some (Entry.id first)) s
      | _, _ => s
      end
  | Some v =>
      let s1 :=
        match (if hasSeoFields v then Entry.seoData v else None) with
        | Some d =>
            setActiveMode (Some MODE_SEO)
              (setTextResponse (orNull (Entry.textResponse v))
                 (setSeoData d s))
        | None =>
            match Entry.timecodeList v with
            | Some l =>
                setSeoData emptySeoData
                  (setActiveMode (Some (lit "Аудио/Видео субтитры"))
                     (setTextResponse None (setTimecodeList (Some l) s)))
            | None =>
                setActiveMode None
                  (setSeoData emptySeoData
                     (setTextResponse None (setTimecodeList None s)))
            end
        end in
      setCorrectionText [] s1
  end.

Definition handleRemoveVideo (idToRemove : jsstring) (s : AppState) : AppState :=
  match find (hasId idToRemove) (videoFiles s) with
  | None => s
  | Some videoToRemove =>
      let s1 := revokeObjectURL (Entry.url videoToRemove) s in
      let remainingVideos :=
        filter (fun v => negb (hasId idToRemove v)) (videoFiles s) in
      if isActiveId idToRemove s then
        match remainingVideos with
        | [] => setVideoFiles remainingVideos (setActiveVideoId None s1)
        | _ :: _ =>
            let originalIndex := findIndex (hasId idToRemove) (videoFiles s) in
            let newIndex :=
              Z.min originalIndex (Z.of_nat (length remainingVideos) - 1) in
            match elementAt remainingVideos newIndex with
            | Some v =>
                setVideoFiles remainingVideos
                  (setActiveVideoId (Some (Entry.id v)) s1)
            | None => s1        (* [undefined.id] throws *)
            end
        end
      else setVideoFiles remainingVideos s1
  end.

(** [setTimecodes], the handler that [App] defines for a [set_timecodes]
    call (no caller in [App]). *)
Definition setTimecodes (timecodes : list Timecode.t) (s : AppState) : AppState :=
  let processed :=
    map (fun t =>
           Timecode.mk (Timecode.time t)
             (replaceAll (Timecode.text t) [backslash; apostrophe] [apostrophe]))
        timecodes in
  setVideoFiles
    (map (fun v =>
            if isActiveId (Entry.id v) s
            then Entry.withTimecodeList processed v else v)
         (videoFiles s))
    (setTimecodeList (Some processed) s).

(** ** Running a mode: [onModeSelect] *)

(** How an awaited call settles. *)
Inductive Promise (A : Type) : Type :=
| Fulfilled (a : A)
| Rejected (message : jsstring).
Arguments Fulfilled {A} a.
Arguments Rejected {A} message.

Record ModeConfig : Type := mkModeConfig {
  emoji : jsstring;
  prompt : jsstring;
  isText : bool
}.

Record FunctionDeclaration : Type := mkFunctionDeclaration {
  declName : jsstring;
  description : jsstring;
  required : list jsstring
}.

(** The declarations of [functions.ts]; the callbacks that its export adds
    are never called by [App]. *)
Definition functions : list FunctionDeclaration :=
  [ mkFunctionDeclaration (lit "set_timecodes")
      (lit "Set the timecodes for the video with associated text")
      [lit "timecodes"] ].

(** What a per-video task returns: [{id, resp, success: true}] or
    [{id, success: false, error}]. *)
Inductive TaskResult : Type :=
| Succeeded (id : jsstring) (resp : Response.t)
| Failed (id : jsstring) (error : jsstring).

Definition resultId (r : TaskResult) : jsstring :=
  match r with
  | Succeeded i _ => i
  | Failed i _ => i
  end.

(** How [onModeSelect] ends: it returns, or an exception escapes it. *)
Inductive Completion : Type :=
| Completed (s : AppState)
| Thrown (s : AppState).

Fixpoint mapiFrom {A B : Type} (f : nat -> A -> B) (i : nat) (l : list A)
  : list B :=
  match l with
  | [] => []
  | x :: l' => f i x :: mapiFrom f (S i) l'
  end.

(** [t.text.replaceAll("\\'", "'")] over a timecode list *)
Definition processTimecodes (l : list Timecode.t) : list Timecode.t :=
  map (fun t =>
         Timecode.mk (Timecode.time t)
           (replaceAll (Timecode.text t) [backslash; apostrophe] [apostrophe]))
      l.

(** [resp.functionCalls?.[0]] *)
Definition firstCall (resp : Response.t) : option FunctionCall.t :=
  match Response.functionCalls resp with
  | Some (call :: _) => Some call
  | _ => None
  end.

Definition isSome {A : Type} (o : option A) : bool :=
  match o with Some _ => true | None => false end.

Section Controller.

Variable toUpperCase : jsstring -> jsstring.
Variable toLowerCase : jsstring -> jsstring.

(** The mode table of [modes.ts]. *)
Variable modes : jsstring -> option ModeConfig.

(** The generation service: how the call made by the [i]-th task settles. *)
Variable generateContent :
  nat -> jsstring -> option (list FunctionDeclaration) -> option GeminiFile.t
  -> Promise Response.t.

(** One run of the effect on [textResponse] and [activeMode]: in the SEO
    mode the displayed text is parsed again, and the displayed fields are
    replaced when the title or the keywords differ. *)
Definition reparseEffect (s : AppState) : AppState :=
  match activeMode s, textResponse s with
  | Some m, Some ((_ :: _) as t) =>
      if jsstring_eqb m MODE_SEO then
        let parsed := parseSeoResponse toUpperCase toLowerCase (Some t) in
        if negb (jsstring_eqb (title parsed) (title (seoData s)))
           || negb (jsstring_eqb (keywords parsed) (keywords (seoData s)))
        then setSeoData parsed s
        else s
      else s
  | _, _ => s
  end.

(** The dependencies of [reparseEffect] differ between two renders. *)
Definition displayChanged (before after : AppState) : bool :=
  negb (option_eqb (textResponse before) (textResponse after))
  || negb (option_eqb (activeMode before) (activeMode after)).

(** [onClick={() => setActiveVideoId(video.id)}] and the renders that
    follow.  Setting the id that is already active changes no state, so
    nothing is rendered and no effect runs.  Otherwise the restore effect
    runs, and once more when it replaced a dangling id by the first video's;
    the render of the restored display runs [reparseEffect] when its
    dependencies changed. *)
Definition setActive (x : jsstring) (s : AppState) : AppState :=
  if isActiveId x s then s
  else
    let s1 := setActiveVideoId (Some x) s in
    let s2 :=
      match activeVideo s1 with
      | Some _ => restoreEffect s1
      | None =>
          let s2 := restoreEffect s1 in
          if isActiveId x s2 then s2 else restoreEffect s2
      end in
    if displayChanged s s2 then reparseEffect s2 else s2.

Definition basePrompt (modeConfig : ModeConfig) (s : AppState) : jsstring :=
  if isEmpty (trim (additionalText s)) then prompt modeConfig
  else
    prompt modeConfig ++ [lineFeed; lineFeed]
      ++ lit "ВАЖНО: При генерации обязательно учти следующий контекст или ключевые слова: "
      ++ [34%N] ++ additionalText s ++ [34%N].

Definition targets (s : AppState) : list Entry.t :=
  if applyToAll s
  then filter (fun v => isSome (Entry.geminiFile v)) (videoFiles s)
  else filter (fun v => isActiveId (Entry.id v) s && isSome (Entry.geminiFile v))
         (videoFiles s).

(** The task of one target: its own try and catch turn a rejection into a
    result. *)
Definition runTask (modeConfig : ModeConfig) (s : AppState) (i : nat)
  (v : Entry.t) : TaskResult :=
  match
    generateContent i (basePrompt modeConfig s)
      (if isText modeConfig then None else Some functions)
      (Entry.geminiFile v)
  with
  | Fulfilled resp => Succeeded (Entry.id v) resp
  | Rejected message => Failed (Entry.id v) message
  end.

(** The updater passed to [setVideoFiles], at one entry. *)
Definition cacheResult (isTextMode : bool) (results : list TaskResult)
  (v : Entry.t) : Entry.t :=
  match find (fun r => jsstring_eqb (resultId r) (Entry.id v)) results with
  | Some (Succeeded _ resp) =>
      if isTextMode then
        Entry.withSeo (Response.text resp)
          (parseSeoResponse toUpperCase toLowerCase (Response.text resp)) v
      else
        match firstCall resp with
        | Some call =>
            if jsstring_eqb (FunctionCall.name call) (lit "set_timecodes")
            then Entry.withTimecodeList
                   (processTimecodes (FunctionCall.timecodes call)) v
            else v
        | None => v
        end
  | _ => v
  end.

(** The update of the active view; [active] is the [activeVideoId] of the
    render that started the run. *)
Definition showActiveResult (isTextMode : bool) (results : list TaskResult)
  (active : option jsstring) (s : AppState) : AppState :=
  match active with
  | None => s
  | Some a =>
      match find (fun r => jsstring_eqb (resultId r) a) results with
      | None => s
      | Some (Succeeded _ resp) =>
          if isTextMode then setTextResponse (Response.text resp) s
          else
            match firstCall resp with
            | Some call =>
                if jsstring_eqb (FunctionCall.name call) (lit "set_timecodes")
                then setTimecodeList
                       (Some (processTimecodes (FunctionCall.timecodes call))) s
                else setTextResponse
                       (Some (lit "Ошибка: Некорректный ответ модели.")) s
            | None =>
                setTextResponse
                  (Some (lit "Ошибка: Некорректный ответ модели.")) s
            end
      | Some (Failed _ error) =>
          setTextResponse (Some (lit "Ошибка: " ++ error)) s
      end
  end.

(** A run of [onModeSelect] from the state [s] of the render whose handler
    was called, with no other state update arriving while the tasks are
    awaited.  All tasks are started and awaited together; none of them
    rejects, so the outer catch is never entered. *)
Definition onModeSelect (mode : jsstring) (s : AppState) : Completion :=
  let s1 :=
    setSeoData emptySeoData
      (setCorrectionText []
         (setTextResponse None
            (setTimecodeList None
               (setIsLoading true (setActiveMode (Some mode) s))))) in
  match modes mode with
  | None => Thrown s1          (* [modes[mode].isText] of an unknown mode *)
  | Some modeConfig =>
      let isTextMode := isText modeConfig in
      match targets s with
      | [] => Completed (setIsLoading false s1)
      | _ :: _ =>
          let results := mapiFrom (runTask modeConfig s) 0 (targets s) in
          let s2 :=
            setVideoFiles (map (cacheResult isTextMode results) (videoFiles s1))
              s1 in
          let s3 := showActiveResult isTextMode results (activeVideoId s) s2 in
          Completed
            (setApplyToAll false (setAdditionalText [] (setIsLoading false s3)))
      end
  end.

End Controller.

(** ** The upload and poll client: [uploadFile] *)

Variant apiE : Type -> Type :=
| FilesUpload (blob : File) (displayName : jsstring) : apiE GeminiFile.t
| FilesGet (name : jsstring) : apiE GeminiFile.t
| ConsoleLog (message : jsstring) : apiE unit
| SetTimeout (ms : N) : apiE unit.

Definition isProcessing (f : GeminiFile.t) : bool :=
  jsstring_eqb (GeminiFile.state f) (lit "PROCESSING").

Definition isFailed (f : GeminiFile.t) : bool :=
  jsstring_eqb (GeminiFile.state f) (lit "FAILED").

Import ITreeNotations.
Local Open Scope itree_scope.

Definition pollStep (name : jsstring) (getFile : GeminiFile.t)
  : itree apiE (GeminiFile.t + GeminiFile.t) :=
  if isProcessing getFile then
    getFile' <- ITree.trigger (FilesGet name) ;;
    ITree.trigger
      (ConsoleLog (lit "текущий статус файла: " ++ GeminiFile.state getFile')) ;;
    ITree.trigger
      (ConsoleLog
         (lit "Файл все еще обрабатывается, повторная попытка через 5 секунд")) ;;
    ITree.trigger (SetTimeout 5000) ;;
    Ret (inl getFile')
  else Ret (inr getFile).

Definition uploadFile (file : File) : itree apiE (Promise GeminiFile.t) :=
  ITree.trigger (ConsoleLog (lit "Загрузка...")) ;;
  uploadedFile <- ITree.trigger (FilesUpload file (fileName file)) ;;
  ITree.trigger (ConsoleLog (lit "Загружено.")) ;;
  ITree.trigger (ConsoleLog (lit "Получение...")) ;;
  getFile <- ITree.trigger (FilesGet (GeminiFile.name uploadedFile)) ;;
  getFile <- ITree.iter (pollStep (GeminiFile.name uploadedFile)) getFile ;;
  ITree.trigger (ConsoleLog (GeminiFile.state getFile)) ;;
  if isFailed getFile then Ret (Rejected (lit "Ошибка обработки файла."))
  else
    ITree.trigger (ConsoleLog (lit "Готово")) ;;
    Ret (Fulfilled getFile).

(** The remote store seen from one upload: the file object that the upload
    call answers with, the file object that the [n]-th status fetch answers
    with, and what the upload has done so far. *)
Record Remote : Type := mkRemote {
  uploaded : GeminiFile.t;
  polls : nat -> GeminiFile.t;
  fetches : nat;
  waited : N;
  console : list jsstring
}.

Definition fetched (s : Remote) : Remote :=
  mkRemote (uploaded s) (polls s) (S (fetches s)) (waited s) (console s).

Definition logged (message : jsstring) (s : Remote) : Remote :=
  mkRemote (uploaded s) (polls s) (fetches s) (waited s) (message :: console s).

Definition slept (ms : N) (s : Remote) : Remote :=
  mkRemote (uploaded s) (polls s) (fetches s) (waited s + ms)%N (console s).

Definition handleApi : apiE ~> Monads.stateT Remote (itree void1) :=
  fun _ e s =>
    match e with
    | FilesUpload _ _ => Ret (s, uploaded s)
    | FilesGet _ => Ret (fetched s, polls s (fetches s))
    | ConsoleLog message => Ret (logged message s, tt)
    | SetTimeout ms => Ret (slept ms s, tt)
    end.

Definition runUpload (file : File) (s : Remote)
  : itree void1 (Remote * Promise GeminiFile.t) :=
  interp_state handleApi (uploadFile file) s.

(** ** Vocabulary of the statements *)

Section Vocabulary.

Variable toUpperCase : jsstring -> jsstring.

(** [Matches r w after]: the pattern [r] matches the code units [w] when
    they are followed by [after]. *)
Inductive Matches : regex -> jsstring -> jsstring -> Prop :=
| MatchesEmpty after : Matches Empty [] after
| MatchesLit p c after :
    sameChar toUpperCase p c = true -> Matches (Lit p) [c] after
| MatchesSpace c after : isWhiteSpace c = true -> Matches Space [c] after
| MatchesAnyChar c after : Matches AnyChar [c] after
| MatchesSeq r1 r2 w1 w2 after :
    Matches r1 w1 (w2 ++ after) -> Matches r2 w2 after ->
    Matches (r1 >> r2) (w1 ++ w2) after
| MatchesAltL r1 r2 w after : Matches r1 w after -> Matches (Alt r1 r2) w after
| MatchesAltR r1 r2 w after : Matches r2 w after -> Matches (Alt r1 r2) w after
| MatchesStarNil g r after : Matches (Star g r) [] after
| MatchesStarCons g r w1 w2 after :
    Matches r w1 (w2 ++ after) -> Matches (Star g r) w2 after ->
    Matches (Star g r) (w1 ++ w2) after
| MatchesGroup k r w after : Matches r w after -> Matches (Group k r) w after
| MatchesLookahead r w after :
    Matches r w after -> Matches (Lookahead r) [] (w ++ after)
| MatchesEndOfInput : Matches EndOfInput [] [].

(** [w] is the header [h] up to letter case, as the [i] flag compares. *)
Definition sameText (h w : jsstring) : Prop :=
  Forall2 (fun p c => sameChar toUpperCase p c = true) h w.

(** The header [h] occurs in [text], in any letter case, followed by
    optional asterisks, optional white space and a colon. *)
Definition HeaderBeforeColon (h text : jsstring) : Prop :=
  exists pre w a b c post,
    text = pre ++ w ++ a ++ b ++ c :: post
    /\ sameText h w
    /\ Forall (fun x => sameChar toUpperCase asterisk x = true) a
    /\ Forall (fun x => isWhiteSpace x = true) b
    /\ sameChar toUpperCase colon c = true.

End Vocabulary.

(** The state is inside [text]: what remains to be read is an end of the
    text and every capture is made of code units of the text. *)
Definition Within (text : jsstring) (x : MatchState) : Prop :=
  incl (rest x) text
  /\ forall k w, captures x k = Some w -> incl w text.

(** No asterisk, and no white space at either end. *)
Definition tidy (s : jsstring) : Prop :=
  ~ In asterisk s
  /\ (forall c s', s = c :: s' -> isWhiteSpace c = false)
  /\ (forall c s', s = s' ++ [c] -> isWhiteSpace c = false).

(** [needle] occurs in [hay] as it is written. *)
Fixpoint occursIn (needle hay : jsstring) : bool :=
  startsWith needle hay
  || match hay with
     | [] => false
     | _ :: hay' => occursIn needle hay'
     end.

(** The state in which a run ends, and whether it returned. *)
Definition finalState (c : Completion) : AppState :=
  match c with
  | Completed s => s
  | Thrown s => s
  end.

Definition hasCompleted (c : Completion) : bool :=
  match c with
  | Completed _ => true
  | Thrown _ => false
  end.

(** The remote store after one turn of the poll loop. *)
Definition afterPoll (s : Remote) : Remote :=
  slept 5000
    (logged
       (lit "Файл все еще обрабатывается, повторная попытка через 5 секунд")
       (logged
          (lit "текущий статус файла: "
             ++ GeminiFile.state (polls s (fetches s)))
          (fetched s))).

Fixpoint afterPolls (n : nat) (s : Remote) : Remote :=
  match n with
  | O => s
  | S n' => afterPolls n' (afterPoll s)
  end.

(** ** Example data *)

Definition exampleFile : File := mkFile (lit "cats.mp4") (lit "video/mp4").

Definition remoteFile (status : string) : GeminiFile.t :=
  GeminiFile.mk (lit "files/cats") (lit status) (lit "video/mp4")
    (lit "https://example.org/files/cats").

(** A video whose upload is complete and that has no cached result. *)
Definition readyVideo (i : string) : Entry.t :=
  Entry.mk (lit i) (lit "cats.mp4") (lit ("blob:" ++ i)%string) exampleFile
    (Some (remoteFile "ACTIVE")) None None None None.

Definition subtitlesMode : jsstring := lit "Аудио/Видео субтитры".

Definition subtitlesConfig : ModeConfig :=
  mkModeConfig (lit "CC") (lit "Generate captions for the video.") false.

Definition seoConfig : ModeConfig :=
  mkModeConfig (lit "SEO") (lit "Generate a title and keywords.") true.

Definition exampleModes (mode : jsstring) : option ModeConfig :=
  if jsstring_eqb mode subtitlesMode then Some subtitlesConfig
  else if jsstring_eqb mode MODE_SEO then Some seoConfig
  else None.

(** Two ready videos, the first one active, the mode to be applied to all. *)
Definition twoVideos : AppState :=
  mkAppState [readyVideo "a"; readyVideo "b"] (Some (lit "a")) None None None
    None false false false emptySeoData [] [] true [].

Definition threeVideos : AppState :=
  mkAppState [readyVideo "a"; readyVideo "b"; readyVideo "c"] (Some (lit "b"))
    None None None None false false false emptySeoData [] [] false [].

Definition catCall : FunctionCall.t :=
  FunctionCall.mk (lit "set_timecodes")
    [Timecode.mk (lit "0:05") (lit "It\'s a cat")].

Definition catResponse : Response.t := Response.mk None (Some [catCall]).

(** The first call is answered with a [set_timecodes] call, every other
    call is rejected. *)
Definition secondCallFails (i : nat) (_ : jsstring)
  (_ : option (list FunctionDeclaration)) (_ : option GeminiFile.t)
  : Promise Response.t :=
  match i with
  | O => Fulfilled catResponse
  | S _ => Rejected (lit "quota exceeded")
  end.

(** As [secondCallFails], but the other calls are answered with a response
    that holds no function call. *)
Definition secondCallDeclines (i : nat) (_ : jsstring)
  (_ : option (list FunctionDeclaration)) (_ : option GeminiFile.t)
  : Promise Response.t :=
  match i with
  | O => Fulfilled catResponse
  | S _ => Fulfilled (Response.mk None None)
  end.

(** A reply that fills in the localized title only. *)
Definition localizedOnlyText : jsstring :=
  lit ("Title: **" ++ nl ++ "Russian Title: Кошки" ++ nl ++ "Keywords: **")%string.

Definition localizedOnlyVideo : Entry.t :=
  Entry.withSeo (Some localizedOnlyText) (parse localizedOnlyText)
    (readyVideo "b").

Definition withLocalizedOnly : AppState :=
  mkAppState [readyVideo "a"; localizedOnlyVideo] (Some (lit "a")) None
    (Some (lit "Ошибка: quota exceeded")) None (Some subtitlesMode) false false
    false emptySeoData [] [] false [].

(** A store that answers the first two status fetches with a file in
    processing and the later ones with an active file. *)
Definition slowRemote : Remote :=
  mkRemote (remoteFile "PROCESSING")
    (fun n => if Nat.ltb n 2 then remoteFile "PROCESSING" else remoteFile "ACTIVE")
    0 0 [].

(** ** The other handlers of [App] *)

Definition setRequestedTimecode (x : option N) (s : AppState) : AppState :=
  mkAppState (videoFiles s) (activeVideoId s) (timecodeList s) (textResponse s)
    x (activeMode s) (isLoading s) (isUploading s)
    (videoError s) (seoData s) (correctionText s) (additionalText s)
    (applyToAll s) (revokedURLs s).

Definition setIsUploading (x : bool) (s : AppState) : AppState :=
  mkAppState (videoFiles s) (activeVideoId s) (timecodeList s) (textResponse s)
    (requestedTimecode s) (activeMode s) (isLoading s) x
    (videoError s) (seoData s) (correctionText s) (additionalText s)
    (applyToAll s) (revokedURLs s).

Definition setVideoError (x : bool) (s : AppState) : AppState :=
  mkAppState (videoFiles s) (activeVideoId s) (timecodeList s) (textResponse s)
    (requestedTimecode s) (activeMode s) (isLoading s) (isUploading s)
    x (seoData s) (correctionText s) (additionalText s)
    (applyToAll s) (revokedURLs s).

(** The state of the first render. *)
Definition initialState : AppState :=
  mkAppState [] None None None None None false false false emptySeoData [] []
    false [].

Definition handleClearAll (s : AppState) : AppState :=
  let s1 :=
    fold_left (fun st video => revokeObjectURL (Entry.url video) st)
      (videoFiles s) s in
  setAdditionalText []
    (setCorrectionText []
       (setSeoData emptySeoData
          (setVideoError false
             (setIsLoading false
                (setActiveMode None
                   (setRequestedTimecode None
                      (setTextResponse None
                         (setTimecodeList None
                            (setActiveVideoId None (setVideoFiles [] s1)))))))))).

(** [{...v, geminiFile}] *)
Definition entryWithGeminiFile (g : GeminiFile.t) (v : Entry.t) : Entry.t :=
  Entry.mk (Entry.id v) (Entry.name v) (Entry.url v) (Entry.file v) (Some g)
    (Entry.uploadError v) (Entry.seoData v) (Entry.textResponse v)
    (Entry.timecodeList v).

(** [{...v, uploadError: e}] *)
Definition entryWithUploadError (e : jsstring) (v : Entry.t) : Entry.t :=
  Entry.mk (Entry.id v) (Entry.name v) (Entry.url v) (Entry.file v)
    (Entry.geminiFile v) (Some e) (Entry.seoData v) (Entry.textResponse v)
    (Entry.timecodeList v).

(** [f.type.startsWith('video/')] *)
Definition isVideo (f : File) : bool := startsWith (lit "video/") (fileType f).

Section Intake.

(** The browser: the id that the [k]-th call of [crypto.randomUUID] returns
    and the URL that the [k]-th call of [URL.createObjectURL] returns. *)
Variable randomUUID : nat -> jsstring.
Variable createObjectURL : nat -> File -> jsstring.

(** How [uploadFile] settles for the [k]-th new entry. *)
Variable uploadOutcome : nat -> Promise GeminiFile.t.

(** [newVideoEntries], after [drawn] earlier entries. *)
Definition newVideoEntries (drawn : nat) (files : list File) : list Entry.t :=
  mapiFrom
    (fun k file =>
       Entry.mk (randomUUID k) (fileName file) (createObjectURL k file) file
         None None None None None)
    drawn (filter isVideo files).

(** [processAndUploadFiles] up to its await. *)
Definition intake (drawn : nat) (files : list File) (s : AppState) : AppState :=
  let s1 := setVideoError false (setIsUploading true s) in
  match newVideoEntries drawn files with
  | [] => setIsUploading false s1
  | first :: others =>
      let s2 := setVideoFiles (videoFiles s1 ++ first :: others) s1 in
      match activeVideoId s with
      | None => setActiveVideoId (Some (Entry.id first)) s2
      | Some _ => s2
      end
  end.

(** What the task of one new entry does when its upload settles. *)
Definition uploadSettled (videoEntry : Entry.t) (outcome : Promise GeminiFile.t)
  (s : AppState) : AppState :=
  match outcome with
  | Fulfilled geminiFile =>
      setVideoFiles
        (map (fun v =>
                if hasId (Entry.id videoEntry) v
                then entryWithGeminiFile geminiFile v else v)
           (videoFiles s))
        s
  | Rejected _ =>
      setVideoError true
        (setVideoFiles
           (map (fun v =>
                   if hasId (Entry.id videoEntry) v
                   then entryWithUploadError (lit "Ошибка загрузки") v else v)
              (videoFiles s))
           s)
  end.

(** The [k]-th new entry once its own upload has settled. *)
Definition settledEntry (k : nat) (videoEntry : Entry.t) : Entry.t :=
  match uploadOutcome k with
  | Fulfilled geminiFile => entryWithGeminiFile geminiFile videoEntry
  | Rejected _ => entryWithUploadError (lit "Ошибка загрузки") videoEntry
  end.

(** The [k]-th new entry when the uploads listed in [settled] have
    settled. *)
Definition settledSoFar (settled : list nat) (k : nat) (videoEntry : Entry.t)
  : Entry.t :=
  if existsb (Nat.eqb k) settled then settledEntry k videoEntry else videoEntry.

Definition isRejected {A : Type} (p : Promise A) : bool :=
  match p with
  | Fulfilled _ => false
  | Rejected _ => true
  end.

(** The uploads settle in the order [order] (indices of the new entries). *)
Definition settleAll (new : list Entry.t) (order : list nat) (s : AppState)
  : AppState :=
  fold_left
    (fun st k =>
       match nth_error new k with
       | Some videoEntry => uploadSettled videoEntry (uploadOutcome k) st
       | None => st
       end)
    order s.

(** A run of [processAndUploadFiles] with no other state update arriving
    while the uploads are awaited. *)
Definition processAndUploadFiles (drawn : nat) (files : list File)
  (order : list nat) (s : AppState) : AppState :=
  match newVideoEntries drawn files with
  | [] => intake drawn files s
  | _ :: _ =>
      setIsUploading false
        (settleAll (newVideoEntries drawn files) order (intake drawn files s))
  end.

End Intake.

Section Correction.

Variable toUpperCase : jsstring -> jsstring.
Variable toLowerCase : jsstring -> jsstring.

(** The generation service, for the one call of a correction. *)
Variable generateContent :
  jsstring -> option (list FunctionDeclaration) -> option GeminiFile.t
  -> Promise Response.t.

Definition correctionPrompt (s : AppState) : jsstring :=
  lit "Откорректируй следующие метаданные видео на основе этой инструкции: "
    ++ [34%N] ++ correctionText s ++ [34%N] ++ lit "."
    ++ [lineFeed; lineFeed]
    ++ lit "      Текущие метаданные:" ++ [lineFeed]
    ++ lit "      Title: " ++ title (seoData s) ++ [lineFeed]
    ++ lit "      Russian Title: " ++ russianTitle (seoData s) ++ [lineFeed]
    ++ lit "      Keywords: " ++ keywords (seoData s) ++ [lineFeed]
    ++ [lineFeed]
    ++ lit "      Верни обновленные метаданные строго в следующем формате:"
    ++ [lineFeed]
    ++ lit "      Title: [Обновленный заголовок на английском]" ++ [lineFeed]
    ++ lit "      Russian Title: [Обновленный заголовок на русском]"
    ++ [lineFeed]
    ++ lit "      Keywords: [Обновленные ключевые слова на английском, через запятую]".

(** A run of [handleCorrection]; the flag is [isCorrecting]. *)
Definition handleCorrection (isCorrecting : bool) (s : AppState)
  : AppState * bool :=
  if isEmpty (trim (correctionText s)) then (s, isCorrecting)
  else
    match
      match activeVideoId s with
      | Some a => find (hasId a) (videoFiles s)
      | None => None
      end
    with
    | None => (s, isCorrecting)
    | Some targetVideo =>
        match Entry.geminiFile targetVideo with
        | None => (s, isCorrecting)
        | Some g =>
            match generateContent (correctionPrompt s) None (Some g) with
            | Fulfilled resp =>
                let parsed :=
                  parseSeoResponse toUpperCase toLowerCase (Response.text resp) in
                (setCorrectionText []
                   (setVideoFiles
                      (map (fun v =>
                              if isActiveId (Entry.id v) s
                              then Entry.withSeo (Response.text resp) parsed v
                              else v)
                         (videoFiles s))
                      (setTextResponse (Response.text resp)
                         (setSeoData parsed s))),
                 false)
            | Rejected _ => (s, false)
            end
        end
    end.

End Correction.

(** ** The renders after a handler *)

Section Renders.

Variable toUpperCase : jsstring -> jsstring.
Variable toLowerCase : jsstring -> jsstring.

(** The fields that the re-parse effect of the render of [s] sets, when it
    sets any. *)
Definition reparsedFields (s : AppState) : option SeoData :=
  match activeMode s, textResponse s with
  | Some m, Some ((_ :: _) as t) =>
      if jsstring_eqb m MODE_SEO then
        let parsed := parseSeoResponse toUpperCase toLowerCase (Some t) in
        if negb (jsstring_eqb (title parsed) (title (seoData s)))
           || negb (jsstring_eqb (keywords parsed) (keywords (seoData s)))
        then Some parsed
        else None
      else None
  | _, _ => None
  end.

(** The renders that follow one batch of state updates in which the record
    of the active video was replaced by a new object: [before] is the state
    of the render before the batch, [after] the state that the batch leaves.
    In the commit of [after] the restore effect runs, since its dependency
    [activeVideo] changed, and the re-parse effect runs when its
    dependencies changed; both read the state of that render, and their
    updates are applied in the order of the effects.  In the commit that
    follows, the dependencies of the restore effect are as before, and the
    re-parse effect runs once more when its dependencies changed. *)
Definition rendersAfter (before after : AppState) : AppState :=
  let restored := restoreEffect after in
  let queued :=
    if displayChanged before after then reparsedFields after else None in
  let next :=
    match queued with
    | Some parsed => setSeoData parsed restored
    | None => restored
    end in
  if displayChanged after next
  then reparseEffect toUpperCase toLowerCase next
  else next.

End Renders.

(** ** Invariants of the collection *)

(** The cached structured fields of every video are those parsed from its
    cached free text. *)
Definition CacheConsistent (toUpperCase toLowerCase : jsstring -> jsstring)
  (s : AppState) : Prop :=
  forall v d,
    In v (videoFiles s) -> Entry.seoData v = Some d ->
    d = parseSeoResponse toUpperCase toLowerCase (Entry.textResponse v).

(** The active id, when there is one, is the id of a video of the
    collection. *)
Definition ActiveValid (s : AppState) : Prop :=
  match activeVideoId s with
  | None => True
  | Some a => exists v, In v (videoFiles s) /\ Entry.id v = a
  end.

Definition DistinctIds (s : AppState) : Prop :=
  NoDup (map Entry.id (videoFiles s)).

(** [v'] is the video [v] as far as its upload goes: same id, name, URL,
    file, remote file and upload error. *)
Definition sameVideo (v v' : Entry.t) : Prop :=
  Entry.id v' = Entry.id v
  /\ Entry.name v' = Entry.name v
  /\ Entry.url v' = Entry.url v
  /\ Entry.file v' = Entry.file v
  /\ Entry.geminiFile v' = Entry.geminiFile v
  /\ Entry.uploadError v' = Entry.uploadError v.

(** [v'] has the id of [v] and its cached text results. *)
Definition sameCache (v v' : Entry.t) : Prop :=
  Entry.id v' = Entry.id v
  /\ Entry.seoData v' = Entry.seoData v
  /\ Entry.textResponse v' = Entry.textResponse v.

Definition Invariant (toUpperCase toLowerCase : jsstring -> jsstring)
  (s : AppState) : Prop :=
  CacheConsistent toUpperCase toLowerCase s /\ ActiveValid s /\ DistinctIds s.

(** One user action, run to its end: adding files (with ids that are new),
    running a mode, correcting, removing, clearing, clicking the tab of a
    video of the collection, or an update of the display state alone (typing
    into an input, ticking the apply-to-all box, the effects that restore and
    re-parse the display). *)
Inductive Step (toUpperCase toLowerCase : jsstring -> jsstring)
  : AppState -> AppState -> Prop :=
| StepAdd randomUUID createObjectURL uploadOutcome drawn files order s :
    NoDup (map Entry.id
             (videoFiles s
                ++ newVideoEntries randomUUID createObjectURL drawn files)) ->
    Step toUpperCase toLowerCase s
      (processAndUploadFiles randomUUID createObjectURL uploadOutcome drawn
         files order s)
| StepRun modes generateContent mode s :
    Step toUpperCase toLowerCase s
      (finalState
         (onModeSelect toUpperCase toLowerCase modes generateContent mode s))
| StepCorrect generateContent isCorrecting s :
    Step toUpperCase toLowerCase s
      (fst (handleCorrection toUpperCase toLowerCase generateContent
              isCorrecting s))
| StepRemove idToRemove s :
    Step toUpperCase toLowerCase s (handleRemoveVideo idToRemove s)
| StepClear s : Step toUpperCase toLowerCase s (handleClearAll s)
| StepSetActive v s :
    In v (videoFiles s) ->
    Step toUpperCase toLowerCase s
      (setActive toUpperCase toLowerCase (Entry.id v) s)
| StepDisplay s s' :
    videoFiles s' = videoFiles s ->
    activeVideoId s' = activeVideoId s ->
    Step toUpperCase toLowerCase s s'.

Inductive Reachable (toUpperCase toLowerCase : jsstring -> jsstring)
  : AppState -> Prop :=
| ReachableInitial : Reachable toUpperCase toLowerCase initialState
| ReachableStep s s' :
    Reachable toUpperCase toLowerCase s ->
    Step toUpperCase toLowerCase s s' ->
    Reachable toUpperCase toLowerCase s'.

(** ** More example data *)

(** The browser of the examples: the [k]-th id and the [k]-th object URL end
    in the digit [k]. *)
Definition exampleUUID (k : nat) : jsstring :=
  lit "video-" ++ [(48 + N.of_nat k)%N].

Definition exampleObjectURL (k : nat) (_ : File) : jsstring :=
  lit "blob:" ++ [(48 + N.of_nat k)%N].

(** The first upload is fulfilled, every other one is rejected. *)
Definition firstUploadOnly (k : nat) : Promise GeminiFile.t :=
  match k with
  | O => Fulfilled (remoteFile "ACTIVE")
  | S _ => Rejected (lit "Ошибка обработки файла.")
  end.

Definition notesFile : File := mkFile (lit "notes.txt") (lit "text/plain").

Definition droppedFiles : list File := [exampleFile; notesFile; exampleFile].

(** The entry made for the [k]-th video of [droppedFiles]. *)
Definition droppedEntry (k : nat) : Entry.t :=
  Entry.mk (exampleUUID k) (lit "cats.mp4") (exampleObjectURL k exampleFile)
    exampleFile None None None None None.

(** A video whose upload has not settled. *)
Definition pendingVideo (i : string) : Entry.t :=
  Entry.mk (lit i) (lit "cats.mp4") (lit ("blob:" ++ i)%string) exampleFile
    None None None None None.

Definition uploading : AppState :=
  mkAppState [pendingVideo "a"; pendingVideo "b"] (Some (lit "a")) None None
    None None false true false emptySeoData [] [] true [].

Definition catsText : jsstring :=
  lit ("Title: Cats" ++ nl ++ "Russian Title: Кошки" ++ nl
       ++ "Keywords: cat, pet")%string.

Definition catsTextResponse : Response.t := Response.mk (Some catsText) None.

Definition answersCats (_ : jsstring) (_ : option (list FunctionDeclaration))
  (_ : option GeminiFile.t) : Promise Response.t :=
  Fulfilled catsTextResponse.

Definition alwaysRejects (_ : jsstring) (_ : option (list FunctionDeclaration))
  (_ : option GeminiFile.t) : Promise Response.t :=
  Rejected (lit "quota exceeded").

Definition everyCallAnswersCats (_ : nat) := answersCats.

(** Two ready videos, the first one active, with a correction typed in. *)
Definition correcting : AppState := setCorrectionText (lit "shorter") twoVideos.

(** A store whose every status answer reports the file as processing. *)
Definition stuckRemote : Remote :=
  mkRemote (remoteFile "PROCESSING") (fun _ => remoteFile "PROCESSING") 0 0 [].

(** ** The response parser: facts *)

Section ParserFacts.

Variable toUpperCase : jsstring -> jsstring.
Variable toLowerCase : jsstring -> jsstring.

Local Abbreviation run := (run toUpperCase).
Local Abbreviation exec := (exec toUpperCase).
Local Abbreviation Matches := (Matches toUpperCase).
Local Abbreviation sameChar := (sameChar toUpperCase).

Lemma iterate_sound g (m : MatchState -> list MatchState) r :
  (forall x y, In y (m x) ->
     exists w, rest x = w ++ rest y /\ Matches r w (rest y)) ->
  forall n x y, In y (iterate g m n x) ->
    exists w, rest x = w ++ rest y /\ Matches (Star g r) w (rest y).
Proof.
  intros Hm. induction n as [|n IH]; intros x y Hy.
  - destruct Hy as [<-|[]]. exists []. split; [reflexivity|constructor].
  - assert (Hcases :
      y = x \/
      In y (flat_map
              (fun z => if Nat.ltb (length (rest z)) (length (rest x))
                        then iterate g m n z else []) (m x))).
    { simpl in Hy. destruct g.
      - apply in_app_or in Hy. destruct Hy as [H|[H|[]]]; auto.
      - destruct Hy as [H|H]; auto. }
    destruct Hcases as [->|Hin].
    + exists []. split; [reflexivity|constructor].
    + apply in_flat_map in Hin. destruct Hin as [z [Hz Hy']].
      destruct (Nat.ltb (length (rest z)) (length (rest x))); [|destruct Hy'].
      destruct (Hm _ _ Hz) as [w1 [E1 M1]].
      destruct (IH _ _ Hy') as [w2 [E2 M2]].
      exists (w1 ++ w2). split.
      * rewrite E1, E2, app_assoc. reflexivity.
      * constructor; [rewrite <- E2; exact M1 | exact M2].
Qed.

Lemma run_sound r : forall x y, In y (run r x) ->
  exists w, rest x = w ++ rest y /\ Matches r w (rest y).
Proof.
  induction r as [|p| | |r1 IH1 r2 IH2|r1 IH1 r2 IH2|g r1 IH1|k r1 IH1|r1 IH1|];
    intros x y Hy; simpl in Hy.
  - destruct Hy as [<-|[]]. exists []. split; [reflexivity|constructor].
  - destruct (rest x) as [|c s'] eqn:E; [destruct Hy|].
    destruct (sameChar p c) eqn:Hc; [|destruct Hy].
    destruct Hy as [<-|[]]. exists [c]. split; [reflexivity|].
    constructor. exact Hc.
  - destruct (rest x) as [|c s'] eqn:E; [destruct Hy|].
    destruct (isWhiteSpace c) eqn:Hc; [|destruct Hy].
    destruct Hy as [<-|[]]. exists [c]. split; [reflexivity|].
    constructor. exact Hc.
  - destruct (rest x) as [|c s'] eqn:E; [destruct Hy|].
    destruct Hy as [<-|[]]. exists [c]. split; [reflexivity|constructor].
  - apply in_flat_map in Hy. destruct Hy as [z [Hz Hy]].
    destruct (IH1 _ _ Hz) as [w1 [E1 M1]].
    destruct (IH2 _ _ Hy) as [w2 [E2 M2]].
    exists (w1 ++ w2). split.
    + rewrite E1, E2, app_assoc. reflexivity.
    + constructor; [rewrite <- E2; exact M1 | exact M2].
  - apply in_app_or in Hy. destruct Hy as [Hy|Hy].
    + destruct (IH1 _ _ Hy) as [w [E M]]. exists w. split; [exact E|].
      apply MatchesAltL. exact M.
    + destruct (IH2 _ _ Hy) as [w [E M]]. exists w. split; [exact E|].
      apply MatchesAltR. exact M.
  - eapply iterate_sound; [exact IH1 | exact Hy].
  - apply in_map_iff in Hy. destruct Hy as [z [<- Hz]]. simpl.
    destruct (IH1 _ _ Hz) as [w [E M]]. exists w. split; [exact E|].
    constructor. exact M.
  - destruct (run r1 x) as [|z l] eqn:E; [destruct Hy|].
    destruct Hy as [<-|[]]. simpl. exists []. split; [reflexivity|].
    destruct (IH1 x z) as [w [E1 M1]]; [rewrite E; left; reflexivity|].
    rewrite E1. constructor. exact M1.
  - destruct (rest x) as [|c s'] eqn:E; [|destruct Hy].
    destruct Hy as [<-|[]]. exists []. rewrite E. split; [reflexivity|].
    constructor.
Qed.

Lemma exec_sound r : forall s m, exec r s = Some m ->
  exists pre w, s = pre ++ w ++ rest m /\ Matches r w (rest m).
Proof.
  induction s as [|c s IH]; intros m H; simpl in H.
  - destruct (run r (mkMatchState [] (fun _ => None))) as [|z l] eqn:E;
      [discriminate|].
    injection H as <-.
    destruct (run_sound r (mkMatchState [] (fun _ => None)) z) as [w [E1 M1]];
      [rewrite E; left; reflexivity|].
    exists [], w. split; [exact E1 | exact M1].
  - destruct (run r (mkMatchState (c :: s) (fun _ => None))) as [|z l] eqn:E.
    + destruct (IH _ H) as [pre [w [E1 M1]]].
      exists (c :: pre), w. split; [rewrite E1; reflexivity | exact M1].
    + injection H as <-.
      destruct (run_sound r (mkMatchState (c :: s) (fun _ => None)) z)
        as [w [E1 M1]]; [rewrite E; left; reflexivity|].
      exists [], w. split; [exact E1 | exact M1].
Qed.

Local Abbreviation sameText := (sameText toUpperCase).
Local Abbreviation HeaderBeforeColon := (HeaderBeforeColon toUpperCase).

Ltac split_seq H w1 w2 M1 M2 :=
  inversion H as [| | | |? ? w1 w2 ? M1 M2| | | | | | |]; subst; clear H.

Lemma Matches_word h : forall w after, Matches (word h) w after -> sameText h w.
Proof.
  induction h as [|p h IH]; intros w after H; simpl in H.
  - inversion H; subst. constructor.
  - split_seq H w1 w2 M1 M2. inversion M1; subst. simpl.
    constructor; [assumption | eapply IH; eassumption].
Qed.

Lemma Matches_disjunction hs : hs <> [] -> forall w after,
  Matches (disjunction hs) w after -> exists h, In h hs /\ sameText h w.
Proof.
  induction hs as [|h hs IH]; intros Hne w after H; [congruence|].
  destruct hs as [|h' hs].
  - simpl in H. exists h. split; [left; reflexivity|].
    eapply Matches_word; eassumption.
  - change (disjunction (h :: h' :: hs))
      with (Alt (word h) (disjunction (h' :: hs))) in H.
    inversion H as [| | | | |? ? ? ? ML|? ? ? ? MR| | | | |]; subst.
    + exists h. split; [left; reflexivity|]. eapply Matches_word; eassumption.
    + destruct (IH ltac:(discriminate) _ _ MR) as [h0 [Hin Hs]].
      exists h0. split; [right; exact Hin | exact Hs].
Qed.

Lemma Matches_stars w after :
  Matches stars w after -> Forall (fun x => sameChar asterisk x = true) w.
Proof.
  intros H. remember stars as r eqn:Er.
  induction H; try discriminate; unfold stars in Er; injection Er as -> ->.
  - constructor.
  - inversion H; subst. simpl. constructor; [assumption|].
    apply IHMatches2. reflexivity.
Qed.

Lemma Matches_spaces w after :
  Matches spaces w after -> Forall (fun x => isWhiteSpace x = true) w.
Proof.
  intros H. remember spaces as r eqn:Er.
  induction H; try discriminate; unfold spaces in Er; injection Er as -> ->.
  - constructor.
  - inversion H; subst. simpl. constructor; [assumption|].
    apply IHMatches2. reflexivity.
Qed.

(** Both patterns of the parser begin with a header between optional
    asterisks and white space, followed by a colon. *)
Lemma Matches_header_prefix H T w after :
  Matches (stars >> spaces >> H >> stars >> spaces >> T) w after ->
  exists w0 hw a b wT,
    w = w0 ++ hw ++ a ++ b ++ wT
    /\ Matches H hw (a ++ b ++ wT ++ after)
    /\ Forall (fun x => sameChar asterisk x = true) a
    /\ Forall (fun x => isWhiteSpace x = true) b
    /\ Matches T wT after.
Proof.
  intros M.
  split_seq M v1 u1 A1 B1. split_seq B1 v2 u2 A2 B2. split_seq B2 v3 u3 A3 B3.
  split_seq B3 v4 u4 A4 B4. split_seq B4 v5 u5 A5 B5.
  exists (v1 ++ v2), v3, v4, v5, u5. repeat split.
  - rewrite <- !app_assoc. reflexivity.
  - rewrite <- !app_assoc in A3. exact A3.
  - eapply Matches_stars; eassumption.
  - eapply Matches_spaces; eassumption.
  - assumption.
Qed.

Lemma headerRegex_occurs h text :
  test toUpperCase (headerRegex h) text = true -> HeaderBeforeColon h text.
Proof.
  unfold test. destruct (exec (headerRegex h) text) as [m|] eqn:E;
    [intros _|discriminate].
  destruct (exec_sound _ _ _ E) as [pre [w [Et M]]].
  destruct (Matches_header_prefix _ _ _ _ M)
    as [w0 [hw [a [b [wT [Ew [MH [Ha [Hb MT]]]]]]]]].
  inversion MT; subst.
  exists (pre ++ w0), hw, a, b, c, (rest m). repeat split; try assumption.
  - rewrite <- !app_assoc. reflexivity.
  - eapply Matches_word; eassumption.
Qed.

Lemma sectionRegex_occurs cur look text m :
  cur <> [] -> exec (sectionRegex cur look) text = Some m ->
  exists h, In h cur /\ HeaderBeforeColon h text.
Proof.
  intros Hne E.
  destruct (exec_sound _ _ _ E) as [pre [w [Et M]]].
  destruct (Matches_header_prefix _ _ _ _ M)
    as [w0 [hw [a [b [wT [Ew [MH [Ha [Hb MT]]]]]]]]].
  split_seq MT v1 u1 A1 B1. inversion A1; subst.
  destruct (Matches_disjunction cur Hne _ _ MH) as [h [Hin Hs]].
  exists h. split; [exact Hin|].
  exists (pre ++ w0), hw, a, b, c, (u1 ++ rest m). repeat split; try assumption.
  rewrite <- !app_assoc. reflexivity.
Qed.

Lemma getSectionContent_none text cur :
  cur <> [] -> (forall h, In h cur -> ~ HeaderBeforeColon h text) ->
  getSectionContent toUpperCase toLowerCase text cur = [].
Proof.
  intros Hne Hno. unfold getSectionContent.
  match goal with |- match ?e with _ => _ end = _ => destruct e as [m|] eqn:E end;
    [|reflexivity].
  destruct (sectionRegex_occurs _ _ _ _ Hne E) as [h [Hin Ho]].
  destruct (Hno h Hin Ho).
Qed.

(** *** Cleaning *)

Lemma trimStart_suffix s : exists pre, s = pre ++ trimStart s.
Proof.
  induction s as [|c s [pre IH]]; simpl.
  - exists []. reflexivity.
  - destruct (isWhiteSpace c).
    + exists (c :: pre). simpl. rewrite <- IH. reflexivity.
    + exists []. reflexivity.
Qed.

Lemma trimStart_head s c s' : trimStart s = c :: s' -> isWhiteSpace c = false.
Proof.
  induction s as [|d s IH]; simpl; [discriminate|].
  destruct (isWhiteSpace d) eqn:E; [exact IH|].
  intros H. injection H as <- _. exact E.
Qed.

Lemma trimEnd_prefix s : exists suf, s = trimEnd s ++ suf.
Proof.
  unfold trimEnd. destruct (trimStart_suffix (rev s)) as [pre E].
  exists (rev pre). rewrite <- rev_app_distr, <- E, rev_involutive. reflexivity.
Qed.

Lemma trimEnd_last s c s' : trimEnd s = s' ++ [c] -> isWhiteSpace c = false.
Proof.
  unfold trimEnd. intros H. apply (f_equal (@rev codeUnit)) in H.
  rewrite rev_involutive, rev_app_distr in H. simpl in H.
  eapply trimStart_head; eassumption.
Qed.

Lemma In_trim c s : In c (trim s) -> In c s.
Proof.
  unfold trim. intros H.
  destruct (trimStart_suffix s) as [pre E].
  destruct (trimEnd_prefix (trimStart s)) as [suf E'].
  rewrite E, E'. apply in_or_app. right. apply in_or_app. left. exact H.
Qed.

Lemma clean_tidy str : tidy (clean str).
Proof.
  unfold clean. set (x := removeAsterisks _). repeat split.
  - intros H. apply In_trim in H. unfold x, removeAsterisks in H.
    apply filter_In in H. destruct H as [_ H].
    rewrite N.eqb_refl in H. discriminate.
  - intros c s' H. unfold trim in H.
    destruct (trimEnd_prefix (trimStart x)) as [suf E]. rewrite H in E.
    eapply trimStart_head; eassumption.
  - intros c s' H. unfold trim in H. eapply trimEnd_last; eassumption.
Qed.

Lemma nil_tidy : tidy [].
Proof.
  repeat split.
  - intros [].
  - discriminate.
  - intros c s' H. destruct s'; discriminate.
Qed.

Lemma getSectionContent_tidy text cur :
  tidy (getSectionContent toUpperCase toLowerCase text cur).
Proof.
  unfold getSectionContent.
  match goal with |- tidy (match ?e with _ => _ end) => destruct e end.
  - apply clean_tidy.
  - apply nil_tidy.
Qed.

Lemma HeaderBeforeColon_colon h text :
  HeaderBeforeColon h text -> existsb (sameChar colon) text = true.
Proof.
  intros [pre [w [a [b [c [post [E [_ [_ [_ Hc]]]]]]]]]].
  apply existsb_exists. exists c. split; [|exact Hc].
  rewrite E. repeat (apply in_or_app; right). left. reflexivity.
Qed.

(** *** [parseSeoResponse] on every text *)

(** C2, as amended: for every text in which none of the six recognized
    header tokens occurs, in any letter case, followed by optional asterisks,
    optional white space and a colon, the parser returns keywords equal to
    the whole text with all asterisks removed and surrounding white space
    trimmed, and an empty title and localized title. *)
Theorem parse_fallback_without_header (text : jsstring) :
  (forall h, In h allHeaders -> ~ HeaderBeforeColon h text) ->
  parseSeoResponse toUpperCase toLowerCase (Some text)
  = mkSeoData [] [] (clean (Some text)).
Proof.
  intros Hno. destruct text as [|c t]; [reflexivity|].
  unfold parseSeoResponse.
  assert (T : getSectionContent toUpperCase toLowerCase (c :: t)
                [lit "Заголовок"; lit "Title"] = []).
  { apply getSectionContent_none; [intros E; discriminate E|].
    intros h Hin. apply Hno. unfold allHeaders.
    destruct Hin as [<-|[<-|[]]].
    - left; reflexivity.
    - right; left; reflexivity. }
  assert (R : getSectionContent toUpperCase toLowerCase (c :: t)
                [lit "Russian Title"; lit "Русский заголовок"] = []).
  { apply getSectionContent_none; [intros E; discriminate E|].
    intros h Hin. apply Hno. unfold allHeaders.
    destruct Hin as [<-|[<-|[]]].
    - right; right; left; reflexivity.
    - right; right; right; left; reflexivity. }
  assert (K : getSectionContent toUpperCase toLowerCase (c :: t)
                [lit "Ключевые слова"; lit "Keywords"] = []).
  { apply getSectionContent_none; [intros E; discriminate E|].
    intros h Hin. apply Hno. unfold allHeaders.
    destruct Hin as [<-|[<-|[]]].
    - right; right; right; right; left; reflexivity.
    - right; right; right; right; right; left; reflexivity. }
  unfold parseSeoResponse. cbv zeta.
  generalize dependent (getSectionContent toUpperCase toLowerCase (c :: t)
                [lit "Заголовок"; lit "Title"]).
  generalize dependent (getSectionContent toUpperCase toLowerCase (c :: t)
                [lit "Russian Title"; lit "Русский заголовок"]).
  generalize dependent (getSectionContent toUpperCase toLowerCase (c :: t)
                [lit "Ключевые слова"; lit "Keywords"]).
  intros k -> r -> x ->.
  cbn [isEmpty andb].
  destruct (existsb _ allHeaders) eqn:E; [|reflexivity].
  apply existsb_exists in E. destruct E as [h [Hin Ht]].
  destruct (Hno h Hin). apply headerRegex_occurs. exact Ht.
Qed.

(** C10: for every input text, each of the three fields returned by the
    parser holds no asterisk and has no white space at either end. *)
Theorem parse_fields_tidy (text : option jsstring) :
  tidy (title (parseSeoResponse toUpperCase toLowerCase text))
  /\ tidy (russianTitle (parseSeoResponse toUpperCase toLowerCase text))
  /\ tidy (keywords (parseSeoResponse toUpperCase toLowerCase text)).
Proof.
  destruct text as [[|c t]|]; try (simpl; repeat split; apply nil_tidy).
  unfold parseSeoResponse. cbv zeta. simpl title. simpl russianTitle.
  simpl keywords.
  split; [apply getSectionContent_tidy|].
  split; [apply getSectionContent_tidy|].
  destruct (_ && _); [|apply getSectionContent_tidy].
  destruct (negb _); [apply clean_tidy | apply getSectionContent_tidy].
Qed.

End ParserFacts.

(** *** The parser on given texts *)

(** The witness of [parse_fallback_without_header]: a bare keyword list. *)
Lemma parse_fallback_without_header_witness :
  (forall h, In h allHeaders ->
     ~ HeaderBeforeColon toUpperCaseTab h (lit "cat, pet, cute"))
  /\ parse (lit "cat, pet, cute")
     = mkSeoData [] [] (clean (Some (lit "cat, pet, cute"))).
Proof.
  assert (Hno : forall h, In h allHeaders ->
            ~ HeaderBeforeColon toUpperCaseTab h (lit "cat, pet, cute")).
  { intros h _ Ho. apply HeaderBeforeColon_colon in Ho.
    vm_compute in Ho. discriminate. }
  split; [exact Hno|].
  exact (parse_fallback_without_header toUpperCaseTab toLowerCaseTab
           (lit "cat, pet, cute") Hno).
Defined.

(** C2, as stated, fails: in the text [title : x] none of the six tokens is
    followed by a colon (the token is in lower case and a space precedes the
    colon), yet the title pattern, which ignores case and allows white space
    before the colon, extracts [x]; the keywords are empty and not the
    cleaned text. *)
Lemma parse_fallback_counterexample :
  forallb (fun h => negb (occursIn (h ++ [colon]) (lit "title : x"))) allHeaders
  = true
  /\ title (parse (lit "title : x")) = lit "x"
  /\ keywords (parse (lit "title : x")) = []
  /\ clean (Some (lit "title : x")) = lit "title : x".
Proof. vm_compute. repeat split; reflexivity. Qed.

(** C3: the text [Заголовок: Cats], a line feed, [Keywords: cat, pet, cute]
    parses to the title [Cats], an empty localized title and the keywords
    [cat, pet, cute]. *)
Theorem parse_cats :
  parse (lit ("Заголовок: Cats" ++ nl ++ "Keywords: cat, pet, cute")%string)
  = mkSeoData (lit "Cats") [] (lit "cat, pet, cute").
Proof. vm_compute. reflexivity. Qed.

(** C1 fails on the code: with the localized title section first, the title
    pattern finds [Title] inside [Russian Title] and returns the localized
    title's content and the whole title section, where the other order
    returns [A]. *)
Theorem parse_section_order :
  parse (lit ("Title: A" ++ nl ++ "Russian Title: B" ++ nl ++ "Keywords: C")%string)
  = mkSeoData (lit "A") (lit "B") (lit "C")
  /\ parse (lit ("Russian Title: B" ++ nl ++ "Title: A" ++ nl ++ "Keywords: C")%string)
     = mkSeoData (lit ("B" ++ nl ++ "Title: A")%string) (lit "B") (lit "C").
Proof. vm_compute. split; reflexivity. Qed.

(** ** Unescaping apostrophes *)

Lemma replaceAllFrom_unescape n : forall s, length s <= n ->
  replaceAllFrom [backslash; apostrophe] [apostrophe] 0 s = unescapeApostrophes s.
Proof.
  induction n as [|n IH]; intros s Hn.
  - destruct s; [reflexivity | simpl in Hn; lia].
  - destruct s as [|c [|d s]]; [reflexivity| |].
    + simpl. rewrite andb_false_r. reflexivity.
    + cbn [replaceAllFrom startsWith unescapeApostrophes length Nat.sub app].
      rewrite andb_true_r, (N.eqb_sym backslash c), (N.eqb_sym apostrophe d).
      destruct ((c =? backslash)%N && (d =? apostrophe)%N).
      * f_equal. apply IH. simpl in Hn. lia.
      * f_equal. apply (IH (d :: s)). simpl in Hn |- *. lia.
Qed.

(** The code's [replaceAll] does what the spec's words say. *)
Lemma replaceAll_unescape s :
  replaceAll s [backslash; apostrophe] [apostrophe] = unescapeApostrophes s.
Proof. apply (replaceAllFrom_unescape (length s)). apply Nat.le_refl. Qed.

Lemma processTimecodes_unescape l :
  processTimecodes l
  = map (fun t =>
           Timecode.mk (Timecode.time t) (unescapeApostrophes (Timecode.text t)))
        l.
Proof.
  unfold processTimecodes. apply map_ext. intros t.
  rewrite replaceAll_unescape. reflexivity.
Qed.

(** ** The collection controller: facts *)

Lemma jsstring_eqb_eq a b : jsstring_eqb a b = true <-> a = b.
Proof.
  unfold jsstring_eqb. destruct (list_eq_dec N.eq_dec a b); split;
    congruence.
Qed.

Lemma jsstring_eqb_refl a : jsstring_eqb a a = true.
Proof. apply jsstring_eqb_eq. reflexivity. Qed.

Lemma jsstring_eqb_neq a b : a <> b -> jsstring_eqb a b = false.
Proof.
  intros H. destruct (jsstring_eqb a b) eqn:E; [|reflexivity].
  apply jsstring_eqb_eq in E. contradiction.
Qed.

Lemma NoDup_map_filter {A B : Type} (g : A -> B) (f : A -> bool) l :
  NoDup (map g l) -> NoDup (map g (filter f l)).
Proof.
  induction l as [|x l IH]; simpl; intros H; [constructor|].
  inversion H as [|? ? Hx Hl]; subst.
  destruct (f x); [|auto].
  simpl. constructor; [|auto].
  intros Hin. apply Hx. apply in_map_iff in Hin.
  destruct Hin as [y [E Hy]]. apply filter_In in Hy.
  apply in_map_iff. exists y. tauto.
Qed.

Lemma find_mapiFrom (f : nat -> Entry.t -> TaskResult) :
  (forall j x, resultId (f j x) = Entry.id x) ->
  forall l k i v,
    NoDup (map Entry.id l) -> nth_error l i = Some v ->
    find (fun r => jsstring_eqb (resultId r) (Entry.id v)) (mapiFrom f k l)
    = Some (f (k + i) v).
Proof.
  intros Hid. induction l as [|x l IH]; intros k i v Hnd Hi.
  - destruct i; discriminate.
  - inversion Hnd as [|? ? Hx Hl]; subst. destruct i as [|i]; simpl in Hi |- *.
    + injection Hi as ->. rewrite Hid, jsstring_eqb_refl, Nat.add_0_r.
      reflexivity.
    + rewrite Hid, jsstring_eqb_neq.
      * rewrite (IH (S k) i v Hl Hi). f_equal. f_equal. lia.
      * intros E. apply Hx. rewrite E. apply in_map.
        eapply nth_error_In; eassumption.
Qed.

Lemma findIndexFrom_first {A : Type} (f : A -> bool) : forall l k i v,
  nth_error l i = Some v -> f v = true ->
  (forall j u, j < i -> nth_error l j = Some u -> f u = false) ->
  findIndexFrom f l k = (k + Z.of_nat i)%Z.
Proof.
  induction l as [|x l IH]; intros k i v Hi Hv Hbefore.
  - destruct i; discriminate.
  - destruct i as [|i]; simpl in Hi |- *.
    + injection Hi as ->. rewrite Hv. lia.
    + rewrite (Hbefore 0 x); [|lia|reflexivity].
      rewrite (IH (k + 1)%Z i v Hi Hv).
      * lia.
      * intros j u Hj Hu. apply (Hbefore (S j) u); [lia | exact Hu].
Qed.

Lemma find_none_iff {A : Type} (f : A -> bool) l :
  find f l = None <-> forall x, In x l -> f x = false.
Proof.
  induction l as [|y l IH]; simpl.
  - split; [intros _ x [] | reflexivity].
  - destruct (f y) eqn:E; split.
    + discriminate.
    + intros H. rewrite (H y) in E; [discriminate | left; reflexivity].
    + intros H x [<-|Hx]; [exact E | apply IH; assumption].
    + intros H. apply IH. intros x Hx. apply H. right. exact Hx.
Qed.

(** *** Removing a video *)

Lemma elementAt_closest {A : Type} (l : list A) (i : nat) :
  l <> [] ->
  exists u,
    nth_error l (Nat.min i (length l - 1)) = Some u
    /\ elementAt l (Z.min (Z.of_nat i) (Z.of_nat (length l) - 1)) = Some u.
Proof.
  intros Hne.
  assert (Hlen : 0 < length l) by (destruct l; [congruence | simpl; lia]).
  destruct (nth_error l (Nat.min i (length l - 1))) as [u|] eqn:E.
  - exists u. split; [reflexivity|]. unfold elementAt.
    replace (Z.min (Z.of_nat i) (Z.of_nat (length l) - 1))
      with (Z.of_nat (Nat.min i (length l - 1))) by lia.
    destruct (Z.ltb_spec (Z.of_nat (Nat.min i (length l - 1))) 0); [lia|].
    rewrite Nat2Z.id. exact E.
  - apply nth_error_None in E. lia.
Qed.

Lemma restoreEffect_keeps_active s a :
  activeVideoId s = Some a ->
  (exists u, In u (videoFiles s) /\ Entry.id u = a) ->
  activeVideoId (restoreEffect s) = Some a.
Proof.
  intros Ha [u [Hu Hid]]. unfold restoreEffect.
  destruct (activeVideo s) as [v|] eqn:Ev.
  - destruct (if hasSeoFields v then Entry.seoData v else None);
      [|destruct (Entry.timecodeList v)]; exact Ha.
  - unfold activeVideo in Ev. rewrite Ha in Ev |- *.
    destruct a as [|c a]; [exact Ha|].
    apply find_none_iff with (x := u) in Ev; [|exact Hu].
    unfold hasId in Ev. rewrite Hid, jsstring_eqb_refl in Ev. discriminate.
Qed.

(** C6: when the removed video is the active one, the remaining video at
    index [min originalIndex (remainingCount - 1)] becomes active, where
    [originalIndex] is the index of the first video with the removed id; when
    no video remains, none is active.  The restore effect that runs after the
    removal keeps that choice. *)
Theorem handleRemoveVideo_promotes (s : AppState) (idToRemove : jsstring)
  (originalIndex : nat) (v : Entry.t) :
  activeVideoId s = Some idToRemove ->
  nth_error (videoFiles s) originalIndex = Some v ->
  Entry.id v = idToRemove ->
  (forall j u, j < originalIndex -> nth_error (videoFiles s) j = Some u ->
     Entry.id u <> idToRemove) ->
  let remaining :=
    filter (fun u => negb (hasId idToRemove u)) (videoFiles s) in
  let s' := handleRemoveVideo idToRemove s in
  videoFiles s' = remaining
  /\ match remaining with
     | [] => activeVideoId s' = None
     | _ :: _ =>
         exists u,
           nth_error remaining (Nat.min originalIndex (length remaining - 1))
           = Some u
           /\ activeVideoId s' = Some (Entry.id u)
     end
  /\ activeVideoId (restoreEffect s') = activeVideoId s'.
Proof.
  intros Hact Hv Hid Hfirst remaining s'.
  assert (Hhas : hasId idToRemove v = true)
    by (unfold hasId; rewrite Hid; apply jsstring_eqb_refl).
  assert (Hidx : findIndex (hasId idToRemove) (videoFiles s)
                 = Z.of_nat originalIndex).
  { unfold findIndex.
    rewrite (findIndexFrom_first (hasId idToRemove) (videoFiles s) 0
               originalIndex v Hv Hhas); [lia|].
    intros j u Hj Hu. unfold hasId. apply jsstring_eqb_neq.
    eapply Hfirst; eassumption. }
  assert (Hs' : s' = handleRemoveVideo idToRemove s) by reflexivity.
  unfold handleRemoveVideo in Hs'.
  destruct (find (hasId idToRemove) (videoFiles s)) as [w|] eqn:Ef.
  2:{ apply find_none_iff with (x := v) in Ef;
        [congruence | eapply nth_error_In; eassumption]. }
  unfold isActiveId in Hs'. rewrite Hact, jsstring_eqb_refl, Hidx in Hs'.
  fold remaining in Hs'.
  destruct remaining as [|r0 rs] eqn:Er.
  - rewrite Hs'. simpl. repeat split; reflexivity.
  - destruct (elementAt_closest (r0 :: rs) originalIndex ltac:(discriminate))
      as [u [Hn He]].
    rewrite He in Hs'. rewrite Hs'. split; [reflexivity|]. split.
    + exists u. split; [exact Hn | reflexivity].
    + apply restoreEffect_keeps_active; [reflexivity|].
      exists u. split; [|reflexivity].
      change (In u (r0 :: rs)). eapply nth_error_In; eassumption.
Qed.

(** C9: removing an id that no video of the collection has changes
    nothing: not the collection, not the active video id, not the display
    state, and no object URL is revoked. *)
Theorem handleRemoveVideo_absent (s : AppState) (idToRemove : jsstring) :
  (forall v, In v (videoFiles s) -> Entry.id v <> idToRemove) ->
  handleRemoveVideo idToRemove s = s.
Proof.
  intros Habsent. unfold handleRemoveVideo.
  replace (find (hasId idToRemove) (videoFiles s)) with (@None Entry.t);
    [reflexivity|].
  symmetry. apply find_none_iff. intros v Hv. unfold hasId.
  apply jsstring_eqb_neq. apply Habsent. exact Hv.
Qed.

(** *** Running a mode *)

Lemma find_mapiFrom_inv {A B : Type} (g : nat -> A -> B) (f : B -> bool) :
  forall l k r, find f (mapiFrom g k l) = Some r ->
  exists i v, nth_error l i = Some v /\ r = g (k + i) v /\ f r = true.
Proof.
  induction l as [|x l IH]; intros k r H; simpl in H; [discriminate|].
  destruct (f (g k x)) eqn:E.
  - injection H as <-. exists 0, x. rewrite Nat.add_0_r. auto.
  - destruct (IH _ _ H) as [i [v [Hi [Hr Hf]]]].
    exists (S i), v. split; [exact Hi|]. split; [|exact Hf].
    rewrite Hr. f_equal. lia.
Qed.

Section ControllerFacts.

Variable toUpperCase : jsstring -> jsstring.
Variable toLowerCase : jsstring -> jsstring.
Variable modes : jsstring -> option ModeConfig.
Variable generateContent :
  nat -> jsstring -> option (list FunctionDeclaration) -> option GeminiFile.t
  -> Promise Response.t.

Local Abbreviation runMode :=
  (onModeSelect toUpperCase toLowerCase modes generateContent).
Local Abbreviation task := (runTask generateContent).
Local Abbreviation cache := (cacheResult toUpperCase toLowerCase).

Lemma runTask_id cfg s i v : resultId (task cfg s i v) = Entry.id v.
Proof.
  unfold runTask. destruct (generateContent _ _ _ _); reflexivity.
Qed.

Lemma targets_NoDup s :
  NoDup (map Entry.id (videoFiles s)) -> NoDup (map Entry.id (targets s)).
Proof.
  intros H. unfold targets. destruct (applyToAll s);
    apply NoDup_map_filter; exact H.
Qed.

Lemma targets_In s v : In v (targets s) -> In v (videoFiles s).
Proof.
  unfold targets. destruct (applyToAll s); intros H; apply filter_In in H;
    tauto.
Qed.

(** With distinct ids, the updater finds for a target the result of the
    target's own task. *)
Lemma find_own_result cfg s i v :
  NoDup (map Entry.id (videoFiles s)) ->
  nth_error (targets s) i = Some v ->
  find (fun r => jsstring_eqb (resultId r) (Entry.id v))
    (mapiFrom (task cfg s) 0 (targets s))
  = Some (task cfg s i v).
Proof.
  intros Hnd Hi.
  apply (find_mapiFrom (task cfg s) (runTask_id cfg s) (targets s) 0 i v);
    [apply targets_NoDup; exact Hnd | exact Hi].
Qed.

(** *** Switching the active video *)

(** What [setActive] displays: for every non-empty id of a video of the
    collection that is not the active id already, [setActive] makes it the
    active id and
    - when the video's cached structured fields have a non-empty title or
      non-empty keywords, displays these fields, the cached free text (none
      when it is empty) and the SEO mode, and leaves the displayed timecode
      list as it was;
    - otherwise, when the video has a cached timecode list, displays it with
      no text, empty structured fields and the subtitles mode;
    - otherwise clears the display: empty structured fields, no timecode
      list, no text, no active mode.
    The cached structured fields are taken to be those parsed from the cached
    free text, as every write of the cache makes them. *)
Lemma setActive_shows (s : AppState) (x : jsstring) (v : Entry.t) :
  x <> [] ->
  isActiveId x s = false ->
  find (hasId x) (videoFiles s) = Some v ->
  (forall d, Entry.seoData v = Some d ->
     d = parseSeoResponse toUpperCase toLowerCase (Entry.textResponse v)) ->
  let s' := setActive toUpperCase toLowerCase x s in
  activeVideoId s' = Some x
  /\ (hasSeoFields v = true ->
      exists d,
        Entry.seoData v = Some d
        /\ seoData s' = d
        /\ textResponse s' = orNull (Entry.textResponse v)
        /\ activeMode s' = Some MODE_SEO
        /\ timecodeList s' = timecodeList s)
  /\ (hasSeoFields v = false ->
      forall l, Entry.timecodeList v = Some l ->
        timecodeList s' = Some l
        /\ textResponse s' = None
        /\ seoData s' = emptySeoData
        /\ activeMode s' = Some (lit "Аудио/Видео субтитры"))
  /\ (hasSeoFields v = false ->
      Entry.timecodeList v = None ->
      timecodeList s' = None
      /\ textResponse s' = None
      /\ seoData s' = emptySeoData
      /\ activeMode s' = None).
Proof.
  intros Hx Hnot Hfind Hcache s'.
  assert (Hav : activeVideo (setActiveVideoId (Some x) s) = Some v).
  { unfold activeVideo. simpl. destruct x; [congruence | exact Hfind]. }
  assert (Hs' : s' = let s2 := restoreEffect (setActiveVideoId (Some x) s) in
                     if displayChanged s s2
                     then reparseEffect toUpperCase toLowerCase s2 else s2).
  { unfold s', setActive. rewrite Hnot, Hav. reflexivity. }
  cbv zeta in Hs'. unfold restoreEffect in Hs'. rewrite Hav in Hs'.
  destruct (hasSeoFields v) eqn:Hg.
  - destruct (Entry.seoData v) as [d|] eqn:Hd;
      [|unfold hasSeoFields in Hg; rewrite Hd in Hg; discriminate].
    assert (Hs'' : s' = setCorrectionText []
                          (setActiveMode (Some MODE_SEO)
                             (setTextResponse (orNull (Entry.textResponse v))
                                (setSeoData d
                                   (setActiveVideoId (Some x) s))))).
    { rewrite Hs'. destruct (displayChanged _ _); [|reflexivity].
      unfold reparseEffect. cbn [activeMode textResponse seoData
        setCorrectionText setActiveMode setTextResponse setSeoData].
      rewrite jsstring_eqb_refl.
      destruct (Entry.textResponse v) as [[|c t]|] eqn:Et; try reflexivity.
      cbn [orNull]. rewrite <- (Hcache d eq_refl), !jsstring_eqb_refl.
      reflexivity. }
    rewrite Hs''. split; [reflexivity|]. split; [|split; discriminate].
    intros _. exists d. repeat split; reflexivity.
  - destruct (Entry.timecodeList v) as [l|] eqn:Hl.
    + assert (Hs'' : s' = setCorrectionText []
                            (setSeoData emptySeoData
                               (setActiveMode (Some (lit "Аудио/Видео субтитры"))
                                  (setTextResponse None
                                     (setTimecodeList (Some l)
                                        (setActiveVideoId (Some x) s)))))).
      { rewrite Hs'. destruct (displayChanged _ _); reflexivity. }
      rewrite Hs''. split; [reflexivity|]. split; [discriminate|].
      split; [|discriminate].
      intros _ l' E. injection E as <-. repeat split; reflexivity.
    + assert (Hs'' : s' = setCorrectionText []
                            (setActiveMode None
                               (setSeoData emptySeoData
                                  (setTextResponse None
                                     (setTimecodeList None
                                        (setActiveVideoId (Some x) s)))))).
      { rewrite Hs'. destruct (displayChanged _ _); reflexivity. }
      rewrite Hs''. split; [reflexivity|]. split; [discriminate|].
      split; [discriminate|].
      intros _ _. repeat split; reflexivity.
Qed.

(** C8: the restore of a cached result forgets the localized title.  For
    every non-empty id of a video of the collection that is not the active
    id already, when the video's record caches a free text and structured
    fields whose title and keywords are empty and whose localized title is
    not, [setActive] makes the id active but does not restore the cached
    text and fields: the displayed fields are empty, so they are not the
    cached ones, and no text is displayed; the timecode list and the mode are
    those of the branch for a video without cached fields (the cached
    timecode list with the subtitles mode, or none of both).  The claim has
    the cached text and fields restored; the guard of the restore tests the
    title and the keywords only. *)
Theorem setActive_forgets_localized_title (s : AppState) (x : jsstring)
  (v : Entry.t) (d : SeoData) (t : jsstring) :
  x <> [] ->
  isActiveId x s = false ->
  find (hasId x) (videoFiles s) = Some v ->
  Entry.seoData v = Some d ->
  Entry.textResponse v = Some t ->
  title d = [] ->
  keywords d = [] ->
  russianTitle d <> [] ->
  let s' := setActive toUpperCase toLowerCase x s in
  activeVideoId s' = Some x
  /\ seoData s' = emptySeoData
  /\ seoData s' <> d
  /\ textResponse s' = None
  /\ timecodeList s' = Entry.timecodeList v
  /\ activeMode s'
     = match Entry.timecodeList v with
       | Some _ => Some (lit "Аудио/Видео субтитры")
       | None => None
       end.
Proof.
  intros Hx Hnot Hfind Hd Htxt Ht Hk Hr s'.
  assert (Hav : activeVideo (setActiveVideoId (Some x) s) = Some v).
  { unfold activeVideo. simpl. destruct x; [congruence | exact Hfind]. }
  assert (Hg : hasSeoFields v = false).
  { unfold hasSeoFields. rewrite Hd, Ht, Hk. reflexivity. }
  assert (Hne : emptySeoData <> d).
  { intros E. apply Hr. rewrite <- E. reflexivity. }
  assert (Hs' : s' = let s2 := restoreEffect (setActiveVideoId (Some x) s) in
                     if displayChanged s s2
                     then reparseEffect toUpperCase toLowerCase s2 else s2).
  { unfold s', setActive. rewrite Hnot, Hav. reflexivity. }
  cbv zeta in Hs'. unfold restoreEffect in Hs'. rewrite Hav, Hg in Hs'.
  destruct (Entry.timecodeList v) as [l|] eqn:Hl.
  - assert (Hs'' : s' = setCorrectionText []
                          (setSeoData emptySeoData
                             (setActiveMode (Some (lit "Аудио/Видео субтитры"))
                                (setTextResponse None
                                   (setTimecodeList (Some l)
                                      (setActiveVideoId (Some x) s)))))).
    { rewrite Hs'. destruct (displayChanged _ _); reflexivity. }
    rewrite Hs''. split; [reflexivity|]. split; [reflexivity|].
    split; [exact Hne|]. split; [reflexivity|]. split; reflexivity.
  - assert (Hs'' : s' = setCorrectionText []
                          (setActiveMode None
                             (setSeoData emptySeoData
                                (setTextResponse None
                                   (setTimecodeList None
                                      (setActiveVideoId (Some x) s)))))).
    { rewrite Hs'. destruct (displayChanged _ _); reflexivity. }
    rewrite Hs''. split; [reflexivity|]. split; [reflexivity|].
    split; [exact Hne|]. split; [reflexivity|]. split; reflexivity.
Qed.

(** A run with at least one target completes, and its collection is the old
    one with the updater applied to each entry. *)
Lemma onModeSelect_completes mode cfg s :
  modes mode = Some cfg ->
  targets s <> [] ->
  exists s',
    runMode mode s = Completed s'
    /\ videoFiles s'
       = map (cache (isText cfg)
                (mapiFrom (task cfg s) 0 (targets s)))
           (videoFiles s)
    /\ textResponse s'
       = textResponse
           (showActiveResult (isText cfg)
              (mapiFrom (task cfg s) 0 (targets s)) (activeVideoId s)
              (setTextResponse None s)).
Proof.
  intros Hm Ht. unfold onModeSelect. rewrite Hm.
  destruct (targets s) as [|t0 ts] eqn:Et; [congruence|].
  eexists. split; [reflexivity|].
  unfold showActiveResult.
  destruct (activeVideoId s) as [a|]; [|split; reflexivity].
  destruct (find _ _) as [[i resp|i e]|]; try (split; reflexivity).
  destruct (isText cfg); [split; reflexivity|].
  destruct (firstCall resp) as [call|]; [|split; reflexivity].
  destruct (jsstring_eqb _ _); split; reflexivity.
Qed.

Lemma cacheResult_timecodes cfg s i v resp call :
  isText cfg = false ->
  NoDup (map Entry.id (videoFiles s)) ->
  nth_error (targets s) i = Some v ->
  generateContent i (basePrompt cfg s) (Some functions) (Entry.geminiFile v)
  = Fulfilled resp ->
  firstCall resp = Some call ->
  FunctionCall.name call = lit "set_timecodes" ->
  cache false (mapiFrom (task cfg s) 0 (targets s)) v
  = Entry.withTimecodeList
      (map (fun t =>
              Timecode.mk (Timecode.time t)
                (unescapeApostrophes (Timecode.text t)))
           (FunctionCall.timecodes call))
      v.
Proof.
  intros Hs Hnd Hi Hg Hc Hn. unfold cacheResult.
  rewrite (find_own_result cfg s i v Hnd Hi).
  unfold runTask. rewrite Hs, Hg, Hc, Hn, jsstring_eqb_refl.
  rewrite processTimecodes_unescape. reflexivity.
Qed.

(** C7: when a structured mode is run and the response for a target has
    [set_timecodes] as its first function call, the run completes and the
    target's record in the resulting collection holds, as its cached
    timecode list, the call's list with every backslash-apostrophe pair of
    each entry's text replaced by an apostrophe: what is cached is the
    unescaped list.  The other fields of the record are those of the old
    record.  The ids of the videos are distinct, as they are in every state
    that the handlers reach. *)
Theorem onModeSelect_caches_unescaped (mode : jsstring) (cfg : ModeConfig)
  (s : AppState) (i j : nat) (v : Entry.t) (resp : Response.t)
  (call : FunctionCall.t) (calls : list FunctionCall.t) :
  modes mode = Some cfg ->
  isText cfg = false ->
  NoDup (map Entry.id (videoFiles s)) ->
  nth_error (targets s) i = Some v ->
  nth_error (videoFiles s) j = Some v ->
  generateContent i (basePrompt cfg s) (Some functions) (Entry.geminiFile v)
  = Fulfilled resp ->
  Response.functionCalls resp = Some (call :: calls) ->
  FunctionCall.name call = lit "set_timecodes" ->
  exists s' v',
    runMode mode s = Completed s'
    /\ nth_error (videoFiles s') j = Some v'
    /\ Entry.timecodeList v'
       = Some (map (fun t =>
                      Timecode.mk (Timecode.time t)
                        (unescapeApostrophes (Timecode.text t)))
                 (FunctionCall.timecodes call))
    /\ Entry.id v' = Entry.id v
    /\ Entry.name v' = Entry.name v
    /\ Entry.url v' = Entry.url v
    /\ Entry.file v' = Entry.file v
    /\ Entry.geminiFile v' = Entry.geminiFile v
    /\ Entry.uploadError v' = Entry.uploadError v
    /\ Entry.seoData v' = Entry.seoData v
    /\ Entry.textResponse v' = Entry.textResponse v.
Proof.
  intros Hm Hs Hnd Hi Hj Hg Hc Hn.
  destruct (onModeSelect_completes mode cfg s Hm) as [s' [Hrun [Hv _]]].
  { intros E. rewrite E in Hi. destruct i; discriminate. }
  assert (Hcall : firstCall resp = Some call).
  { unfold firstCall. rewrite Hc. reflexivity. }
  exists s', (cache false (mapiFrom (task cfg s) 0 (targets s)) v).
  split; [exact Hrun|]. split.
  - rewrite Hv, nth_error_map, Hj, Hs. reflexivity.
  - rewrite (cacheResult_timecodes cfg s i v resp call Hs Hnd Hi Hg Hcall Hn).
    repeat split; reflexivity.
Qed.

(** C4, as amended: when a structured mode is run against all ready videos,
    the call for one target is rejected and the response for every other
    target has [set_timecodes] as its first function call, the run completes
    (nothing is thrown), every other target ends with a record that holds,
    as its cached timecode list, the unescaped list of its own response, its
    other fields being those of the old record, and the record of the
    failing video is left as it was; the error message is displayed as the
    text response when the failing video is the active one and no text
    response is displayed otherwise. *)
Theorem onModeSelect_isolates_failure (mode : jsstring) (cfg : ModeConfig)
  (s : AppState) (k : nat) (vk : Entry.t) (message : jsstring) :
  modes mode = Some cfg ->
  isText cfg = false ->
  applyToAll s = true ->
  NoDup (map Entry.id (videoFiles s)) ->
  nth_error (targets s) k = Some vk ->
  generateContent k (basePrompt cfg s) (Some functions) (Entry.geminiFile vk)
  = Rejected message ->
  (forall i v, i <> k -> nth_error (targets s) i = Some v ->
     exists resp call,
       generateContent i (basePrompt cfg s) (Some functions)
         (Entry.geminiFile v) = Fulfilled resp
       /\ firstCall resp = Some call
       /\ FunctionCall.name call = lit "set_timecodes") ->
  exists s',
    runMode mode s = Completed s'
    /\ targets s = filter (fun v => isSome (Entry.geminiFile v)) (videoFiles s)
    /\ (forall i v, i <> k -> nth_error (targets s) i = Some v ->
          exists resp call,
            generateContent i (basePrompt cfg s) (Some functions)
              (Entry.geminiFile v) = Fulfilled resp
            /\ firstCall resp = Some call
            /\ exists v',
                 In v' (videoFiles s')
                 /\ Entry.timecodeList v'
                    = Some (map (fun t =>
                                   Timecode.mk (Timecode.time t)
                                     (unescapeApostrophes (Timecode.text t)))
                              (FunctionCall.timecodes call))
                 /\ Entry.id v' = Entry.id v
                 /\ Entry.name v' = Entry.name v
                 /\ Entry.url v' = Entry.url v
                 /\ Entry.file v' = Entry.file v
                 /\ Entry.geminiFile v' = Entry.geminiFile v
                 /\ Entry.uploadError v' = Entry.uploadError v
                 /\ Entry.seoData v' = Entry.seoData v
                 /\ Entry.textResponse v' = Entry.textResponse v)
    /\ In vk (videoFiles s')
    /\ textResponse s'
       = if isActiveId (Entry.id vk) s
         then Some (lit "Ошибка: " ++ message) else None.
Proof.
  intros Hm Hs Hall Hnd Hk Hrej Hothers.
  destruct (onModeSelect_completes mode cfg s Hm) as [s' [Hrun [Hv Ht]]].
  { intros E. rewrite E in Hk. destruct k; discriminate. }
  assert (Hfail : task cfg s k vk = Failed (Entry.id vk) message).
  { unfold runTask. rewrite Hs, Hrej. reflexivity. }
  exists s'. split; [exact Hrun|].
  split; [unfold targets; rewrite Hall; reflexivity|].
  split; [|split].
  - intros i v Hik Hi. destruct (Hothers i v Hik Hi) as [resp [call [Hg [Hc Hn]]]].
    exists resp, call. split; [exact Hg|]. split; [exact Hc|].
    exists (cache false (mapiFrom (task cfg s) 0 (targets s)) v). split.
    + rewrite Hv, Hs.
      apply in_map. apply targets_In. eapply nth_error_In; eassumption.
    + rewrite (cacheResult_timecodes cfg s i v resp call Hs Hnd Hi Hg Hc Hn).
      repeat split; reflexivity.
  - rewrite Hv.
    replace vk with
      (cache (isText cfg) (mapiFrom (task cfg s) 0 (targets s)) vk)
      at 1.
    + apply in_map. apply targets_In. eapply nth_error_In; eassumption.
    + unfold cacheResult.
      rewrite (find_own_result cfg s k vk Hnd Hk), Hfail. reflexivity.
  - rewrite Ht, Hs. unfold showActiveResult, isActiveId.
    destruct (activeVideoId s) as [a|]; [|reflexivity].
    destruct (jsstring_eqb (Entry.id vk) a) eqn:Ea.
    + apply jsstring_eqb_eq in Ea. subst a.
      rewrite (find_own_result cfg s k vk Hnd Hk), Hfail. reflexivity.
    + destruct (find _ _) as [r|] eqn:Ef; [|reflexivity].
      apply find_mapiFrom_inv in Ef.
      destruct Ef as [i [v [Hi [Hr Hf]]]]. simpl in Hr.
      assert (Hik : i <> k).
      { intros ->. rewrite Hk in Hi. injection Hi as <-.
        rewrite Hr, runTask_id, Ea in Hf. discriminate. }
      destruct (Hothers i v Hik Hi) as [resp [call [Hg [Hc Hn]]]].
      rewrite Hr. unfold runTask.
      rewrite Hs, Hg, Hc, Hn, jsstring_eqb_refl. reflexivity.
Qed.

End ControllerFacts.

(** ** The upload and poll client: facts *)

Lemma afterPolls_fetches n : forall s, fetches (afterPolls n s) = fetches s + n.
Proof.
  induction n as [|n IH]; intros s; simpl; [lia|]. rewrite IH. simpl. lia.
Qed.

Lemma afterPolls_waited n : forall s,
  waited (afterPolls n s) = (waited s + 5000 * N.of_nat n)%N.
Proof.
  induction n as [|n IH]; intros s.
  - simpl. lia.
  - cbn [afterPolls]. rewrite IH, Nat2N.inj_succ.
    unfold afterPoll, slept, logged, fetched. cbn [waited]. lia.
Qed.

(** One event of the program, answered by the store. *)
Ltac run_event :=
  rewrite interp_state_bind, interp_state_trigger; cbn;
  rewrite bind_ret_l; cbn.

Lemma poll_settled name g s :
  isProcessing g = false ->
  interp_state handleApi (ITree.iter (pollStep name) g) s ≈ Ret (s, g).
Proof.
  intros Hg. rewrite unfold_iter. unfold pollStep at 1. rewrite Hg.
  rewrite bind_ret_l, interp_state_ret. reflexivity.
Qed.

Lemma poll_again name g s :
  isProcessing g = true ->
  interp_state handleApi (ITree.iter (pollStep name) g) s
  ≈ interp_state handleApi
      (ITree.iter (pollStep name) (polls s (fetches s))) (afterPoll s).
Proof.
  intros Hg. rewrite unfold_iter. unfold pollStep at 1. rewrite Hg.
  rewrite !bind_bind.
  run_event. rewrite bind_bind.
  run_event. rewrite bind_bind.
  run_event. rewrite bind_bind.
  run_event. rewrite bind_ret_l.
  rewrite interp_state_tau, tau_eutt. reflexivity.
Qed.

Lemma poll_loop name : forall m s g,
  isProcessing g = true ->
  (forall i, i < m -> isProcessing (polls s (fetches s + i)) = true) ->
  isProcessing (polls s (fetches s + m)) = false ->
  interp_state handleApi (ITree.iter (pollStep name) g) s
  ≈ Ret (afterPolls (S m) s, polls s (fetches s + m)).
Proof.
  induction m as [|m IH]; intros s g Hg Hbefore Hm.
  - rewrite Nat.add_0_r in Hm |- *.
    rewrite (poll_again name g s Hg), poll_settled by exact Hm. reflexivity.
  - rewrite (poll_again name g s Hg).
    rewrite (IH (afterPoll s) (polls s (fetches s))).
    + cbn [afterPolls]. simpl polls. simpl fetches.
      replace (S (fetches s + m)) with (fetches s + S m) by lia. reflexivity.
    + specialize (Hbefore 0 ltac:(lia)). rewrite Nat.add_0_r in Hbefore.
      exact Hbefore.
    + intros i Hi. simpl.
      replace (S (fetches s + i)) with (fetches s + S i) by lia.
      apply Hbefore. lia.
    + simpl. replace (S (fetches s + m)) with (fetches s + S m) by lia.
      exact Hm.
Qed.

Lemma first_settled (p : nat -> bool) (n : nat) :
  p n = false ->
  exists k, (forall i, i < k -> p i = true) /\ p k = false.
Proof.
  intros Hn.
  assert (Q : forall m,
             (exists k, (forall i, i < k -> p i = true) /\ p k = false)
             \/ (forall i, i < m -> p i = true)).
  { induction m as [|m [IH|IH]].
    - right. intros i Hi. lia.
    - left. exact IH.
    - destruct (p m) eqn:E.
      + right. intros i Hi. destruct (Nat.eq_dec i m) as [->|Hne];
          [exact E | apply IH; lia].
      + left. exists m. split; [exact IH | exact E]. }
  destruct (Q (S n)) as [H|H]; [exact H|].
  rewrite (H n) in Hn; [discriminate | lia].
Qed.

(** C5: for every sequence of status answers that eventually leaves the
    processing state, [uploadFile] returns: it fetches the status until the
    first answer that is not processing, waiting five seconds after each
    fetch of the loop; it is rejected with the processing error when that
    answer is failed, and only then, and otherwise (so when it is ready) it
    is fulfilled with the file object of that answer. *)
Theorem uploadFile_polls_until_settled (file : File) (s : Remote) :
  (exists n, isProcessing (polls s (fetches s + n)) = false) ->
  exists k s',
    (forall i, i < k -> isProcessing (polls s (fetches s + i)) = true)
    /\ isProcessing (polls s (fetches s + k)) = false
    /\ runUpload file s
       ≈ Ret (s',
              if isFailed (polls s (fetches s + k))
              then Rejected (lit "Ошибка обработки файла.")
              else Fulfilled (polls s (fetches s + k)))
    /\ fetches s' = fetches s + S k
    /\ waited s' = (waited s + 5000 * N.of_nat k)%N.
Proof.
  intros [n Hn].
  destruct (first_settled (fun i => isProcessing (polls s (fetches s + i))) n Hn)
    as [k [Hbefore Hk]].
  set (s5 := fetched
               (logged (lit "Получение...")
                  (logged (lit "Загружено.") (logged (lit "Загрузка...") s)))).
  set (g := polls s (fetches s + k)) in *.
  set (s7 := logged (GeminiFile.state g) (afterPolls k s5)).
  exists k, (if isFailed g then s7 else logged (lit "Готово") s7).
  split; [exact Hbefore|]. split; [exact Hk|]. split.
  - assert (Hloop :
      interp_state handleApi
        (ITree.iter (pollStep (GeminiFile.name (uploaded s)))
           (polls s (fetches s))) s5
      ≈ Ret (afterPolls k s5, g)).
    { destruct k as [|m].
      - unfold g in *. rewrite Nat.add_0_r in *.
        rewrite poll_settled by exact Hk. reflexivity.
      - rewrite (poll_loop _ m s5 (polls s (fetches s))).
        + simpl polls. simpl fetches. unfold g.
          replace (S (fetches s + m)) with (fetches s + S m) by lia.
          reflexivity.
        + specialize (Hbefore 0 ltac:(lia)). simpl in Hbefore.
          rewrite Nat.add_0_r in Hbefore. exact Hbefore.
        + intros i Hi. simpl.
          replace (S (fetches s + i)) with (fetches s + S i) by lia.
          apply Hbefore. lia.
        + simpl. replace (S (fetches s + m)) with (fetches s + S m) by lia.
          exact Hk. }
    unfold runUpload, uploadFile.
    do 5 run_event.
    rewrite interp_state_bind.
    fold s5. rewrite Hloop. rewrite bind_ret_l. cbn.
    run_event.
    fold s7. change (polls s (fetches s + k)) with g.
    destruct (isFailed g).
    + rewrite interp_state_ret. reflexivity.
    + run_event. rewrite interp_state_ret. reflexivity.
  - assert (F7 : fetches s7 = fetches s + S k).
    { unfold s7. simpl. rewrite afterPolls_fetches. simpl. lia. }
    assert (W7 : waited s7 = (waited s + 5000 * N.of_nat k)%N).
    { unfold s7. simpl. rewrite afterPolls_waited. reflexivity. }
    destruct (isFailed g); [split; assumption|].
    split; [exact F7 | exact W7].
Qed.

(** ** The controller and the upload client on the example data *)

Lemma lit_neq (a b : string) : jsstring_eqb (lit a) (lit b) = false -> lit a <> lit b.
Proof.
  intros H E. rewrite E, jsstring_eqb_refl in H. discriminate.
Qed.

Lemma twoVideos_NoDup : NoDup (map Entry.id (videoFiles twoVideos)).
Proof.
  repeat constructor; simpl.
  - intros [E|[]]. revert E. apply lit_neq. vm_compute. reflexivity.
  - intros [].
Qed.

(** The witness of [onModeSelect_caches_unescaped]: the first of two ready
    videos, answered with a [set_timecodes] call whose text holds an escaped
    apostrophe. *)
Lemma onModeSelect_caches_unescaped_witness :
  exists s' v',
    onModeSelect toUpperCaseTab toLowerCaseTab exampleModes secondCallFails
      subtitlesMode twoVideos = Completed s'
    /\ nth_error (videoFiles s') 0 = Some v'
    /\ Entry.timecodeList v'
       = Some (map (fun t =>
                      Timecode.mk (Timecode.time t)
                        (unescapeApostrophes (Timecode.text t)))
                 (FunctionCall.timecodes catCall))
    /\ Entry.id v' = Entry.id (readyVideo "a")
    /\ Entry.name v' = Entry.name (readyVideo "a")
    /\ Entry.url v' = Entry.url (readyVideo "a")
    /\ Entry.file v' = Entry.file (readyVideo "a")
    /\ Entry.geminiFile v' = Entry.geminiFile (readyVideo "a")
    /\ Entry.uploadError v' = Entry.uploadError (readyVideo "a")
    /\ Entry.seoData v' = Entry.seoData (readyVideo "a")
    /\ Entry.textResponse v' = Entry.textResponse (readyVideo "a").
Proof.
  apply (onModeSelect_caches_unescaped toUpperCaseTab toLowerCaseTab
           exampleModes secondCallFails subtitlesMode subtitlesConfig twoVideos
           0 0 (readyVideo "a") catResponse catCall []).
  - vm_compute. reflexivity.
  - reflexivity.
  - exact twoVideos_NoDup.
  - reflexivity.
  - reflexivity.
  - reflexivity.
  - reflexivity.
  - reflexivity.
Defined.

(** The witness of [onModeSelect_isolates_failure]: of two ready videos, the
    call for the second one is rejected. *)
Lemma onModeSelect_isolates_failure_witness :
  exists s',
    onModeSelect toUpperCaseTab toLowerCaseTab exampleModes secondCallFails
      subtitlesMode twoVideos = Completed s'
    /\ targets twoVideos
       = filter (fun v => isSome (Entry.geminiFile v)) (videoFiles twoVideos)
    /\ (forall i v, i <> 1 -> nth_error (targets twoVideos) i = Some v ->
          exists resp call,
            secondCallFails i (basePrompt subtitlesConfig twoVideos)
              (Some functions) (Entry.geminiFile v) = Fulfilled resp
            /\ firstCall resp = Some call
            /\ exists v',
                 In v' (videoFiles s')
                 /\ Entry.timecodeList v'
                    = Some (map (fun t =>
                                   Timecode.mk (Timecode.time t)
                                     (unescapeApostrophes (Timecode.text t)))
                              (FunctionCall.timecodes call))
                 /\ Entry.id v' = Entry.id v
                 /\ Entry.name v' = Entry.name v
                 /\ Entry.url v' = Entry.url v
                 /\ Entry.file v' = Entry.file v
                 /\ Entry.geminiFile v' = Entry.geminiFile v
                 /\ Entry.uploadError v' = Entry.uploadError v
                 /\ Entry.seoData v' = Entry.seoData v
                 /\ Entry.textResponse v' = Entry.textResponse v)
    /\ In (readyVideo "b") (videoFiles s')
    /\ textResponse s'
       = if isActiveId (Entry.id (readyVideo "b")) twoVideos
         then Some (lit "Ошибка: " ++ lit "quota exceeded") else None.
Proof.
  apply (onModeSelect_isolates_failure toUpperCaseTab toLowerCaseTab
           exampleModes secondCallFails subtitlesMode subtitlesConfig twoVideos
           1 (readyVideo "b") (lit "quota exceeded")).
  - vm_compute. reflexivity.
  - reflexivity.
  - reflexivity.
  - exact twoVideos_NoDup.
  - reflexivity.
  - reflexivity.
  - intros i v Hi Hv. destruct i as [|[|i]].
    + exists catResponse, catCall. repeat split; reflexivity.
    + congruence.
    + vm_compute in Hv. destruct i; discriminate Hv.
Defined.

(** C4, as stated, fails.  Of two ready videos the first is active and the
    call for the second is rejected: the run completes, the first video gets
    its timecode list, but nothing records the failure of the second.  Its
    record is what it was, with no upload error and no cached result, no text
    response is displayed, and the whole resulting state is the one reached
    when the second call is answered without a function call instead of
    being rejected. *)
Lemma onModeSelect_failure_counterexample :
  hasCompleted
    (onModeSelect toUpperCaseTab toLowerCaseTab exampleModes secondCallFails
       subtitlesMode twoVideos) = true
  /\ nth_error
       (videoFiles
          (finalState
             (onModeSelect toUpperCaseTab toLowerCaseTab exampleModes
                secondCallFails subtitlesMode twoVideos))) 1
     = Some (readyVideo "b")
  /\ Entry.uploadError (readyVideo "b") = None
  /\ textResponse
       (finalState
          (onModeSelect toUpperCaseTab toLowerCaseTab exampleModes
             secondCallFails subtitlesMode twoVideos)) = None
  /\ onModeSelect toUpperCaseTab toLowerCaseTab exampleModes secondCallFails
       subtitlesMode twoVideos
     = onModeSelect toUpperCaseTab toLowerCaseTab exampleModes
         secondCallDeclines subtitlesMode twoVideos.
Proof. vm_compute. repeat split; reflexivity. Qed.

(** The witness of [handleRemoveVideo_promotes]: the active video is the
    second of three; after its removal the third, now at index 1, is
    active. *)
Lemma handleRemoveVideo_promotes_witness :
  let remaining :=
    filter (fun u => negb (hasId (lit "b") u)) (videoFiles threeVideos) in
  let s' := handleRemoveVideo (lit "b") threeVideos in
  videoFiles s' = remaining
  /\ match remaining with
     | [] => activeVideoId s' = None
     | _ :: _ =>
         exists u,
           nth_error remaining (Nat.min 1 (length remaining - 1)) = Some u
           /\ activeVideoId s' = Some (Entry.id u)
     end
  /\ activeVideoId (restoreEffect s') = activeVideoId s'.
Proof.
  apply (handleRemoveVideo_promotes threeVideos (lit "b") 1 (readyVideo "b")).
  - reflexivity.
  - reflexivity.
  - reflexivity.
  - intros j u Hj Hu. destruct j as [|j]; [|lia].
    injection Hu as <-. apply lit_neq. vm_compute. reflexivity.
Defined.

(** The witness of [handleRemoveVideo_absent]: an id that neither of the
    two videos has. *)
Lemma handleRemoveVideo_absent_witness :
  handleRemoveVideo (lit "c") twoVideos = twoVideos.
Proof.
  apply (handleRemoveVideo_absent twoVideos (lit "c")).
  intros v [<-|[<-|[]]]; apply lit_neq; vm_compute; reflexivity.
Defined.

(** The witness of [setActive_forgets_localized_title]: the second video
    caches a reply that fills in the localized title only, with the fields
    parsed from it; clicking its tab clears the display. *)
Lemma setActive_forgets_localized_title_witness :
  let s' := setActive toUpperCaseTab toLowerCaseTab (lit "b") withLocalizedOnly in
  (find (hasId (lit "b")) (videoFiles withLocalizedOnly)
   = Some localizedOnlyVideo
   /\ Entry.textResponse localizedOnlyVideo = Some localizedOnlyText
   /\ Entry.seoData localizedOnlyVideo = Some (mkSeoData [] (lit "Кошки") [])
   /\ Entry.timecodeList localizedOnlyVideo = None)
  /\ activeVideoId s' = Some (lit "b")
  /\ seoData s' = emptySeoData
  /\ seoData s' <> mkSeoData [] (lit "Кошки") []
  /\ textResponse s' = None
  /\ timecodeList s' = Entry.timecodeList localizedOnlyVideo
  /\ activeMode s'
     = match Entry.timecodeList localizedOnlyVideo with
       | Some _ => Some (lit "Аудио/Видео субтитры")
       | None => None
       end.
Proof.
  split; [vm_compute; repeat split; reflexivity|].
  apply (setActive_forgets_localized_title toUpperCaseTab toLowerCaseTab
           withLocalizedOnly (lit "b") localizedOnlyVideo
           (mkSeoData [] (lit "Кошки") []) localizedOnlyText).
  - intros E. vm_compute in E. discriminate E.
  - vm_compute. reflexivity.
  - vm_compute. reflexivity.
  - vm_compute. reflexivity.
  - reflexivity.
  - reflexivity.
  - reflexivity.
  - intros E. vm_compute in E. discriminate E.
Defined.

(** The witness of [uploadFile_polls_until_settled]: a store whose third
    answer is the first that is not processing. *)
Lemma uploadFile_polls_until_settled_witness :
  exists k s',
    (forall i, i < k ->
       isProcessing (polls slowRemote (fetches slowRemote + i)) = true)
    /\ isProcessing (polls slowRemote (fetches slowRemote + k)) = false
    /\ runUpload exampleFile slowRemote
       ≈ Ret (s',
              if isFailed (polls slowRemote (fetches slowRemote + k))
              then Rejected (lit "Ошибка обработки файла.")
              else Fulfilled (polls slowRemote (fetches slowRemote + k)))
    /\ fetches s' = fetches slowRemote + S k
    /\ waited s' = (waited slowRemote + 5000 * N.of_nat k)%N.
Proof.
  apply (uploadFile_polls_until_settled exampleFile slowRemote).
  exists 2. vm_compute. reflexivity.
Defined.

(** ** More about removing and clearing *)

Lemma filter_absent (x : jsstring) (l : list Entry.t) :
  find (hasId x) l = None -> filter (fun v => negb (hasId x v)) l = l.
Proof.
  induction l as [|v l IH]; simpl; [reflexivity|].
  destruct (hasId x v); [discriminate|]. intros H. simpl. f_equal. auto.
Qed.

Lemma findIndexFrom_found {A : Type} (f : A -> bool) (l : list A) (w : A) :
  find f l = Some w -> forall k, (k <= findIndexFrom f l k)%Z.
Proof.
  induction l as [|v l IH]; simpl; [discriminate|].
  destruct (f v); intros H k; [lia|]. specialize (IH H (k + 1)%Z). lia.
Qed.

Lemma handleRemoveVideo_cases (x : jsstring) (s : AppState) :
  let remaining := filter (fun v => negb (hasId x v)) (videoFiles s) in
  handleRemoveVideo x s = s /\ find (hasId x) (videoFiles s) = None
  \/ exists w a,
       find (hasId x) (videoFiles s) = Some w
       /\ handleRemoveVideo x s
          = setVideoFiles remaining
              (setActiveVideoId a (revokeObjectURL (Entry.url w) s))
       /\ (isActiveId x s = false /\ a = activeVideoId s
           \/ isActiveId x s = true /\ remaining = [] /\ a = None
           \/ isActiveId x s = true
              /\ exists u, In u remaining /\ a = Some (Entry.id u)).
Proof.
  intros remaining. unfold handleRemoveVideo. fold remaining.
  destruct (find (hasId x) (videoFiles s)) as [w|] eqn:Ef; [right|left; auto].
  destruct (isActiveId x s) eqn:Ea.
  - destruct remaining as [|r0 rs] eqn:Er.
    + exists w, None. split; [reflexivity|]. split; [reflexivity|].
      right. left. auto.
    + set (i := Z.to_nat (findIndex (hasId x) (videoFiles s))).
      assert (Hi : findIndex (hasId x) (videoFiles s) = Z.of_nat i).
      { unfold i. rewrite Z2Nat.id; [reflexivity|].
        unfold findIndex.
        apply (findIndexFrom_found (hasId x) (videoFiles s) w Ef 0%Z). }
      rewrite Hi.
      destruct (elementAt_closest (r0 :: rs) i ltac:(discriminate))
        as [u [Hn He]].
      rewrite He. exists w, (Some (Entry.id u)).
      split; [reflexivity|]. split; [reflexivity|].
      right. right. split; [reflexivity|]. exists u. split; [|reflexivity].
      eapply nth_error_In; eassumption.
  - exists w, (activeVideoId s). split; [reflexivity|]. split.
    + destruct s; reflexivity.
    + left. auto.
Qed.

(** X1: after [handleRemoveVideo], the collection is the old one without the
    videos of the removed id, the others in their order; this holds whether
    or not the id was present. *)
Theorem handleRemoveVideo_collection (x : jsstring) (s : AppState) :
  videoFiles (handleRemoveVideo x s)
  = filter (fun v => negb (hasId x v)) (videoFiles s).
Proof.
  destruct (handleRemoveVideo_cases x s) as [[-> Hf]|[w [a [_ [-> _]]]]].
  - symmetry. apply filter_absent. exact Hf.
  - reflexivity.
Qed.

(** X2: [handleRemoveVideo] revokes the object URL of the first video with
    the removed id and no other, and it sets no display state itself: the
    displayed text, timecode list, structured fields, mode and the inputs are
    what they were. *)
Theorem handleRemoveVideo_frame (x : jsstring) (s : AppState) :
  let s' := handleRemoveVideo x s in
  revokedURLs s'
  = match find (hasId x) (videoFiles s) with
    | Some w => Entry.url w :: revokedURLs s
    | None => revokedURLs s
    end
  /\ timecodeList s' = timecodeList s
  /\ textResponse s' = textResponse s
  /\ seoData s' = seoData s
  /\ activeMode s' = activeMode s
  /\ correctionText s' = correctionText s
  /\ additionalText s' = additionalText s
  /\ applyToAll s' = applyToAll s
  /\ isLoading s' = isLoading s.
Proof.
  intros s'. unfold s'.
  destruct (handleRemoveVideo_cases x s) as [[-> Hf]|[w [a [Hf [-> _]]]]];
    rewrite Hf; repeat split; reflexivity.
Qed.

(** X3: [handleRemoveVideo] never leaves a dangling active id: when the
    active id was that of a video of the collection (or none), it still is
    afterwards. *)
Theorem handleRemoveVideo_active_valid (x : jsstring) (s : AppState) :
  ActiveValid s -> ActiveValid (handleRemoveVideo x s).
Proof.
  intros Hv.
  destruct (handleRemoveVideo_cases x s)
    as [[-> _]|[w [a [Hf [-> [[Ha ->]|[[Ha [Hr ->]]|[Ha [u [Hu ->]]]]]]]]]];
    [exact Hv| |exact I|].
  - unfold ActiveValid in *. simpl.
    destruct (activeVideoId s) as [b|] eqn:Eb; [|exact I].
    destruct Hv as [v [Hin Hid]]. exists v. split; [|exact Hid].
    apply filter_In. split; [exact Hin|].
    unfold isActiveId in Ha. rewrite Eb in Ha. unfold hasId.
    rewrite Hid. destruct (jsstring_eqb b x) eqn:E; [|reflexivity].
    apply jsstring_eqb_eq in E. rewrite E, jsstring_eqb_refl in Ha.
    discriminate.
  - unfold ActiveValid. simpl. exists u. split; [exact Hu | reflexivity].
Qed.

(** X25: removing is idempotent.  A second [handleRemoveVideo] with the same
    id changes nothing: no video with that id is left, so nothing more is
    revoked and neither the collection nor the active id moves. *)
Theorem handleRemoveVideo_idempotent (x : jsstring) (s : AppState) :
  handleRemoveVideo x (handleRemoveVideo x s) = handleRemoveVideo x s.
Proof.
  assert (Hgone : find (hasId x) (videoFiles (handleRemoveVideo x s)) = None).
  { destruct (handleRemoveVideo_cases x s) as [[-> Hf]|[w [a [_ [-> _]]]]];
      [exact Hf|].
    apply find_none_iff. intros v Hv. simpl in Hv.
    apply filter_In in Hv. destruct Hv as [_ Hv].
    apply negb_true_iff in Hv. exact Hv. }
  destruct (handleRemoveVideo_cases x (handleRemoveVideo x s))
    as [[E _]|[w [a [Hf _]]]]; [exact E|].
  rewrite Hgone in Hf. discriminate.
Qed.

Lemma revoke_all (l : list Entry.t) : forall s,
  fold_left (fun st video => revokeObjectURL (Entry.url video) st) l s
  = mkAppState (videoFiles s) (activeVideoId s) (timecodeList s)
      (textResponse s) (requestedTimecode s) (activeMode s) (isLoading s)
      (isUploading s) (videoError s) (seoData s) (correctionText s)
      (additionalText s) (applyToAll s)
      (rev (map Entry.url l) ++ revokedURLs s).
Proof.
  induction l as [|v l IH]; intros s; simpl.
  - destruct s; reflexivity.
  - rewrite IH. simpl. rewrite <- app_assoc. reflexivity.
Qed.

Lemma handleClearAll_resets_state (s : AppState) :
  handleClearAll s
  = mkAppState [] None None None None None false (isUploading s) false
      emptySeoData [] [] (applyToAll s)
      (rev (map Entry.url (videoFiles s)) ++ revokedURLs s).
Proof. unfold handleClearAll. rewrite revoke_all. reflexivity. Qed.

(** X4: [handleClearAll] revokes the object URL of every video once and
    resets the collection, the active id and the display to those of the
    first render; only the upload flag and the apply-to-all choice are
    kept. *)
Theorem handleClearAll_resets (s : AppState) :
  handleClearAll s
  = mkAppState [] None None None None None false (isUploading s) false
      emptySeoData [] [] (applyToAll s)
      (rev (map Entry.url (videoFiles s)) ++ revokedURLs s).
Proof.
  unfold handleClearAll.
  rewrite (revoke_all (videoFiles s) s).
  reflexivity.
Qed.

(** ** Adding videos *)

Lemma map_mapiFrom {A B C : Type} (g : B -> C) (f : nat -> A -> B) :
  forall l a, map g (mapiFrom f a l) = mapiFrom (fun k x => g (f k x)) a l.
Proof.
  induction l as [|x l IH]; intros a; simpl; [reflexivity|].
  rewrite IH. reflexivity.
Qed.

Lemma mapiFrom_ext {A B : Type} (f f' : nat -> A -> B) :
  forall l a,
    (forall i x, nth_error l i = Some x -> f (a + i) x = f' (a + i) x) ->
    mapiFrom f a l = mapiFrom f' a l.
Proof.
  induction l as [|x l IH]; intros a H; simpl; [reflexivity|].
  f_equal.
  - specialize (H 0 x eq_refl). rewrite Nat.add_0_r in H. exact H.
  - apply IH. intros i y Hi. specialize (H (S i) y Hi).
    replace (S a + i) with (a + S i) by lia. exact H.
Qed.

Lemma mapiFrom_id {A : Type} (f : nat -> A -> A) :
  (forall k x, f k x = x) -> forall l a, mapiFrom f a l = l.
Proof.
  intros H. induction l as [|x l IH]; intros a; simpl; [reflexivity|].
  rewrite H, IH. reflexivity.
Qed.

Lemma mapiFrom_length {A B : Type} (f : nat -> A -> B) :
  forall l a, length (mapiFrom f a l) = length l.
Proof.
  induction l as [|x l IH]; intros a; simpl; [reflexivity|].
  rewrite IH. reflexivity.
Qed.

Lemma nth_error_mapiFrom {A B : Type} (f : nat -> A -> B) :
  forall l a i,
    nth_error (mapiFrom f a l) i = option_map (f (a + i)) (nth_error l i).
Proof.
  induction l as [|x l IH]; intros a i; simpl.
  - destruct i; reflexivity.
  - destruct i as [|i]; simpl.
    + rewrite Nat.add_0_r. reflexivity.
    + rewrite IH. replace (S a + i) with (a + S i) by lia. reflexivity.
Qed.

Lemma NoDup_ids_index (l : list Entry.t) (i j : nat) (x y : Entry.t) :
  NoDup (map Entry.id l) ->
  nth_error l i = Some x -> nth_error l j = Some y ->
  Entry.id x = Entry.id y -> i = j.
Proof.
  intros Hnd Hi Hj E.
  apply (proj1 (NoDup_nth_error (map Entry.id l)) Hnd i j).
  - rewrite length_map. apply nth_error_Some. rewrite Hi. discriminate.
  - rewrite !nth_error_map, Hi, Hj. simpl. f_equal. exact E.
Qed.

Section IntakeFacts.

Variable randomUUID : nat -> jsstring.
Variable createObjectURL : nat -> File -> jsstring.
Variable uploadOutcome : nat -> Promise GeminiFile.t.

Local Abbreviation fresh := (newVideoEntries randomUUID createObjectURL).
Local Abbreviation soFar := (settledSoFar uploadOutcome).
Local Abbreviation settle := (settleAll uploadOutcome).

Lemma settledSoFar_id settled k e : Entry.id (soFar settled k e) = Entry.id e.
Proof.
  unfold settledSoFar, settledEntry.
  destruct (existsb _ _); [|reflexivity].
  destruct (uploadOutcome k); reflexivity.
Qed.

(** The updater of one settled upload changes the entry of that upload and
    no other, when the ids are distinct. *)
Lemma settle_one (prev new : list Entry.t) (settled : list nat) (k : nat)
  (e : Entry.t) (upd : Entry.t -> Entry.t) :
  NoDup (map Entry.id (prev ++ new)) ->
  nth_error new k = Some e ->
  ~ In k settled ->
  upd e = settledEntry uploadOutcome k e ->
  map (fun v => if hasId (Entry.id e) v then upd v else v)
    (prev ++ mapiFrom (soFar settled) 0 new)
  = prev ++ mapiFrom (soFar (k :: settled)) 0 new.
Proof.
  intros Hnd Hk Hnot Hupd. rewrite map_app. f_equal.
  - rewrite <- (map_id prev) at 2. apply map_ext_in. intros v Hv.
    destruct (hasId (Entry.id e) v) eqn:E; [|reflexivity].
    apply jsstring_eqb_eq in E. exfalso.
    destruct (In_nth_error _ _ Hv) as [i Hi].
    assert (Hi' : nth_error (prev ++ new) i = Some v).
    { rewrite nth_error_app1; [exact Hi|].
      apply nth_error_Some. rewrite Hi. discriminate. }
    assert (Hk' : nth_error (prev ++ new) (length prev + k) = Some e).
    { rewrite nth_error_app2 by lia.
      replace (length prev + k - length prev) with k by lia. exact Hk. }
    pose proof (NoDup_ids_index _ _ _ _ _ Hnd Hi' Hk' E) as Heq.
    assert (i < length prev) by (apply nth_error_Some; rewrite Hi; discriminate).
    lia.
  - rewrite map_mapiFrom. apply mapiFrom_ext. intros i x Hi. cbn [Nat.add].
    unfold hasId. rewrite (settledSoFar_id settled i x).
    assert (Hnew : NoDup (map Entry.id new)).
    { rewrite map_app in Hnd. apply NoDup_app_remove_l in Hnd. exact Hnd. }
    destruct (jsstring_eqb (Entry.id x) (Entry.id e)) eqn:E.
    + apply jsstring_eqb_eq in E.
      pose proof (NoDup_ids_index _ _ _ _ _ Hnew Hi Hk E) as ->.
      rewrite Hk in Hi. injection Hi as <-.
      unfold settledSoFar at 1.
      replace (existsb (Nat.eqb k) settled) with false.
      * unfold settledSoFar. simpl. rewrite Nat.eqb_refl. simpl. exact Hupd.
      * symmetry. destruct (existsb (Nat.eqb k) settled) eqn:Ex; [|reflexivity].
        apply existsb_exists in Ex. destruct Ex as [j [Hj Hjk]].
        apply Nat.eqb_eq in Hjk. subst j. contradiction.
    + unfold settledSoFar. simpl.
      destruct (Nat.eqb i k) eqn:Eik; [|reflexivity].
      apply Nat.eqb_eq in Eik. subst i. rewrite Hk in Hi. injection Hi as <-.
      rewrite jsstring_eqb_refl in E. discriminate.
Qed.

Lemma uploadSettled_videoFiles e k s :
  videoFiles (uploadSettled e (uploadOutcome k) s)
  = map (fun v =>
           if hasId (Entry.id e) v
           then match uploadOutcome k with
                | Fulfilled g => entryWithGeminiFile g v
                | Rejected _ => entryWithUploadError (lit "Ошибка загрузки") v
                end
           else v)
      (videoFiles s).
Proof.
  unfold uploadSettled. destruct (uploadOutcome k); reflexivity.
Qed.

Lemma settleAll_videoFiles (prev new : list Entry.t) :
  NoDup (map Entry.id (prev ++ new)) ->
  forall order settled s,
    videoFiles s = prev ++ mapiFrom (soFar settled) 0 new ->
    NoDup order ->
    (forall k, In k order -> ~ In k settled /\ k < length new) ->
    videoFiles (settle new order s)
    = prev ++ mapiFrom (soFar (rev order ++ settled)) 0 new.
Proof.
  intros Hnd. induction order as [|k order IH]; intros settled s Hs Ho Hin.
  - exact Hs.
  - simpl. inversion Ho as [|? ? Hk Ho']; subst.
    destruct (Hin k (or_introl eq_refl)) as [Hks Hlt].
    destruct (nth_error new k) as [e|] eqn:Ek;
      [|apply nth_error_None in Ek; lia].
    rewrite <- app_assoc. simpl.
    apply IH; [|exact Ho'|].
    + rewrite uploadSettled_videoFiles, Hs.
      apply settle_one; try assumption.
      unfold settledEntry. destruct (uploadOutcome k); reflexivity.
    + intros j Hj. destruct (Hin j (or_intror Hj)) as [Hjs Hjl].
      split; [|exact Hjl]. intros [<-|Hj']; [contradiction | contradiction].
Qed.

Lemma settleAll_frame new : forall order s,
  activeVideoId (settle new order s) = activeVideoId s
  /\ revokedURLs (settle new order s) = revokedURLs s
  /\ textResponse (settle new order s) = textResponse s
  /\ timecodeList (settle new order s) = timecodeList s
  /\ seoData (settle new order s) = seoData s
  /\ activeMode (settle new order s) = activeMode s.
Proof.
  induction order as [|k order IH]; intros s; simpl; [repeat split|].
  destruct (nth_error new k) as [e|]; [|apply IH].
  destruct (IH (uploadSettled e (uploadOutcome k) s))
    as [-> [-> [-> [-> [-> ->]]]]].
  unfold uploadSettled. destruct (uploadOutcome k); repeat split.
Qed.

Lemma settleAll_videoError new : forall order s,
  (forall k, In k order -> k < length new) ->
  videoError (settle new order s)
  = videoError s || existsb (fun k => isRejected (uploadOutcome k)) order.
Proof.
  induction order as [|k order IH]; intros s Hin; simpl.
  - rewrite orb_false_r. reflexivity.
  - destruct (nth_error new k) as [e|] eqn:Ek.
    + rewrite IH by (intros j Hj; apply Hin; right; exact Hj).
      unfold uploadSettled. destruct (uploadOutcome k); simpl.
      * reflexivity.
      * rewrite orb_true_r. reflexivity.
    + apply nth_error_None in Ek. specialize (Hin k (or_introl eq_refl)). lia.
Qed.

(** The collection after the uploads of the new entries have settled, in
    whatever order. *)
Lemma processAndUploadFiles_settled (drawn : nat) (files : list File)
  (order : list nat) (s : AppState) :
  fresh drawn files <> [] ->
  NoDup (map Entry.id (videoFiles s ++ fresh drawn files)) ->
  NoDup order ->
  (forall k, In k order <-> k < length (fresh drawn files)) ->
  let s' :=
    processAndUploadFiles randomUUID createObjectURL uploadOutcome drawn files
      order s in
  videoFiles s'
  = videoFiles s
      ++ mapiFrom (settledEntry uploadOutcome) 0 (fresh drawn files)
  /\ (videoError s' = true <->
      exists k message,
        k < length (fresh drawn files) /\ uploadOutcome k = Rejected message)
  /\ isUploading s' = false.
Proof.
  intros Hne Hnd Ho Hall s'. unfold s', processAndUploadFiles.
  destruct (fresh drawn files) as [|f0 fs] eqn:Ef; [congruence|].
  rewrite <- Ef in *.
  assert (Hin : videoFiles (intake randomUUID createObjectURL drawn files s)
                = videoFiles s ++ mapiFrom (soFar []) 0 (fresh drawn files)).
  { unfold intake. rewrite Ef. rewrite <- Ef.
    replace (mapiFrom (soFar []) 0 (fresh drawn files))
      with (fresh drawn files).
    - rewrite Ef. destruct (activeVideoId s); reflexivity.
    - symmetry. apply mapiFrom_id. reflexivity. }
  split; [|split].
  - simpl videoFiles.
    rewrite (settleAll_videoFiles (videoFiles s) (fresh drawn files) Hnd order
               [] _ Hin Ho).
    + f_equal. apply mapiFrom_ext. intros i x Hi. simpl.
      unfold settledSoFar.
      replace (existsb (Nat.eqb i) (rev order ++ [])) with true; [reflexivity|].
      symmetry. apply existsb_exists. exists i. split; [|apply Nat.eqb_refl].
      rewrite app_nil_r. apply -> in_rev. apply Hall.
      apply nth_error_Some. rewrite Hi. discriminate.
    + intros k Hk. split; [intros []|apply Hall; exact Hk].
  - simpl videoError. rewrite settleAll_videoError
      by (intros k Hk; apply Hall; exact Hk).
    assert (Hv0 : videoError (intake randomUUID createObjectURL drawn files s)
                  = false).
    { unfold intake. rewrite Ef. destruct (activeVideoId s); reflexivity. }
    rewrite Hv0. simpl. split.
    + intros H. apply existsb_exists in H. destruct H as [k [Hk Hr]].
      destruct (uploadOutcome k) as [g|m] eqn:E; [discriminate|].
      exists k, m. split; [apply Hall; exact Hk | exact E].
    + intros [k [m [Hk E]]]. apply existsb_exists. exists k.
      split; [apply Hall; exact Hk|]. rewrite E. reflexivity.
  - reflexivity.
Qed.

(** X5: upload isolation.  When the ids are distinct and every upload of
    the new entries settles once, in whatever order, the collection ends as
    the old videos, each at its place and untouched, followed by one record
    for each new entry, at the place of the entry.  The record has the id,
    name, URL and file of the entry and no cached result, and it carries the
    outcome of its own upload: when the upload was fulfilled, its remote file
    is the uploaded one and it has no upload error; when the upload was
    rejected, it has no remote file and its upload error is the upload error
    message.  The order of settlement does not matter, the video error flag
    is raised exactly when some upload was rejected, and the upload flag is
    lowered. *)
Theorem processAndUploadFiles_isolates (drawn : nat) (files : list File)
  (order : list nat) (s : AppState) :
  fresh drawn files <> [] ->
  NoDup (map Entry.id (videoFiles s ++ fresh drawn files)) ->
  NoDup order ->
  (forall k, In k order <-> k < length (fresh drawn files)) ->
  let s' :=
    processAndUploadFiles randomUUID createObjectURL uploadOutcome drawn files
      order s in
  length (videoFiles s')
  = length (videoFiles s) + length (fresh drawn files)
  /\ (forall j v, nth_error (videoFiles s) j = Some v ->
        nth_error (videoFiles s') j = Some v)
  /\ (forall k e, nth_error (fresh drawn files) k = Some e ->
        exists e',
          nth_error (videoFiles s') (length (videoFiles s) + k) = Some e'
          /\ Entry.id e' = Entry.id e
          /\ Entry.name e' = Entry.name e
          /\ Entry.url e' = Entry.url e
          /\ Entry.file e' = Entry.file e
          /\ Entry.seoData e' = None
          /\ Entry.textResponse e' = None
          /\ Entry.timecodeList e' = None
          /\ match uploadOutcome k with
             | Fulfilled geminiFile =>
                 Entry.geminiFile e' = Some geminiFile
                 /\ Entry.uploadError e' = None
             | Rejected _ =>
                 Entry.geminiFile e' = None
                 /\ Entry.uploadError e' = Some (lit "Ошибка загрузки")
             end)
  /\ (videoError s' = true <->
      exists k message,
        k < length (fresh drawn files) /\ uploadOutcome k = Rejected message)
  /\ isUploading s' = false.
Proof.
  intros Hne Hnd Ho Hall s'.
  destruct (processAndUploadFiles_settled drawn files order s Hne Hnd Ho Hall)
    as [Hv [He Hu]].
  fold s' in Hv, He, Hu.
  split; [|split; [|split; [|split; [exact He | exact Hu]]]].
  - rewrite Hv, length_app, mapiFrom_length. reflexivity.
  - intros j v Hj. rewrite Hv, nth_error_app1; [exact Hj|].
    apply nth_error_Some. rewrite Hj. discriminate.
  - intros k e Hk. exists (settledEntry uploadOutcome k e). split.
    + rewrite Hv, nth_error_app2 by lia.
      replace (length (videoFiles s) + k - length (videoFiles s)) with k
        by lia.
      rewrite nth_error_mapiFrom, Hk. reflexivity.
    + unfold newVideoEntries in Hk. rewrite nth_error_mapiFrom in Hk.
      destruct (nth_error (filter isVideo files) k) as [f|];
        [|discriminate].
      injection Hk as <-. unfold settledEntry.
      destruct (uploadOutcome k); repeat split; reflexivity.
Qed.

(** X6: [processAndUploadFiles] ignores the files that are not videos: when
    no file has a type that starts with [video/], nothing is added and no
    upload is started; the run only lowers the upload flag and the video
    error flag. *)
Theorem processAndUploadFiles_no_video (drawn : nat) (files : list File)
  (order : list nat) (s : AppState) :
  (forall f, In f files -> isVideo f = false) ->
  processAndUploadFiles randomUUID createObjectURL uploadOutcome drawn files
    order s
  = setVideoError false (setIsUploading false s).
Proof.
  intros Hno.
  assert (Hf : filter isVideo files = []).
  { induction files as [|f l IH]; simpl; [reflexivity|].
    rewrite (Hno f (or_introl eq_refl)). apply IH.
    intros g Hg. apply Hno. right. exact Hg. }
  unfold processAndUploadFiles, intake, newVideoEntries. rewrite Hf. simpl.
  reflexivity.
Qed.


End IntakeFacts.

(** ** The renders after a handler: facts *)

Section RenderFacts.

Variable toUpperCase : jsstring -> jsstring.
Variable toLowerCase : jsstring -> jsstring.

Local Abbreviation reparse := (reparseEffect toUpperCase toLowerCase).
Local Abbreviation queuedFields := (reparsedFields toUpperCase toLowerCase).
Local Abbreviation shownAfter := (rendersAfter toUpperCase toLowerCase).

Lemma find_map_sameId (f : Entry.t -> Entry.t) (a : jsstring) l :
  (forall x, Entry.id (f x) = Entry.id x) ->
  find (hasId a) (map f l) = option_map f (find (hasId a) l).
Proof.
  intros Hf. induction l as [|x l IH]; simpl; [reflexivity|].
  unfold hasId at 1 3. rewrite Hf.
  destruct (jsstring_eqb (Entry.id x) a); [reflexivity | exact IH].
Qed.

Lemma find_own_record l v :
  NoDup (map Entry.id l) -> In v l -> find (hasId (Entry.id v)) l = Some v.
Proof.
  induction l as [|x l IH]; intros Hnd Hin; [destruct Hin|].
  simpl in Hnd. inversion Hnd as [|? ? Hx Hl]; subst. simpl.
  unfold hasId at 1. destruct (jsstring_eqb (Entry.id x) (Entry.id v)) eqn:E.
  - destruct Hin as [->|Hin]; [reflexivity|]. exfalso. apply Hx.
    apply jsstring_eqb_eq in E. rewrite E. apply in_map. exact Hin.
  - destruct Hin as [->|Hin]; [rewrite jsstring_eqb_refl in E; discriminate|].
    apply IH; assumption.
Qed.

(** The re-parse effect does nothing when no text is displayed. *)
Lemma reparse_no_text s :
  textResponse s = None -> queuedFields s = None /\ reparse s = s.
Proof.
  intros H. unfold reparsedFields, reparseEffect. rewrite H.
  destruct (activeMode s); split; reflexivity.
Qed.

(** The re-parse effect does nothing when the displayed fields are those
    parsed from the displayed text. *)
Lemma reparse_same s c t :
  textResponse s = Some (c :: t) ->
  seoData s = parseSeoResponse toUpperCase toLowerCase (Some (c :: t)) ->
  queuedFields s = None /\ reparse s = s.
Proof.
  intros Ht Hd. unfold reparsedFields, reparseEffect. rewrite Ht.
  destruct (activeMode s) as [m|]; [|split; reflexivity].
  cbv beta iota zeta.
  destruct (jsstring_eqb m MODE_SEO); [|split; reflexivity].
  rewrite Hd, !jsstring_eqb_refl. split; reflexivity.
Qed.

Lemma rendersAfter_restored before after :
  queuedFields after = None ->
  reparse (restoreEffect after) = restoreEffect after ->
  shownAfter before after = restoreEffect after.
Proof.
  intros Hq Hr. unfold rendersAfter. rewrite Hq.
  destruct (displayChanged before after); cbv zeta;
    (destruct (displayChanged after (restoreEffect after));
       [exact Hr | reflexivity]).
Qed.

Lemma restore_cached s v d :
  activeVideo s = Some v ->
  Entry.seoData v = Some d ->
  hasSeoFields v = true ->
  restoreEffect s
  = setCorrectionText []
      (setActiveMode (Some MODE_SEO)
         (setTextResponse (orNull (Entry.textResponse v)) (setSeoData d s))).
Proof.
  intros Ha Hd Hg. unfold restoreEffect. rewrite Ha, Hg, Hd. reflexivity.
Qed.

Lemma restore_uncached s v :
  activeVideo s = Some v ->
  hasSeoFields v = false ->
  restoreEffect s
  = setCorrectionText []
      match Entry.timecodeList v with
      | Some l =>
          setSeoData emptySeoData
            (setActiveMode (Some (lit "Аудио/Видео субтитры"))
               (setTextResponse None (setTimecodeList (Some l) s)))
      | None =>
          setActiveMode None
            (setSeoData emptySeoData
               (setTextResponse None (setTimecodeList None s)))
      end.
Proof.
  intros Ha Hg. unfold restoreEffect. rewrite Ha, Hg. reflexivity.
Qed.

Lemma activeVideo_found s a v :
  a <> [] -> activeVideoId s = Some a ->
  find (hasId a) (videoFiles s) = Some v -> activeVideo s = Some v.
Proof.
  intros Hne Ha Hf. unfold activeVideo. rewrite Ha.
  destruct a; [congruence | exact Hf].
Qed.

End RenderFacts.

(** ** Correcting the metadata *)

Section CorrectionFacts.

Variable toUpperCase : jsstring -> jsstring.
Variable toLowerCase : jsstring -> jsstring.
Variable generateContent :
  jsstring -> option (list FunctionDeclaration) -> option GeminiFile.t
  -> Promise Response.t.

Local Abbreviation correct :=
  (handleCorrection toUpperCase toLowerCase generateContent).

(** X8: a correction that cannot be made changes nothing.  With a blank
    correction text, with no active video, or when no video with the active
    id has a remote file, [handleCorrection] returns at once: the state and
    the correcting flag are as they were, whatever the service would
    answer. *)
Theorem handleCorrection_not_made (isCorrecting : bool) (s : AppState) :
  isEmpty (trim (correctionText s)) = true
  \/ activeVideoId s = None
  \/ (forall v, In v (videoFiles s) -> isActiveId (Entry.id v) s = true ->
        Entry.geminiFile v = None) ->
  correct isCorrecting s = (s, isCorrecting).
Proof.
  intros H. unfold handleCorrection.
  destruct (isEmpty (trim (correctionText s))); [reflexivity|].
  destruct H as [H|[H|H]]; [discriminate| |].
  - rewrite H. reflexivity.
  - destruct (activeVideoId s) as [a|] eqn:Ea; [|reflexivity].
    destruct (find (hasId a) (videoFiles s)) as [t|] eqn:Ef; [|reflexivity].
    apply find_some in Ef. destruct Ef as [Hin Hid].
    rewrite (H t Hin); [reflexivity|].
    unfold isActiveId. rewrite Ea. exact Hid.
Qed.

(** X9: a correction whose call is rejected loses nothing: the collection
    and the whole display, the typed correction text included, are as
    before. *)
Theorem handleCorrection_rejected (isCorrecting : bool) (s : AppState) :
  (forall g, exists message,
     generateContent (correctionPrompt s) None g = Rejected message) ->
  fst (correct isCorrecting s) = s.
Proof.
  intros H. unfold handleCorrection.
  destruct (isEmpty (trim (correctionText s))); [reflexivity|].
  destruct (match activeVideoId s with
            | Some a => find (hasId a) (videoFiles s)
            | None => None
            end) as [t|]; [|reflexivity].
  destruct (Entry.geminiFile t) as [g|]; [|reflexivity].
  destruct (H (Some g)) as [m ->]. reflexivity.
Qed.

(** The two cases of the display after a successful correction. *)
Lemma handleCorrection_success_cases (isCorrecting : bool) (s : AppState)
  (a : jsstring) (target : Entry.t) (g : GeminiFile.t) (resp : Response.t) :
  isEmpty (trim (correctionText s)) = false ->
  a <> [] ->
  activeVideoId s = Some a ->
  find (hasId a) (videoFiles s) = Some target ->
  Entry.geminiFile target = Some g ->
  generateContent (correctionPrompt s) None (Some g) = Fulfilled resp ->
  let parsed :=
    parseSeoResponse toUpperCase toLowerCase (Response.text resp) in
  let s' := fst (correct isCorrecting s) in
  let shown := rendersAfter toUpperCase toLowerCase s s' in
  snd (correct isCorrecting s) = false
  /\ (forall j v, nth_error (videoFiles s) j = Some v ->
        exists v',
          nth_error (videoFiles s') j = Some v'
          /\ Entry.id v' = Entry.id v
          /\ Entry.name v' = Entry.name v
          /\ Entry.url v' = Entry.url v
          /\ Entry.file v' = Entry.file v
          /\ Entry.geminiFile v' = Entry.geminiFile v
          /\ Entry.uploadError v' = Entry.uploadError v
          /\ Entry.timecodeList v' = Entry.timecodeList v
          /\ Entry.textResponse v'
             = (if hasId a v then Response.text resp else Entry.textResponse v)
          /\ Entry.seoData v'
             = (if hasId a v then Some parsed else Entry.seoData v))
  /\ videoFiles shown = videoFiles s'
  /\ correctionText shown = []
  /\ (isEmpty (title parsed) && isEmpty (keywords parsed) = false ->
      seoData shown = parsed
      /\ textResponse shown = Response.text resp
      /\ timecodeList shown = timecodeList s
      /\ activeMode shown = Some MODE_SEO)
  /\ (isEmpty (title parsed) && isEmpty (keywords parsed) = true ->
      seoData shown = emptySeoData
      /\ textResponse shown = None
      /\ timecodeList shown = Entry.timecodeList target
      /\ activeMode shown
         = match Entry.timecodeList target with
           | Some _ => Some (lit "Аудио/Видео субтитры")
           | None => None
           end).
Proof.
  intros Hb Hne Ha Hf Hg Hr parsed s' shown.
  assert (Hp : parsed
               = parseSeoResponse toUpperCase toLowerCase (Response.text resp))
    by reflexivity.
  assert (Hs0 : s' = fst (correct isCorrecting s)) by reflexivity.
  assert (Hsh : shown = rendersAfter toUpperCase toLowerCase s s')
    by reflexivity.
  clearbody shown s' parsed.
  set (f := fun v : Entry.t =>
              if isActiveId (Entry.id v) s
              then Entry.withSeo (Response.text resp) parsed v else v).
  assert (Hrun : correct isCorrecting s
                 = (setCorrectionText []
                      (setVideoFiles (map f (videoFiles s))
                         (setTextResponse (Response.text resp)
                            (setSeoData parsed s))), false)).
  { unfold handleCorrection. rewrite Hb, Ha, Hf, Hg, Hr, <- Hp. reflexivity. }
  assert (Hs' : s' = setCorrectionText []
                       (setVideoFiles (map f (videoFiles s))
                          (setTextResponse (Response.text resp)
                             (setSeoData parsed s)))).
  { rewrite Hs0, Hrun. reflexivity. }
  clear Hs0.
  assert (Hfid : forall x, Entry.id (f x) = Entry.id x).
  { intros x. unfold f. destruct (isActiveId _ _); reflexivity. }
  assert (Hact : forall x, isActiveId (Entry.id x) s = hasId a x).
  { intros x. unfold isActiveId, hasId. rewrite Ha. reflexivity. }
  assert (Hav : activeVideo s'
                = Some (Entry.withSeo (Response.text resp) parsed target)).
  { rewrite Hs'. unfold activeVideo. cbn [activeVideoId videoFiles
      setCorrectionText setVideoFiles setTextResponse setSeoData].
    rewrite Ha. destruct a as [|c a']; [congruence|].
    rewrite (find_map_sameId f _ _ Hfid), Hf. simpl. f_equal.
    unfold f. rewrite Hact.
    apply find_some in Hf. rewrite (proj2 Hf). reflexivity. }
  assert (Hguard : hasSeoFields (Entry.withSeo (Response.text resp) parsed target)
                   = negb (isEmpty (title parsed) && isEmpty (keywords parsed))).
  { unfold hasSeoFields. simpl. rewrite negb_andb. reflexivity. }
  assert (Hq : reparsedFields toUpperCase toLowerCase s' = None).
  { destruct (Response.text resp) as [[|c t]|] eqn:Et.
    - unfold reparsedFields. rewrite Hs'. cbn [activeMode textResponse
        setCorrectionText setVideoFiles setTextResponse setSeoData].
      destruct (activeMode s); reflexivity.
    - apply (reparse_same toUpperCase toLowerCase s' c t);
        rewrite Hs'; [reflexivity | exact Hp].
    - apply (reparse_no_text toUpperCase toLowerCase s'). rewrite Hs'.
      reflexivity. }
  split; [rewrite Hrun; reflexivity|]. split.
  { intros j v Hj. exists (f v). split.
    - rewrite Hs'. cbn [videoFiles setCorrectionText setVideoFiles].
      rewrite nth_error_map, Hj. reflexivity.
    - unfold f. rewrite Hact. destruct (hasId a v); repeat split; reflexivity. }
  destruct (isEmpty (title parsed) && isEmpty (keywords parsed)) eqn:Eg.
  - (* nothing to restore *)
    assert (Hres : shown = restoreEffect s').
    { rewrite Hsh. apply rendersAfter_restored; [exact Hq|].
      apply reparse_no_text.
      rewrite (restore_uncached s' _ Hav) by (rewrite Hguard; reflexivity).
      destruct (Entry.timecodeList _); reflexivity. }
    rewrite Hres, (restore_uncached s' _ Hav) by (rewrite Hguard; reflexivity).
    cbn [Entry.timecodeList Entry.withSeo].
    split; [destruct (Entry.timecodeList target); reflexivity|].
    split; [destruct (Entry.timecodeList target); reflexivity|].
    split; [discriminate|]. intros _.
    destruct (Entry.timecodeList target); repeat split; reflexivity.
  - assert (Htxt : exists c t, Response.text resp = Some (c :: t)).
    { destruct (Response.text resp) as [[|c t]|];
        [exfalso | exists c, t; reflexivity | exfalso];
        rewrite Hp in Eg; discriminate. }
    destruct Htxt as [c [t Et]].
    assert (Hrest : restoreEffect s'
                    = setCorrectionText []
                        (setActiveMode (Some MODE_SEO)
                           (setTextResponse (Some (c :: t))
                              (setSeoData parsed s')))).
    { rewrite (restore_cached s' _ parsed Hav eq_refl)
        by (rewrite Hguard; reflexivity).
      cbn [Entry.textResponse Entry.withSeo]. rewrite Et. reflexivity. }
    assert (Hres : shown = restoreEffect s').
    { rewrite Hsh. apply rendersAfter_restored; [exact Hq|].
      apply (reparse_same toUpperCase toLowerCase _ c t);
        rewrite Hrest; [reflexivity|].
      cbn [seoData setCorrectionText setActiveMode setTextResponse setSeoData].
      rewrite Hp, Et. reflexivity. }
    rewrite Hres, Hrest, Hs'. split; [reflexivity|]. split; [reflexivity|].
    split; [|discriminate]. intros _. rewrite Et. repeat split; reflexivity.
Qed.

(** X10: a successful correction stores the reply in the records of the
    active id.  When the correction text is not blank, the active id is not
    empty, the first video with the active id has a remote file and the call
    is fulfilled, the correcting flag ends lowered and every record with the
    active id holds the response text as its cached text and the fields
    parsed from it as its cached fields; its other fields, and the records
    of the other videos, are as they were.  After the renders that follow,
    the collection is the same and the correction input is empty; when the
    parsed title or the parsed keywords are not empty, the displayed fields
    are the parsed ones, the displayed text is the response text, the mode
    is the SEO mode and the displayed timecode list is as it was; when both
    are empty, the restore effect shows what it shows for a video without
    cached fields: empty fields, no text, and the cached timecode list of
    the video with the subtitles mode, or none of both. *)
Theorem handleCorrection_success (isCorrecting : bool) (s : AppState)
  (a : jsstring) (target : Entry.t) (g : GeminiFile.t) (resp : Response.t) :
  isEmpty (trim (correctionText s)) = false ->
  a <> [] ->
  activeVideoId s = Some a ->
  find (hasId a) (videoFiles s) = Some target ->
  Entry.geminiFile target = Some g ->
  generateContent (correctionPrompt s) None (Some g) = Fulfilled resp ->
  let parsed :=
    parseSeoResponse toUpperCase toLowerCase (Response.text resp) in
  let nothing := isEmpty (title parsed) && isEmpty (keywords parsed) in
  let s' := fst (correct isCorrecting s) in
  let shown := rendersAfter toUpperCase toLowerCase s s' in
  snd (correct isCorrecting s) = false
  /\ (forall j v, nth_error (videoFiles s) j = Some v ->
        exists v',
          nth_error (videoFiles s') j = Some v'
          /\ Entry.id v' = Entry.id v
          /\ Entry.name v' = Entry.name v
          /\ Entry.url v' = Entry.url v
          /\ Entry.file v' = Entry.file v
          /\ Entry.geminiFile v' = Entry.geminiFile v
          /\ Entry.uploadError v' = Entry.uploadError v
          /\ Entry.timecodeList v' = Entry.timecodeList v
          /\ Entry.textResponse v'
             = (if hasId a v then Response.text resp else Entry.textResponse v)
          /\ Entry.seoData v'
             = (if hasId a v then Some parsed else Entry.seoData v))
  /\ videoFiles shown = videoFiles s'
  /\ correctionText shown = []
  /\ seoData shown = (if nothing then emptySeoData else parsed)
  /\ textResponse shown = (if nothing then None else Response.text resp)
  /\ timecodeList shown
     = (if nothing then Entry.timecodeList target else timecodeList s)
  /\ activeMode shown
     = (if nothing
        then match Entry.timecodeList target with
             | Some _ => Some (lit "Аудио/Видео субтитры")
             | None => None
             end
        else Some MODE_SEO).
Proof.
  intros Hb Hne Ha Hf Hg Hr parsed nothing s' shown.
  destruct (handleCorrection_success_cases isCorrecting s a target g resp
              Hb Hne Ha Hf Hg Hr)
    as [Hflag [Hcache [Hfiles [Htext [Hshow Hclear]]]]].
  split; [exact Hflag|]. split; [exact Hcache|]. split; [exact Hfiles|].
  split; [exact Htext|].
  unfold nothing, shown, s', parsed.
  destruct (isEmpty _ && isEmpty _).
  - destruct (Hclear eq_refl) as [H1 [H2 [H3 H4]]].
    split; [exact H1|]. split; [exact H2|]. split; [exact H3 | exact H4].
  - destruct (Hshow eq_refl) as [H1 [H2 [H3 H4]]].
    split; [exact H1|]. split; [exact H2|]. split; [exact H3 | exact H4].
Qed.

End CorrectionFacts.

(** ** More about running a mode *)

Section RunFacts.

Variable toUpperCase : jsstring -> jsstring.
Variable toLowerCase : jsstring -> jsstring.
Variable modes : jsstring -> option ModeConfig.
Variable generateContent :
  nat -> jsstring -> option (list FunctionDeclaration) -> option GeminiFile.t
  -> Promise Response.t.

Local Abbreviation runMode :=
  (onModeSelect toUpperCase toLowerCase modes generateContent).
Local Abbreviation task := (runTask generateContent).
Local Abbreviation cache := (cacheResult toUpperCase toLowerCase).

Lemma cacheResult_sameVideo isTextMode results v :
  sameVideo v (cache isTextMode results v).
Proof.
  unfold cacheResult, sameVideo.
  destruct (find _ results) as [[i resp|i e]|]; try (repeat split; reflexivity).
  destruct isTextMode; [repeat split; reflexivity|].
  destruct (firstCall resp) as [call|]; [|repeat split; reflexivity].
  destruct (jsstring_eqb _ _); repeat split; reflexivity.
Qed.

Lemma showActiveResult_frame isTextMode results active s :
  videoFiles (showActiveResult isTextMode results active s) = videoFiles s
  /\ activeVideoId (showActiveResult isTextMode results active s)
     = activeVideoId s
  /\ revokedURLs (showActiveResult isTextMode results active s)
     = revokedURLs s.
Proof.
  unfold showActiveResult.
  destruct active as [a|]; [|auto].
  destruct (find _ _) as [[i resp|i e]|]; auto.
  destruct isTextMode; [auto|].
  destruct (firstCall resp) as [call|]; [|auto].
  destruct (jsstring_eqb _ _); auto.
Qed.

(** What a run leaves in the state, whatever way it ends. *)
Lemma onModeSelect_shape mode s :
  let s' := finalState (runMode mode s) in
  activeVideoId s' = activeVideoId s
  /\ revokedURLs s' = revokedURLs s
  /\ (videoFiles s' = videoFiles s
      \/ exists cfg,
           modes mode = Some cfg
           /\ targets s <> []
           /\ videoFiles s'
              = map (cache (isText cfg)
                       (mapiFrom (task cfg s) 0 (targets s)))
                  (videoFiles s)).
Proof.
  unfold onModeSelect. destruct (modes mode) as [cfg|] eqn:Em;
    [|simpl; auto].
  destruct (targets s) as [|t0 ts] eqn:Et; [simpl; auto|].
  cbv zeta. cbn [finalState].
  match goal with
  | |- context [showActiveResult ?t ?r ?a ?x] =>
      destruct (showActiveResult_frame t r a x) as [Hv [Ha Hr]]
  end.
  cbn [activeVideoId revokedURLs videoFiles setApplyToAll setAdditionalText
         setIsLoading].
  rewrite Hv, Ha, Hr. split; [reflexivity|]. split; [reflexivity|].
  right. exists cfg. split; [reflexivity|]. split; [discriminate|].
  reflexivity.
Qed.

(** X11: a run of [onModeSelect] never adds, removes or reorders videos and
    never touches a video's id, name, URL, file, remote file or upload error;
    it changes neither the active id nor the revoked URLs.  This holds
    however the run ends and whatever the service answers. *)
Theorem onModeSelect_frame (mode : jsstring) (s : AppState) :
  let s' := finalState (runMode mode s) in
  Forall2 sameVideo (videoFiles s) (videoFiles s')
  /\ activeVideoId s' = activeVideoId s
  /\ revokedURLs s' = revokedURLs s.
Proof.
  intros s'. destruct (onModeSelect_shape mode s) as [Ha [Hr Hv]].
  fold s' in Ha, Hr, Hv. split; [|split; assumption].
  destruct Hv as [->|[cfg [_ [_ ->]]]].
  - induction (videoFiles s); constructor; [repeat split | assumption].
  - induction (videoFiles s); simpl; constructor;
      [apply cacheResult_sameVideo | assumption].
Qed.

Lemma cacheResult_not_target cfg s v :
  NoDup (map Entry.id (videoFiles s)) ->
  In v (videoFiles s) -> ~ In v (targets s) ->
  cache (isText cfg) (mapiFrom (task cfg s) 0 (targets s)) v = v.
Proof.
  intros Hnd Hin Hnot. unfold cacheResult.
  destruct (find _ _) as [r|] eqn:Ef; [|reflexivity].
  apply find_mapiFrom_inv in Ef. destruct Ef as [i [t [Hi [Hr Hf]]]].
  exfalso. apply Hnot.
  assert (Ht : In t (targets s)) by (eapply nth_error_In; eassumption).
  assert (Hid : Entry.id t = Entry.id v).
  { rewrite Hr in Hf. unfold runTask in Hf.
    destruct (generateContent _ _ _ _); simpl in Hf;
      apply jsstring_eqb_eq in Hf; exact Hf. }
  assert (Htv : In t (videoFiles s)).
  { revert Ht. unfold targets. destruct (applyToAll s); intros Ht;
      apply filter_In in Ht; tauto. }
  destruct (In_nth_error _ _ Htv) as [p Hp].
  destruct (In_nth_error _ _ Hin) as [q Hq].
  pose proof (NoDup_ids_index _ _ _ _ _ Hnd Hp Hq Hid) as ->.
  rewrite Hp in Hq. injection Hq as <-. exact Ht.
Qed.

(** X12: a run of [onModeSelect] leaves every video that is not a target as
    it was: with distinct ids, a video that has no remote file, or that is not
    the active one when the mode is applied to the active video only, keeps
    its record, cached results included. *)
Theorem onModeSelect_spares_others (mode : jsstring) (s : AppState)
  (j : nat) (v : Entry.t) :
  NoDup (map Entry.id (videoFiles s)) ->
  nth_error (videoFiles s) j = Some v ->
  ~ In v (targets s) ->
  nth_error (videoFiles (finalState (runMode mode s))) j = Some v.
Proof.
  intros Hnd Hj Hnot.
  destruct (onModeSelect_shape mode s) as [_ [_ [->|[cfg [_ [_ ->]]]]]];
    [exact Hj|].
  rewrite nth_error_map, Hj. simpl. f_equal.
  apply cacheResult_not_target; [exact Hnd | | exact Hnot].
  eapply nth_error_In; eassumption.
Qed.

(** X13: when no video has a remote file, a run of [onModeSelect] with a
    known mode makes no use of the generation service: it completes with the
    same state whatever the service would answer, the collection as it was,
    the display cleared and the loading flag lowered. *)
Theorem onModeSelect_nothing_ready (mode : jsstring) (cfg : ModeConfig)
  (s : AppState)
  (generateContent' :
     nat -> jsstring -> option (list FunctionDeclaration)
     -> option GeminiFile.t -> Promise Response.t) :
  modes mode = Some cfg ->
  (forall v, In v (videoFiles s) -> Entry.geminiFile v = None) ->
  exists s',
    runMode mode s = Completed s'
    /\ onModeSelect toUpperCase toLowerCase modes generateContent' mode s
       = Completed s'
    /\ videoFiles s' = videoFiles s
    /\ activeMode s' = Some mode
    /\ textResponse s' = None
    /\ timecodeList s' = None
    /\ seoData s' = emptySeoData
    /\ isLoading s' = false.
Proof.
  intros Hm Hno.
  assert (Ht : targets s = []).
  { unfold targets.
    assert (H : forall f, filter (fun v => f v && isSome (Entry.geminiFile v))
                            (videoFiles s) = []).
    { intros f. induction (videoFiles s) as [|v l IH]; simpl; [reflexivity|].
      rewrite (Hno v (or_introl eq_refl)), andb_false_r. apply IH.
      intros u Hu. apply Hno. right. exact Hu. }
    destruct (applyToAll s); [apply (H (fun _ => true)) | apply H]. }
  unfold onModeSelect. rewrite Hm, Ht.
  eexists. repeat split; reflexivity.
Qed.

(** X14: in a free-text mode, with distinct ids, when the call for a
    target is fulfilled, the run completes and the target's record in the
    resulting collection holds the response text as its cached text and the
    fields parsed from that text as its cached fields; the other fields of
    the record are those of the old record. *)
Theorem onModeSelect_caches_text (mode : jsstring) (cfg : ModeConfig)
  (s : AppState) (i j : nat) (v : Entry.t) (resp : Response.t) :
  modes mode = Some cfg ->
  isText cfg = true ->
  NoDup (map Entry.id (videoFiles s)) ->
  nth_error (targets s) i = Some v ->
  nth_error (videoFiles s) j = Some v ->
  generateContent i (basePrompt cfg s) None (Entry.geminiFile v)
  = Fulfilled resp ->
  exists s' v',
    runMode mode s = Completed s'
    /\ nth_error (videoFiles s') j = Some v'
    /\ Entry.textResponse v' = Response.text resp
    /\ Entry.seoData v'
       = Some (parseSeoResponse toUpperCase toLowerCase (Response.text resp))
    /\ Entry.id v' = Entry.id v
    /\ Entry.name v' = Entry.name v
    /\ Entry.url v' = Entry.url v
    /\ Entry.file v' = Entry.file v
    /\ Entry.geminiFile v' = Entry.geminiFile v
    /\ Entry.uploadError v' = Entry.uploadError v
    /\ Entry.timecodeList v' = Entry.timecodeList v.
Proof.
  intros Hm Hs Hnd Hi Hj Hg.
  destruct (onModeSelect_completes toUpperCase toLowerCase modes
              generateContent mode cfg s Hm) as [s' [Hrun [Hv _]]].
  { intros E. rewrite E in Hi. destruct i; discriminate. }
  assert (Hown : task cfg s i v = Succeeded (Entry.id v) resp).
  { unfold runTask. rewrite Hs, Hg. reflexivity. }
  exists s', (cache true (mapiFrom (task cfg s) 0 (targets s)) v).
  split; [exact Hrun|]. split.
  - rewrite Hv, nth_error_map, Hj, Hs. reflexivity.
  - unfold cacheResult.
    rewrite (find_own_result generateContent cfg s i v Hnd Hi), Hown.
    repeat split; reflexivity.
Qed.

(** X15: in a structured mode, a fulfilled response that holds no function
    call, or whose first call is not named [set_timecodes], caches nothing:
    the target's record stays as it was; and when the target is the active
    video, the message for an invalid model response is displayed. *)
Theorem onModeSelect_invalid_response (mode : jsstring) (cfg : ModeConfig)
  (s : AppState) (i j : nat) (v : Entry.t) (resp : Response.t) :
  modes mode = Some cfg ->
  isText cfg = false ->
  NoDup (map Entry.id (videoFiles s)) ->
  nth_error (targets s) i = Some v ->
  nth_error (videoFiles s) j = Some v ->
  generateContent i (basePrompt cfg s) (Some functions) (Entry.geminiFile v)
  = Fulfilled resp ->
  (firstCall resp = None
   \/ exists call,
        firstCall resp = Some call
        /\ FunctionCall.name call <> lit "set_timecodes") ->
  exists s',
    runMode mode s = Completed s'
    /\ nth_error (videoFiles s') j = Some v
    /\ (isActiveId (Entry.id v) s = true ->
        textResponse s' = Some (lit "Ошибка: Некорректный ответ модели.")).
Proof.
  intros Hm Hs Hnd Hi Hj Hg Hbad.
  destruct (onModeSelect_completes toUpperCase toLowerCase modes
              generateContent mode cfg s Hm) as [s' [Hrun [Hv Ht]]].
  { intros E. rewrite E in Hi. destruct i; discriminate. }
  assert (Hown : task cfg s i v = Succeeded (Entry.id v) resp).
  { unfold runTask. rewrite Hs, Hg. reflexivity. }
  exists s'. split; [exact Hrun|]. split.
  - rewrite Hv, nth_error_map, Hj. simpl. f_equal. unfold cacheResult.
    rewrite (find_own_result generateContent cfg s i v Hnd Hi), Hown, Hs.
    destruct Hbad as [->|[call [-> Hn]]]; [reflexivity|].
    rewrite (jsstring_eqb_neq _ _ Hn). reflexivity.
  - intros Ha. rewrite Ht. unfold showActiveResult, isActiveId in *.
    destruct (activeVideoId s) as [a|]; [|discriminate].
    apply jsstring_eqb_eq in Ha. subst a.
    rewrite (find_own_result generateContent cfg s i v Hnd Hi), Hown, Hs.
    destruct Hbad as [->|[call [-> Hn]]]; [reflexivity|].
    rewrite (jsstring_eqb_neq _ _ Hn). reflexivity.
Qed.

End RunFacts.

(** ** What every reachable state satisfies *)

Lemma sameCache_ids l l' :
  Forall2 sameCache l l' -> map Entry.id l' = map Entry.id l.
Proof.
  induction 1 as [|v v' l l' [Hid _] _ IH]; simpl; [reflexivity|].
  rewrite Hid, IH. reflexivity.
Qed.

Lemma sameCache_map (f : Entry.t -> Entry.t) l l' :
  (forall v, sameCache v (f v)) ->
  Forall2 sameCache l l' -> Forall2 sameCache l (map f l').
Proof.
  intros Hf. induction 1 as [|v v' l l' [H1 [H2 H3]] _ IH]; simpl;
    constructor; [|exact IH].
  destruct (Hf v') as [F1 [F2 F3]]. repeat split; congruence.
Qed.

Lemma sameCache_refl l : Forall2 sameCache l l.
Proof. induction l; constructor; [repeat split | assumption]. Qed.

Lemma ids_In (l l' : list Entry.t) (v : Entry.t) :
  map Entry.id l' = map Entry.id l -> In v l ->
  exists v', In v' l' /\ Entry.id v' = Entry.id v.
Proof.
  intros E Hin. apply (in_map Entry.id) in Hin. rewrite <- E in Hin.
  apply in_map_iff in Hin. destruct Hin as [v' [Hid Hv']]. eauto.
Qed.

Section Invariants.

Variable toUpperCase : jsstring -> jsstring.
Variable toLowerCase : jsstring -> jsstring.

Local Abbreviation Consistent := (CacheConsistent toUpperCase toLowerCase).
Local Abbreviation parseText := (parseSeoResponse toUpperCase toLowerCase).
Local Abbreviation Invariant := (Invariant toUpperCase toLowerCase).

Lemma consistent_sameCache (l l' : list Entry.t) :
  Forall2 sameCache l l' ->
  (forall v d, In v l -> Entry.seoData v = Some d ->
     d = parseText (Entry.textResponse v)) ->
  forall v d, In v l' -> Entry.seoData v = Some d ->
    d = parseText (Entry.textResponse v).
Proof.
  induction 1 as [|v v' l l' [_ [Hs Ht]] _ IH]; intros Hc u d Hu Hd;
    [destruct Hu|].
  destruct Hu as [<-|Hu].
  - rewrite Ht. apply (Hc v d); [left; reflexivity | congruence].
  - apply IH; try assumption. intros w e Hw. apply Hc. right. exact Hw.
Qed.

Lemma restoreEffect_frame s :
  videoFiles (restoreEffect s) = videoFiles s
  /\ (activeVideoId (restoreEffect s) = activeVideoId s
      \/ exists first, In first (videoFiles s)
           /\ activeVideoId (restoreEffect s) = Some (Entry.id first)).
Proof.
  unfold restoreEffect. destruct (activeVideo s) as [v|].
  - destruct (if hasSeoFields v then Entry.seoData v else None);
      [|destruct (Entry.timecodeList v)]; auto.
  - destruct (activeVideoId s) as [[|c a]|] eqn:Ea; auto.
    destruct (videoFiles s) as [|v0 others] eqn:E; auto.
    split; [simpl; auto|]. right. exists v0. split; [left|]; reflexivity.
Qed.

Lemma reparseEffect_frame s :
  videoFiles (reparseEffect toUpperCase toLowerCase s) = videoFiles s
  /\ activeVideoId (reparseEffect toUpperCase toLowerCase s) = activeVideoId s.
Proof.
  unfold reparseEffect.
  destruct (activeMode s) as [m|]; [|auto].
  destruct (textResponse s) as [[|c t]|]; auto.
  destruct (jsstring_eqb m MODE_SEO); [|auto].
  destruct (_ || _); auto.
Qed.

Lemma restoreEffect_valid s : ActiveValid s -> ActiveValid (restoreEffect s).
Proof.
  intros Hv. destruct (restoreEffect_frame s) as [Hf [Ha|[v0 [Hin Ha]]]];
    unfold ActiveValid in *; rewrite Hf, Ha.
  - exact Hv.
  - exists v0. auto.
Qed.

Lemma setActive_frame x s :
  videoFiles (setActive toUpperCase toLowerCase x s) = videoFiles s.
Proof.
  unfold setActive. destruct (isActiveId x s); [reflexivity|].
  assert (H : forall t, videoFiles t = videoFiles s ->
            videoFiles (if displayChanged s t
                        then reparseEffect toUpperCase toLowerCase t else t)
            = videoFiles s).
  { intros t Ht. destruct (displayChanged s t); [|exact Ht].
    rewrite (proj1 (reparseEffect_frame t)). exact Ht. }
  cbv zeta. apply H.
  destruct (activeVideo _);
    [rewrite (proj1 (restoreEffect_frame _)); reflexivity|].
  destruct (isActiveId x _);
    rewrite ?(proj1 (restoreEffect_frame _)); reflexivity.
Qed.

Lemma setActive_valid v s :
  In v (videoFiles s) -> ActiveValid s ->
  ActiveValid (setActive toUpperCase toLowerCase (Entry.id v) s).
Proof.
  intros Hin Hv. unfold setActive.
  destruct (isActiveId (Entry.id v) s); [exact Hv|].
  assert (H1 : ActiveValid (setActiveVideoId (Some (Entry.id v)) s)).
  { unfold ActiveValid. simpl. exists v. auto. }
  assert (H : forall t, ActiveValid t ->
            ActiveValid (if displayChanged s t
                         then reparseEffect toUpperCase toLowerCase t else t)).
  { intros t Ht. destruct (displayChanged s t); [|exact Ht].
    unfold ActiveValid in *.
    destruct (reparseEffect_frame t) as [-> ->]. exact Ht. }
  cbv zeta. apply H.
  destruct (activeVideo _); [apply restoreEffect_valid; exact H1|].
  destruct (isActiveId _ _); repeat apply restoreEffect_valid; exact H1.
Qed.

Lemma cacheResult_sameCache_or isTextMode results v :
  sameCache v (cacheResult toUpperCase toLowerCase isTextMode results v)
  \/ exists t,
       cacheResult toUpperCase toLowerCase isTextMode results v
       = Entry.withSeo t (parseText t) v.
Proof.
  unfold cacheResult.
  destruct (find _ results) as [[i resp|i e]|];
    try (left; repeat split; reflexivity).
  destruct isTextMode; [right; eauto|].
  destruct (firstCall resp) as [call|]; [|left; repeat split; reflexivity].
  destruct (jsstring_eqb _ _); left; repeat split; reflexivity.
Qed.

(** A list whose entries keep their id and either keep their cached text
    results or get a text cached with the fields parsed from it. *)
Lemma consistent_map (f : Entry.t -> Entry.t) (l : list Entry.t) :
  (forall v, sameCache v (f v)
             \/ exists t, f v = Entry.withSeo t (parseText t) v) ->
  (forall v d, In v l -> Entry.seoData v = Some d ->
     d = parseText (Entry.textResponse v)) ->
  map Entry.id (map f l) = map Entry.id l
  /\ forall v d, In v (map f l) -> Entry.seoData v = Some d ->
       d = parseText (Entry.textResponse v).
Proof.
  intros Hf Hc. split.
  - rewrite map_map. apply map_ext. intros v.
    destruct (Hf v) as [[H _]|[t ->]]; [exact H | reflexivity].
  - intros u d Hu Hd. apply in_map_iff in Hu. destruct Hu as [v [<- Hv]].
    destruct (Hf v) as [[_ [Hs Ht]]|[t Et]].
    + rewrite Ht. apply (Hc v d Hv). congruence.
    + rewrite Et in Hd |- *. simpl in Hd |- *. congruence.
Qed.

Lemma invariant_of_ids (s s' : AppState) :
  map Entry.id (videoFiles s') = map Entry.id (videoFiles s) ->
  activeVideoId s' = activeVideoId s ->
  ActiveValid s /\ DistinctIds s -> ActiveValid s' /\ DistinctIds s'.
Proof.
  intros Hids Ha [Hv Hd]. unfold ActiveValid, DistinctIds in *.
  rewrite Hids, Ha. split; [|exact Hd].
  destruct (activeVideoId s) as [a|]; [|exact I].
  destruct Hv as [v [Hin Hid]].
  destruct (ids_In _ _ v Hids Hin) as [v' [Hin' Hid']].
  exists v'. split; [exact Hin' | congruence].
Qed.

Lemma onModeSelect_invariant modes generateContent mode s :
  Invariant s ->
  Invariant
    (finalState
       (onModeSelect toUpperCase toLowerCase modes generateContent mode s)).
Proof.
  intros [Hc Hvd].
  destruct (onModeSelect_shape toUpperCase toLowerCase modes generateContent
              mode s) as [Ha [_ [Hv|[cfg [_ [_ Hv]]]]]].
  - split; [|apply (invariant_of_ids s); [rewrite Hv| |]; auto].
    unfold CacheConsistent. rewrite Hv. exact Hc.
  - destruct (consistent_map
                (cacheResult toUpperCase toLowerCase (isText cfg)
                   (mapiFrom (runTask generateContent cfg s) 0 (targets s)))
                (videoFiles s)
                (cacheResult_sameCache_or _ _) Hc) as [Hids Hc'].
    split; [|apply (invariant_of_ids s); [rewrite Hv| |]; auto].
    unfold CacheConsistent. rewrite Hv. exact Hc'.
Qed.

Lemma handleCorrection_invariant generateContent isCorrecting s :
  Invariant s ->
  Invariant
    (fst (handleCorrection toUpperCase toLowerCase generateContent
            isCorrecting s)).
Proof.
  intros Hinv. unfold handleCorrection.
  destruct (isEmpty (trim (correctionText s))); [exact Hinv|].
  destruct (match activeVideoId s with
            | Some a => find (hasId a) (videoFiles s)
            | None => None
            end) as [t|]; [|exact Hinv].
  destruct (Entry.geminiFile t) as [g|]; [|exact Hinv].
  destruct (generateContent _ _ _) as [resp|m]; [|exact Hinv].
  destruct Hinv as [Hc Hvd]. cbn [fst].
  destruct (consistent_map
              (fun v => if isActiveId (Entry.id v) s
                        then Entry.withSeo (Response.text resp)
                               (parseText (Response.text resp)) v
                        else v)
              (videoFiles s)) as [Hids Hc'].
  - intros v. destruct (isActiveId (Entry.id v) s);
      [right; eauto | left; repeat split; reflexivity].
  - exact Hc.
  - split; [exact Hc'|]. apply (invariant_of_ids s); auto.
Qed.

Lemma handleRemoveVideo_invariant x s :
  Invariant s -> Invariant (handleRemoveVideo x s).
Proof.
  intros [Hc [Hv Hd]].
  assert (Hf : videoFiles (handleRemoveVideo x s)
               = filter (fun v => negb (hasId x v)) (videoFiles s)).
  { destruct (handleRemoveVideo_cases x s) as [[-> Hf]|[w [a [_ [-> _]]]]];
      [symmetry; apply filter_absent; exact Hf | reflexivity]. }
  split; [|split].
  - unfold CacheConsistent. rewrite Hf. intros v d Hin.
    apply filter_In in Hin. apply Hc. tauto.
  - destruct (handleRemoveVideo_cases x s)
      as [[-> _]|[w [a [_ [-> [[Ha ->]|[[Ha [Hr ->]]|[Ha [u [Hu ->]]]]]]]]]];
      [exact Hv| |exact I|].
    + unfold ActiveValid in *. simpl.
      destruct (activeVideoId s) as [b|] eqn:Eb; [|exact I].
      destruct Hv as [v [Hin Hid]]. exists v. split; [|exact Hid].
      apply filter_In. split; [exact Hin|].
      unfold isActiveId in Ha. rewrite Eb in Ha. unfold hasId.
      rewrite Hid. destruct (jsstring_eqb b x) eqn:E; [|reflexivity].
      apply jsstring_eqb_eq in E. rewrite E, jsstring_eqb_refl in Ha.
      discriminate.
    + unfold ActiveValid. simpl. exists u. auto.
  - unfold DistinctIds. rewrite Hf. apply NoDup_map_filter. exact Hd.
Qed.

Lemma settleAll_sameCache uploadOutcome new l : forall order s,
  Forall2 sameCache l (videoFiles s) ->
  Forall2 sameCache l (videoFiles (settleAll uploadOutcome new order s)).
Proof.
  induction order as [|k order IH]; intros s H; simpl; [exact H|].
  destruct (nth_error new k) as [e|]; [|apply IH; exact H].
  apply IH. unfold uploadSettled.
  destruct (uploadOutcome k); simpl; apply sameCache_map; try exact H;
    intros v; destruct (hasId _ v); repeat split; reflexivity.
Qed.

Lemma newVideoEntries_uncached randomUUID createObjectURL drawn files v :
  In v (newVideoEntries randomUUID createObjectURL drawn files) ->
  Entry.seoData v = None.
Proof.
  unfold newVideoEntries. generalize drawn.
  induction (filter isVideo files) as [|f l IH]; intros k; simpl;
    [intros []|].
  intros [<-|H]; [reflexivity | eapply IH; exact H].
Qed.

Lemma processAndUploadFiles_invariant randomUUID createObjectURL uploadOutcome
  drawn files order s :
  NoDup (map Entry.id
           (videoFiles s
              ++ newVideoEntries randomUUID createObjectURL drawn files)) ->
  Invariant s ->
  Invariant
    (processAndUploadFiles randomUUID createObjectURL uploadOutcome drawn
       files order s).
Proof.
  intros Hnd [Hc [Hv Hd]]. unfold processAndUploadFiles.
  destruct (newVideoEntries randomUUID createObjectURL drawn files)
    as [|v0 others] eqn:En.
  - unfold intake. rewrite En. split; [exact Hc|]. split; assumption.
  - rewrite <- En in *.
    set (new := newVideoEntries randomUUID createObjectURL drawn files) in *.
    set (s0 := intake randomUUID createObjectURL drawn files s).
    assert (H0 : videoFiles s0 = videoFiles s ++ new
                 /\ activeVideoId s0
                    = match activeVideoId s with
                      | None => Some (Entry.id v0)
                      | Some a => Some a
                      end).
    { unfold s0, intake. fold new. rewrite En.
      destruct (activeVideoId s) eqn:Ea; simpl; rewrite ?Ea; auto. }
    destruct H0 as [Hf0 Ha0].
    pose proof (settleAll_sameCache uploadOutcome new (videoFiles s ++ new)
                  order s0) as Hsame.
    rewrite Hf0 in Hsame. specialize (Hsame (sameCache_refl _)).
    destruct (settleAll_frame uploadOutcome new order s0) as [Ha _].
    set (s1 := settleAll uploadOutcome new order s0) in *.
    pose proof (sameCache_ids _ _ Hsame) as Hids.
    split; [|split].
    + unfold CacheConsistent. simpl.
      apply (consistent_sameCache _ _ Hsame).
      intros v d Hin Hs. apply in_app_or in Hin. destruct Hin as [Hin|Hin].
      * apply Hc; assumption.
      * unfold new in Hin.
        rewrite (newVideoEntries_uncached _ _ _ _ _ Hin) in Hs. discriminate.
    + unfold ActiveValid. simpl. rewrite Ha, Ha0.
      assert (Hex : forall v, In v (videoFiles s ++ new) ->
                exists v', In v' (videoFiles s1) /\ Entry.id v' = Entry.id v).
      { intros v Hin. apply (ids_In _ _ v Hids Hin). }
      destruct (activeVideoId s) as [a|] eqn:Ea.
      * unfold ActiveValid in Hv. rewrite Ea in Hv.
        destruct Hv as [v [Hin Hid]].
        destruct (Hex v) as [v' [Hin' Hid']];
          [apply in_or_app; left; exact Hin|].
        exists v'. split; [exact Hin' | congruence].
      * destruct (Hex v0) as [v' [Hin' Hid']].
        { apply in_or_app. right. rewrite En. left. reflexivity. }
        exists v'. auto.
    + unfold DistinctIds. simpl. fold s1. rewrite Hids. exact Hnd.
Qed.

Lemma step_invariant s s' :
  Step toUpperCase toLowerCase s s' -> Invariant s -> Invariant s'.
Proof.
  intros Hstep Hinv. destruct Hstep.
  - apply processAndUploadFiles_invariant; assumption.
  - apply onModeSelect_invariant; assumption.
  - apply handleCorrection_invariant; assumption.
  - apply handleRemoveVideo_invariant; assumption.
  - rewrite handleClearAll_resets_state.
    split; [intros v d []|]. split; [exact I | constructor].
  - destruct Hinv as [Hc [Hv Hd]]. split; [|split].
    + unfold CacheConsistent. rewrite setActive_frame. exact Hc.
    + apply setActive_valid; assumption.
    + unfold DistinctIds. rewrite setActive_frame. exact Hd.
  - destruct Hinv as [Hc [Hv Hd]].
    match goal with
    | Hf : videoFiles _ = videoFiles _, Ha : activeVideoId _ = activeVideoId _
      |- _ =>
        unfold Invariant, CacheConsistent, ActiveValid, DistinctIds;
        rewrite Hf, Ha
    end.
    split; [exact Hc|]. split; [exact Hv | exact Hd].
Qed.

(** X16: in every state reached from the first render by adding files
    (with new ids), running modes, typing, correcting, removing, clearing
    and clicking the tabs of videos, each action run to its end before the
    next, whatever the service and the uploads answer: the cached structured fields of each video are those parsed from
    its cached free text, the active id is the id of a video of the
    collection or there is none, and the ids of the videos are distinct. *)
Theorem reachable_invariant (s : AppState) :
  Reachable toUpperCase toLowerCase s ->
  CacheConsistent toUpperCase toLowerCase s /\ ActiveValid s /\ DistinctIds s.
Proof.
  induction 1 as [|s s' _ IH Hstep].
  - split; [intros v d []|]. split; [exact I | constructor].
  - exact (step_invariant s s' Hstep IH).
Qed.

End Invariants.

(** ** The display after a run *)

Section DisplayFacts.

Variable toUpperCase : jsstring -> jsstring.
Variable toLowerCase : jsstring -> jsstring.
Variable modes : jsstring -> option ModeConfig.
Variable generateContent :
  nat -> jsstring -> option (list FunctionDeclaration) -> option GeminiFile.t
  -> Promise Response.t.

Local Abbreviation runMode :=
  (onModeSelect toUpperCase toLowerCase modes generateContent).
Local Abbreviation task := (runTask generateContent).
Local Abbreviation cache := (cacheResult toUpperCase toLowerCase).

Lemma jsstring_eqb_nil x : jsstring_eqb x [] = isEmpty x.
Proof. destruct x; reflexivity. Qed.

(** The renders after a batch that displayed the text [c :: t] in the SEO
    mode with empty fields, the record of the active video caching the text
    and the fields parsed from it. *)
Lemma rendersAfter_text before after record c t :
  textResponse before = None ->
  textResponse after = Some (c :: t) ->
  activeMode after = Some MODE_SEO ->
  seoData after = emptySeoData ->
  activeVideo after = Some record ->
  Entry.textResponse record = Some (c :: t) ->
  Entry.seoData record
  = Some (parseSeoResponse toUpperCase toLowerCase (Some (c :: t))) ->
  let parsed := parseSeoResponse toUpperCase toLowerCase (Some (c :: t)) in
  let shown := rendersAfter toUpperCase toLowerCase before after in
  (isEmpty (title parsed) && isEmpty (keywords parsed) = false ->
   seoData shown = parsed
   /\ textResponse shown = Some (c :: t)
   /\ timecodeList shown = timecodeList after
   /\ activeMode shown = Some MODE_SEO)
  /\ (isEmpty (title parsed) && isEmpty (keywords parsed) = true ->
      seoData shown = emptySeoData
      /\ textResponse shown = None
      /\ timecodeList shown = Entry.timecodeList record
      /\ activeMode shown
         = match Entry.timecodeList record with
           | Some _ => Some (lit "Аудио/Видео субтитры")
           | None => None
           end).
Proof.
  intros Hb Ht Hm Hd Hav Hrt Hrd parsed shown.
  assert (Hp : parsed = parseSeoResponse toUpperCase toLowerCase (Some (c :: t)))
    by reflexivity.
  assert (Hsh : shown = rendersAfter toUpperCase toLowerCase before after)
    by reflexivity.
  clearbody shown parsed. rewrite <- Hp in Hrd.
  assert (Hguard : hasSeoFields record
                   = negb (isEmpty (title parsed) && isEmpty (keywords parsed))).
  { unfold hasSeoFields. rewrite Hrd, negb_andb. reflexivity. }
  assert (Hchanged : displayChanged before after = true).
  { unfold displayChanged. rewrite Hb, Ht. reflexivity. }
  assert (Hq : reparsedFields toUpperCase toLowerCase after
               = if isEmpty (title parsed) && isEmpty (keywords parsed)
                 then None else Some parsed).
  { unfold reparsedFields. rewrite Hm, Ht, Hd. cbv beta iota zeta.
    rewrite jsstring_eqb_refl.
    set (p := parseSeoResponse toUpperCase toLowerCase _).
    replace p with parsed by (unfold p; exact Hp). clear p.
    cbn [title keywords emptySeoData].
    rewrite !jsstring_eqb_nil, <- negb_andb.
    destruct (isEmpty (title parsed) && isEmpty (keywords parsed));
      reflexivity. }
  unfold rendersAfter in Hsh. rewrite Hchanged, Hq in Hsh. cbv zeta in Hsh.
  destruct (isEmpty (title parsed) && isEmpty (keywords parsed)) eqn:Eg.
  - split; [discriminate|]. intros _.
    rewrite (restore_uncached after record Hav) in Hsh
      by (rewrite Hguard; reflexivity).
    assert (Hres : shown
                   = setCorrectionText []
                       match Entry.timecodeList record with
                       | Some l =>
                           setSeoData emptySeoData
                             (setActiveMode (Some (lit "Аудио/Видео субтитры"))
                                (setTextResponse None
                                   (setTimecodeList (Some l) after)))
                       | None =>
                           setActiveMode None
                             (setSeoData emptySeoData
                                (setTextResponse None
                                   (setTimecodeList None after)))
                       end).
    { rewrite Hsh. destruct (displayChanged after _); [|reflexivity].
      apply reparse_no_text. destruct (Entry.timecodeList record); reflexivity. }
    rewrite Hres. destruct (Entry.timecodeList record); repeat split; reflexivity.
  - split; [|discriminate]. intros _.
    rewrite (restore_cached after record parsed Hav Hrd) in Hsh
      by (rewrite Hguard; reflexivity).
    rewrite Hrt in Hsh. cbn [orNull] in Hsh.
    match type of Hsh with
    | context [displayChanged after ?next] =>
        assert (Hsame : displayChanged after next = false)
    end.
    { unfold displayChanged.
      cbn [textResponse activeMode setSeoData setCorrectionText setActiveMode
           setTextResponse].
      rewrite Ht, Hm. cbn [option_eqb]. rewrite !jsstring_eqb_refl.
      reflexivity. }
    rewrite Hsame in Hsh. rewrite Hsh. repeat split; reflexivity.
Qed.

(** The two cases of the display after a run of the SEO mode. *)
Lemma onModeSelect_display_cases (cfg : ModeConfig) (s before : AppState)
  (i : nat) (v : Entry.t) (resp : Response.t) (t : jsstring) :
  modes MODE_SEO = Some cfg ->
  isText cfg = true ->
  NoDup (map Entry.id (videoFiles s)) ->
  nth_error (targets s) i = Some v ->
  isActiveId (Entry.id v) s = true ->
  Entry.id v <> [] ->
  generateContent i (basePrompt cfg s) None (Entry.geminiFile v)
  = Fulfilled resp ->
  Response.text resp = Some t ->
  t <> [] ->
  textResponse before = None ->
  let parsed := parseSeoResponse toUpperCase toLowerCase (Some t) in
  exists s',
    runMode MODE_SEO s = Completed s'
    /\ let shown := rendersAfter toUpperCase toLowerCase before s' in
       (isEmpty (title parsed) && isEmpty (keywords parsed) = false ->
        seoData shown = parsed
        /\ textResponse shown = Some t
        /\ timecodeList shown = None
        /\ activeMode shown = Some MODE_SEO)
       /\ (isEmpty (title parsed) && isEmpty (keywords parsed) = true ->
           seoData shown = emptySeoData
           /\ textResponse shown = None
           /\ timecodeList shown = Entry.timecodeList v
           /\ activeMode shown
              = match Entry.timecodeList v with
                | Some _ => Some (lit "Аудио/Видео субтитры")
                | None => None
                end).
Proof.
  intros Hm Hs Hnd Hi Ha Hid Hg Ht Hne Hb parsed.
  assert (Hown : task cfg s i v = Succeeded (Entry.id v) resp).
  { unfold runTask. rewrite Hs, Hg. reflexivity. }
  assert (Hin : In v (videoFiles s)).
  { apply targets_In. eapply nth_error_In. exact Hi. }
  destruct t as [|c t]; [congruence|].
  unfold onModeSelect. rewrite Hm.
  destruct (targets s) as [|t0 ts] eqn:Et; [destruct i; discriminate|].
  rewrite <- Et in *. eexists. split; [reflexivity|].
  unfold isActiveId in Ha.
  destruct (activeVideoId s) as [a|] eqn:Eact; [|discriminate].
  apply jsstring_eqb_eq in Ha. subst a.
  unfold showActiveResult.
  rewrite (find_own_result generateContent cfg s i v Hnd Hi), Hown, Hs, Ht.
  match goal with
  | |- context [rendersAfter _ _ before ?after] =>
      pose proof (rendersAfter_text before after
                    (Entry.withSeo (Some (c :: t)) parsed v) c t
                    Hb eq_refl eq_refl eq_refl) as Hcases
  end.
  destruct Hcases as [Hshow Hclear]; try reflexivity.
  - apply activeVideo_found with (a := Entry.id v); [exact Hid | exact Eact|].
    cbn [videoFiles setApplyToAll setAdditionalText setIsLoading
         setTextResponse setVideoFiles setSeoData setCorrectionText
         setTimecodeList setActiveMode].
    rewrite (find_map_sameId _ _ _
               (fun x => proj1 (cacheResult_sameVideo toUpperCase toLowerCase
                                  _ _ x))).
    rewrite (find_own_record _ v Hnd Hin). simpl. f_equal.
    unfold cacheResult.
    rewrite (find_own_result generateContent cfg s i v Hnd Hi), Hown, Ht.
    reflexivity.
  - split; [|exact Hclear].
    intros Eg. destruct (Hshow Eg) as [H1 [H2 [H3 H4]]].
    split; [exact H1|]. split; [exact H2|]. split; [exact H3 | exact H4].
Qed.

(** X24: what is displayed after a run of the SEO mode.  With distinct ids,
    when the call for the active video (whose id is not empty) is fulfilled
    with a text that is not empty, the run completes, and after the renders
    that follow, in which the restore effect runs on the replaced record of
    the active video and the re-parse effect on the new text: when the
    parsed title or the parsed keywords are not empty, the displayed fields
    are the parsed ones, the displayed text is the response text, the mode
    is the SEO mode and no timecode list is displayed; when both are empty,
    also when the parsed localized title is not, the display shows what the
    restore effect shows for a video without cached fields: empty fields, no
    text, and the cached timecode list of the video with the subtitles mode,
    or none of both.  [before] is the state of the render before the results
    arrive, in which no text is displayed. *)
Theorem onModeSelect_displays_parsed (cfg : ModeConfig) (s before : AppState)
  (i : nat) (v : Entry.t) (resp : Response.t) (t : jsstring) :
  modes MODE_SEO = Some cfg ->
  isText cfg = true ->
  NoDup (map Entry.id (videoFiles s)) ->
  nth_error (targets s) i = Some v ->
  isActiveId (Entry.id v) s = true ->
  Entry.id v <> [] ->
  generateContent i (basePrompt cfg s) None (Entry.geminiFile v)
  = Fulfilled resp ->
  Response.text resp = Some t ->
  t <> [] ->
  textResponse before = None ->
  let parsed := parseSeoResponse toUpperCase toLowerCase (Some t) in
  let nothing := isEmpty (title parsed) && isEmpty (keywords parsed) in
  exists s',
    runMode MODE_SEO s = Completed s'
    /\ let shown := rendersAfter toUpperCase toLowerCase before s' in
       seoData shown = (if nothing then emptySeoData else parsed)
       /\ textResponse shown = (if nothing then None else Some t)
       /\ timecodeList shown
          = (if nothing then Entry.timecodeList v else None)
       /\ activeMode shown
          = (if nothing
             then match Entry.timecodeList v with
                  | Some _ => Some (lit "Аудио/Видео субтитры")
                  | None => None
                  end
             else Some MODE_SEO).
Proof.
  intros Hm Hs Hnd Hi Ha Hid Hg Ht Hne Hb parsed nothing.
  destruct (onModeSelect_display_cases cfg s before i v resp t
              Hm Hs Hnd Hi Ha Hid Hg Ht Hne Hb) as [s' [Hrun [Hshow Hclear]]].
  exists s'. split; [exact Hrun|]. cbv zeta.
  unfold nothing, parsed.
  destruct (isEmpty _ && isEmpty _).
  - destruct (Hclear eq_refl) as [H1 [H2 [H3 H4]]].
    split; [exact H1|]. split; [exact H2|]. split; [exact H3 | exact H4].
  - destruct (Hshow eq_refl) as [H1 [H2 [H3 H4]]].
    split; [exact H1|]. split; [exact H2|]. split; [exact H3 | exact H4].
Qed.

End DisplayFacts.

(** ** The upload that never settles *)

(** One event of the program, answered by the store, with the silent step
    that its interpretation takes. *)
Ltac skip_event :=
  rewrite ?bind_bind;
  rewrite interp_state_bind, interp_state_trigger_eqit; cbn;
  rewrite ?bind_bind, bind_ret_l, bind_tau, bind_ret_l; cbn;
  rewrite tau_euttge.

Lemma spin_tau {E : Type -> Type} {R : Type} :
  @ITree.spin E R ≅ Tau ITree.spin.
Proof. rewrite (itree_eta ITree.spin) at 1. reflexivity. Qed.

Lemma poll_spins name (k : GeminiFile.t -> itree apiE (Promise GeminiFile.t)) :
  forall g s,
    isProcessing g = true ->
    (forall n, isProcessing (polls s (fetches s + n)) = true) ->
    interp_state handleApi (ITree.bind (ITree.iter (pollStep name) g) k) s
    ≈ ITree.spin.
Proof.
  einit. ecofix CIH. intros g s Hg Hall.
  rewrite unfold_iter. unfold pollStep at 1. rewrite Hg.
  rewrite !bind_bind.
  do 4 skip_event.
  rewrite bind_ret_l, bind_tau, interp_state_tau.
  rewrite spin_tau.
  etau. ebase. right. apply CIHL.
  - specialize (Hall 0). rewrite Nat.add_0_r in Hall. exact Hall.
  - intros n. simpl. specialize (Hall (S n)).
    replace (S (fetches s + n)) with (fetches s + S n) by lia. exact Hall.
Qed.

(** X17: the poll loop has no bound.  When every status answer reports the
    file as processing, [uploadFile] never returns and never fails: its run
    against the store is the computation that goes on for ever, and it is
    not a run that ends with a result, fulfilled or rejected. *)
Theorem uploadFile_never_settles (file : File) (s : Remote) :
  (forall n, isProcessing (polls s (fetches s + n)) = true) ->
  runUpload file s ≈ ITree.spin
  /\ forall r, ~ runUpload file s ≈ Ret r.
Proof.
  intros Hall.
  assert (Hspin : runUpload file s ≈ ITree.spin).
  { unfold runUpload, uploadFile.
    do 5 run_event.
    apply poll_spins.
    - specialize (Hall 0). rewrite Nat.add_0_r in Hall. exact Hall.
    - intros n. simpl. specialize (Hall (S n)).
      replace (S (fetches s + n)) with (fetches s + S n) by lia. exact Hall. }
  split; [exact Hspin|].
  intros r Hr. rewrite Hspin in Hr. exact (eutt_spin_Ret_abs r Hr).
Qed.

(** ** More about the parser *)

Lemma tidy_removeAsterisks s : tidy s -> removeAsterisks s = s.
Proof.
  intros [Hno _]. unfold removeAsterisks.
  induction s as [|c s IH]; simpl; [reflexivity|].
  destruct (N.eqb_spec c asterisk) as [->|Hc].
  - exfalso. apply Hno. left. reflexivity.
  - simpl. f_equal. apply IH. intros H. apply Hno. right. exact H.
Qed.

Lemma tidy_trim s : tidy s -> trim s = s.
Proof.
  intros [_ [Hhead Hlast]].
  assert (Hs : trimStart s = s).
  { destruct s as [|c s]; [reflexivity|]. simpl.
    rewrite (Hhead c s eq_refl). reflexivity. }
  unfold trim, trimEnd. rewrite Hs.
  destruct (rev s) as [|c r] eqn:Er.
  - simpl. rewrite <- (rev_involutive s), Er. reflexivity.
  - simpl. rewrite (Hlast c (rev r)).
    + rewrite <- Er. apply rev_involutive.
    + rewrite <- (rev_involutive s), Er. reflexivity.
Qed.

(** X18: cleaning is idempotent: cleaning a cleaned string changes nothing,
    so the fields that the parser returns are fixed points of [clean]. *)
Theorem clean_idempotent (str : option jsstring) :
  clean (Some (clean str)) = clean str.
Proof.
  pose proof (clean_tidy str) as Ht. unfold clean at 1.
  rewrite (tidy_removeAsterisks _ Ht). apply tidy_trim. exact Ht.
Qed.

Section ParserMore.

Variable toUpperCase : jsstring -> jsstring.
Variable toLowerCase : jsstring -> jsstring.

Local Abbreviation run := (run toUpperCase).
Local Abbreviation exec := (exec toUpperCase).
Local Abbreviation sameChar := (sameChar toUpperCase).
Local Abbreviation sameText := (sameText toUpperCase).
Local Abbreviation HeaderBeforeColon := (HeaderBeforeColon toUpperCase).

(** *** Captures come from the text *)

Lemma In_firstn_incl (A : Type) n : forall (l : list A) a,
  In a (firstn n l) -> In a l.
Proof.
  induction n as [|n IH]; intros [|b l] a H; simpl in H; try destruct H.
  - left. assumption.
  - right. apply IH. assumption.
Qed.

Lemma iterate_within text g (m : MatchState -> list MatchState) :
  (forall x y, Within text x -> In y (m x) -> Within text y) ->
  forall n x y, Within text x -> In y (iterate g m n x) -> Within text y.
Proof.
  intros Hm. induction n as [|n IH]; intros x y Hx Hy.
  - destruct Hy as [<-|[]]. exact Hx.
  - assert (Hcases :
      y = x \/
      In y (flat_map
              (fun z => if Nat.ltb (length (rest z)) (length (rest x))
                        then iterate g m n z else []) (m x))).
    { simpl in Hy. destruct g.
      - apply in_app_or in Hy. destruct Hy as [H|[H|[]]]; auto.
      - destruct Hy as [H|H]; auto. }
    destruct Hcases as [->|Hin]; [exact Hx|].
    apply in_flat_map in Hin. destruct Hin as [z [Hz Hy']].
    destruct (Nat.ltb _ _); [|destruct Hy'].
    eapply IH; [|exact Hy']. eapply Hm; eassumption.
Qed.

Lemma run_within text r : forall x y,
  Within text x -> In y (run r x) -> Within text y.
Proof.
  induction r as [|p| | |r1 IH1 r2 IH2|r1 IH1 r2 IH2|g r1 IH1|k r1 IH1|r1 IH1|];
    intros x y Hx Hy; simpl in Hy.
  - destruct Hy as [<-|[]]. exact Hx.
  - destruct (rest x) as [|c s'] eqn:E; [destruct Hy|].
    destruct (sameChar p c); [|destruct Hy]. destruct Hy as [<-|[]].
    destruct Hx as [Hr Hc]. split; [|exact Hc]. simpl.
    rewrite E in Hr. intros a Ha. apply Hr. right. exact Ha.
  - destruct (rest x) as [|c s'] eqn:E; [destruct Hy|].
    destruct (isWhiteSpace c); [|destruct Hy]. destruct Hy as [<-|[]].
    destruct Hx as [Hr Hc]. split; [|exact Hc]. simpl.
    rewrite E in Hr. intros a Ha. apply Hr. right. exact Ha.
  - destruct (rest x) as [|c s'] eqn:E; [destruct Hy|].
    destruct Hy as [<-|[]].
    destruct Hx as [Hr Hc]. split; [|exact Hc]. simpl.
    rewrite E in Hr. intros a Ha. apply Hr. right. exact Ha.
  - apply in_flat_map in Hy. destruct Hy as [z [Hz Hy]].
    eapply IH2; [|exact Hy]. eapply IH1; eassumption.
  - apply in_app_or in Hy. destruct Hy as [Hy|Hy]; eauto.
  - eapply iterate_within; [exact IH1 | exact Hx | exact Hy].
  - apply in_map_iff in Hy. destruct Hy as [z [<- Hz]].
    destruct (IH1 _ _ Hx Hz) as [Hr Hc]. split; [exact Hr|]. simpl.
    intros j w. unfold setCapture. destruct (Nat.eqb j k).
    + intros E. injection E as <-. intros a Ha.
      apply (proj1 Hx). eapply In_firstn_incl. exact Ha.
    + apply Hc.
  - destruct (run r1 x) as [|z l] eqn:E; [destruct Hy|].
    destruct Hy as [<-|[]].
    destruct (IH1 x z Hx) as [_ Hc]; [rewrite E; left; reflexivity|].
    split; [exact (proj1 Hx) | exact Hc].
  - destruct (rest x); [|destruct Hy]. destruct Hy as [<-|[]]. exact Hx.
Qed.

Lemma exec_within r : forall s m,
  exec r s = Some m -> forall k w, captures m k = Some w -> incl w s.
Proof.
  induction s as [|c s IH]; intros m H k w Hw; simpl in H.
  - destruct (run r (mkMatchState [] (fun _ => None))) as [|z l] eqn:E;
      [discriminate|]. injection H as <-.
    assert (Hz : Within [] z).
    { apply (run_within [] r (mkMatchState [] (fun _ => None)));
        [split; [apply incl_refl | discriminate] | rewrite E; left; reflexivity]. }
    exact (proj2 Hz k w Hw).
  - destruct (run r (mkMatchState (c :: s) (fun _ => None))) as [|z l] eqn:E.
    + intros a Ha. right. exact (IH m H k w Hw a Ha).
    + injection H as <-.
      assert (Hz : Within (c :: s) z).
      { apply (run_within (c :: s) r (mkMatchState (c :: s) (fun _ => None)));
          [split; [apply incl_refl | discriminate]
          | rewrite E; left; reflexivity]. }
      exact (proj2 Hz k w Hw).
Qed.

Lemma clean_incl (w text : jsstring) :
  incl w text -> incl (clean (Some w)) text.
Proof.
  intros H a Ha. apply H. unfold clean in Ha. apply In_trim in Ha.
  unfold removeAsterisks in Ha. apply filter_In in Ha. tauto.
Qed.

Lemma getSectionContent_incl text cur :
  incl (getSectionContent toUpperCase toLowerCase text cur) text.
Proof.
  unfold getSectionContent.
  match goal with |- incl (match ?e with _ => _ end) _ =>
    destruct e as [m|] eqn:E end; [|intros a []].
  destruct (captures m 1) as [w|] eqn:Ew; [|intros a []].
  apply clean_incl. exact (exec_within _ _ _ E 1 w Ew).
Qed.

(** X19: the parser invents nothing: every code unit of the title, of the
    localized title and of the keywords that it returns occurs in the
    text. *)
Theorem parse_fields_from_text (text : jsstring) (c : codeUnit) :
  In c (title (parseSeoResponse toUpperCase toLowerCase (Some text)))
  \/ In c (russianTitle (parseSeoResponse toUpperCase toLowerCase (Some text)))
  \/ In c (keywords (parseSeoResponse toUpperCase toLowerCase (Some text))) ->
  In c text.
Proof.
  destruct text as [|c0 t]; [simpl; tauto|].
  unfold parseSeoResponse. cbv zeta. cbn [title russianTitle keywords].
  intros [H|[H|H]]; try (eapply getSectionContent_incl; exact H).
  destruct (_ && _); [|eapply getSectionContent_incl; exact H].
  destruct (negb _); [|eapply getSectionContent_incl; exact H].
  eapply clean_incl; [apply incl_refl | exact H].
Qed.

(** *** The header test is exact *)

Lemma iterate_self g (m : MatchState -> list MatchState) n x :
  In x (iterate g m n x).
Proof.
  destruct n as [|n]; simpl; [left; reflexivity|].
  destruct g; [apply in_or_app; right; left | left]; reflexivity.
Qed.

(** A starred atom can consume any run of code units that the atom
    accepts. *)
Lemma iterate_consumes g (m : MatchState -> list MatchState)
  (p : codeUnit -> bool) :
  (forall c t caps, p c = true ->
     m (mkMatchState (c :: t) caps) = [mkMatchState t caps]) ->
  forall a t caps,
    Forall (fun c => p c = true) a ->
    In (mkMatchState t caps)
       (iterate g m (length (a ++ t)) (mkMatchState (a ++ t) caps)).
Proof.
  intros Hm. induction a as [|c a IH]; intros t caps Ha.
  - apply iterate_self.
  - inversion Ha as [|? ? Hc Ha']; subst.
    assert (Hmore :
      In (mkMatchState t caps)
        (flat_map
           (fun z =>
              if Nat.ltb (length (rest z))
                   (length (rest (mkMatchState ((c :: a) ++ t) caps)))
              then iterate g m (length (a ++ t)) z else [])
           (m (mkMatchState ((c :: a) ++ t) caps)))).
    { simpl app. rewrite (Hm c (a ++ t) caps Hc). simpl.
      replace (Nat.ltb (length (a ++ t)) (S (length (a ++ t)))) with true
        by (symmetry; apply Nat.ltb_lt; lia).
      rewrite app_nil_r. apply IH. exact Ha'. }
    simpl length. simpl iterate. destruct g.
    + apply in_or_app. left. exact Hmore.
    + right. exact Hmore.
Qed.

Lemma run_seq r1 r2 x z y :
  In z (run r1 x) -> In y (run r2 z) -> In y (run (r1 >> r2) x).
Proof.
  intros Hz Hy. simpl. apply in_flat_map. exists z. auto.
Qed.

Lemma run_word h : forall w t caps,
  sameText h w ->
  In (mkMatchState t caps) (run (word h) (mkMatchState (w ++ t) caps)).
Proof.
  induction h as [|p h IH]; intros w t caps H; inversion H; subst.
  - left. reflexivity.
  - simpl word. eapply run_seq; [|apply IH; eassumption].
    simpl. match goal with Hc : sameChar p _ = true |- _ => rewrite Hc end.
    left. reflexivity.
Qed.

Lemma run_stars a t caps :
  Forall (fun c => sameChar asterisk c = true) a ->
  In (mkMatchState t caps) (run stars (mkMatchState (a ++ t) caps)).
Proof.
  intros Ha. unfold stars. simpl run.
  apply (iterate_consumes true _ (sameChar asterisk)); [|exact Ha].
  intros c u caps0 Hc. simpl. rewrite Hc. reflexivity.
Qed.

Lemma run_spaces b t caps :
  Forall (fun c => isWhiteSpace c = true) b ->
  In (mkMatchState t caps) (run spaces (mkMatchState (b ++ t) caps)).
Proof.
  intros Hb. unfold spaces. simpl run.
  apply (iterate_consumes true _ isWhiteSpace); [|exact Hb].
  intros c u caps0 Hc. simpl. rewrite Hc. reflexivity.
Qed.

Lemma exec_finds r : forall pre s,
  run r (mkMatchState s (fun _ => None)) <> [] ->
  exec r (pre ++ s) <> None.
Proof.
  induction pre as [|c pre IH]; intros s Hs.
  - destruct s as [|c s]; simpl app; unfold exec; fold exec;
      (destruct (run r _) as [|z l] eqn:E; [contradiction|]);
      discriminate.
  - simpl app. unfold exec; fold exec.
    destruct (run r (mkMatchState (c :: pre ++ s) _)) as [|z l];
      [|discriminate].
    apply IH. exact Hs.
Qed.

Lemma headerRegex_finds h text :
  HeaderBeforeColon h text -> test toUpperCase (headerRegex h) text = true.
Proof.
  intros [pre [w [a [b [c [post [E [Hw [Ha [Hb Hc]]]]]]]]]].
  unfold test.
  destruct (exec (headerRegex h) text) as [m|] eqn:Ex; [reflexivity|].
  exfalso. revert Ex. rewrite E. apply exec_finds.
  set (caps := fun _ : nat => @None jsstring).
  assert (Hin : In (mkMatchState post caps)
                  (run (headerRegex h)
                     (mkMatchState (w ++ a ++ b ++ c :: post) caps))).
  { unfold headerRegex.
    eapply run_seq; [apply (run_stars [] _ caps); constructor|].
    eapply run_seq; [apply (run_spaces [] _ caps); constructor|].
    eapply run_seq; [apply run_word; exact Hw|].
    eapply run_seq; [apply run_stars; exact Ha|].
    eapply run_seq; [apply run_spaces; exact Hb|].
    simpl. rewrite Hc. left. reflexivity. }
  intros En. rewrite En in Hin. destruct Hin.
Qed.

(** X20: the test that guards the fallback is exact: the pattern built
    from a header matches somewhere in the text if and only if the header
    occurs in the text, in any letter case, followed by optional asterisks,
    optional white space and a colon. *)
Theorem headerRegex_test_exact (h text : jsstring) :
  test toUpperCase (headerRegex h) text = true <-> HeaderBeforeColon h text.
Proof.
  split; [apply headerRegex_occurs | apply headerRegex_finds].
Qed.

Lemma keywords_of_section (text h : jsstring) :
  In h allHeaders ->
  HeaderBeforeColon h text ->
  keywords (parseSeoResponse toUpperCase toLowerCase (Some text))
  = getSectionContent toUpperCase toLowerCase text
      [lit "Ключевые слова"; lit "Keywords"].
Proof.
  intros Hin Ho.
  destruct text as [|c t].
  - destruct Ho as [pre [w [a [b [c [post [E _]]]]]]].
    exfalso. destruct pre; [destruct w; [destruct a; [destruct b|]|]|];
      discriminate.
  - unfold parseSeoResponse. cbv zeta. cbn [keywords].
    destruct (_ && _); [|reflexivity].
    replace (existsb (fun h0 => test toUpperCase (headerRegex h0) (c :: t))
               allHeaders) with true; [reflexivity|].
    symmetry. apply existsb_exists. exists h. split; [exact Hin|].
    apply headerRegex_finds. exact Ho.
Qed.

(** X21: a recognized header switches the fallback off.  When one of the
    six headers occurs before a colon, the keywords are what the keywords
    section yields, possibly nothing, and never the whole text as a
    whole. *)
Theorem parse_header_no_fallback (text h : jsstring) :
  In h allHeaders ->
  HeaderBeforeColon h text ->
  keywords (parseSeoResponse toUpperCase toLowerCase (Some text))
  = getSectionContent toUpperCase toLowerCase text
      [lit "Ключевые слова"; lit "Keywords"].
Proof.
  intros Hin Ho.
  assert (Htest : existsb (fun h0 => test toUpperCase (headerRegex h0) text)
                    allHeaders = true).
  { apply existsb_exists. exists h. split; [exact Hin|].
    apply headerRegex_finds. exact Ho. }
  destruct text as [|c t].
  - destruct Ho as [pre [w [a [b [c [post [E _]]]]]]].
    exfalso. destruct pre; [destruct w; [destruct a; [destruct b|]|]|];
      discriminate.
  - unfold parseSeoResponse. cbv zeta. cbn [keywords].
    rewrite Htest. destruct (_ && _); reflexivity.
Qed.

End ParserMore.

(** ** The parser on the format that the correction prompt asks for *)

Local Abbreviation runT := (run toUpperCaseTab).
Local Abbreviation sameCharT := (sameChar toUpperCaseTab).
Local Abbreviation sameTextT := (sameText toUpperCaseTab).
Local Abbreviation noCaptures := (fun _ : nat => @None jsstring).

(** *** The tabulated case conversion below the letters *)

Ltac bool_hyps :=
  repeat match goal with
  | H : (_ && _)%bool = true |- _ => apply andb_true_iff in H; destruct H
  | H : (_ && _)%bool = false |- _ => apply andb_false_iff in H; destruct H
  | H : negb _ = true |- _ => apply negb_true_iff in H
  | H : negb _ = false |- _ => apply negb_false_iff in H
  | H : (_ <=? _)%N = true |- _ => apply N.leb_le in H
  | H : (_ <=? _)%N = false |- _ => apply N.leb_gt in H
  | H : (_ <? _)%N = true |- _ => apply N.ltb_lt in H
  | H : (_ <? _)%N = false |- _ => apply N.ltb_ge in H
  | H : (_ =? _)%N = true |- _ => apply N.eqb_eq in H
  | H : (_ =? _)%N = false |- _ => apply N.eqb_neq in H
  end.

Ltac split_ifs :=
  repeat match goal with
  | |- context [if ?b then _ else _] => destruct b eqn:?
  end.

Lemma Canonicalize_low (p : codeUnit) :
  (p < 65)%N -> Canonicalize toUpperCaseTab p = p.
Proof.
  intros Hp. unfold Canonicalize, toUpperCaseTab. cbn [flat_map].
  rewrite app_nil_r. unfold upperUnit. split_ifs; bool_hyps; lia.
Qed.

Lemma Canonicalize_low_inv (c p : codeUnit) :
  (p < 65)%N -> Canonicalize toUpperCaseTab c = p -> c = p.
Proof.
  intros Hp. unfold Canonicalize, toUpperCaseTab. cbn [flat_map].
  rewrite app_nil_r. unfold upperUnit. split_ifs; bool_hyps; lia.
Qed.

Lemma sameChar_low (p c : codeUnit) :
  (p < 65)%N -> sameCharT p c = true -> c = p.
Proof.
  intros Hp H. unfold sameChar in H. apply N.eqb_eq in H.
  rewrite (Canonicalize_low p Hp) in H.
  exact (Canonicalize_low_inv c p Hp H).
Qed.

Lemma sameChar_low_pattern (p c : codeUnit) :
  (c < 65)%N -> sameCharT p c = true -> p = c.
Proof.
  intros Hc H. unfold sameChar in H. apply N.eqb_eq in H.
  rewrite (Canonicalize_low c Hc) in H. symmetry in H.
  exact (Canonicalize_low_inv p c Hc H).
Qed.

Lemma sameChar_low_neq (p c : codeUnit) :
  (p < 65)%N -> c <> p -> sameCharT p c = false.
Proof.
  intros Hp Hc. destruct (sameCharT p c) eqn:E; [|reflexivity].
  elim Hc. exact (sameChar_low p c Hp E).
Qed.

Lemma whiteSpace_not_asterisk (c : codeUnit) :
  isWhiteSpace c = true -> sameCharT asterisk c = false.
Proof.
  intros H. destruct (sameCharT asterisk c) eqn:E; [|reflexivity].
  apply sameChar_low in E; [|reflexivity]. subst c. discriminate.
Qed.

(** *** The first result of a matcher *)

Lemma hd_error_app (A : Type) (l l' : list A) y :
  hd_error l = Some y -> hd_error (l ++ l') = Some y.
Proof. destruct l; [discriminate | exact (fun H => H)]. Qed.

Lemma flat_map_map (A B C : Type) (f : A -> B) (g : B -> list C) l :
  flat_map g (map f l) = flat_map (fun z => g (f z)) l.
Proof.
  induction l as [|a l IH]; simpl; [reflexivity|]. rewrite IH. reflexivity.
Qed.

Lemma hd_seq r1 r2 x z y :
  hd_error (runT r1 x) = Some z ->
  hd_error (runT r2 z) = Some y ->
  hd_error (runT (r1 >> r2) x) = Some y.
Proof.
  intros H1 H2. simpl. destruct (runT r1 x) as [|z' l]; [discriminate|].
  injection H1 as ->. simpl. apply hd_error_app. exact H2.
Qed.

Lemma iterate_stuck g (m : MatchState -> list MatchState) n x :
  m x = [] -> iterate g m n x = [x].
Proof.
  intros H. destruct n as [|n]; simpl; [reflexivity|].
  rewrite H. destruct g; reflexivity.
Qed.

(** A greedy starred atom consumes, first of all, every code unit that it
    can. *)
Lemma iterate_greedy_head (m : MatchState -> list MatchState)
  (p : codeUnit -> bool) :
  (forall c t caps,
     m (mkMatchState (c :: t) caps)
     = if p c then [mkMatchState t caps] else []) ->
  (forall caps, m (mkMatchState [] caps) = []) ->
  forall a t caps n,
    Forall (fun c => p c = true) a ->
    match t with [] => True | c :: _ => p c = false end ->
    length (a ++ t) <= n ->
    hd_error (iterate true m n (mkMatchState (a ++ t) caps))
    = Some (mkMatchState t caps).
Proof.
  intros Hm Hnil. induction a as [|c a IH]; intros t caps n Ha Ht Hn.
  - rewrite iterate_stuck; [reflexivity|].
    destruct t as [|c t]; [apply Hnil|]. simpl app. rewrite Hm, Ht.
    reflexivity.
  - inversion Ha as [|? ? Hc Ha']; subst.
    destruct n as [|n]; [simpl in Hn; lia|].
    simpl app. cbn [iterate]. rewrite Hm, Hc. cbn [flat_map rest].
    replace (Nat.ltb (length (a ++ t)) (length (c :: a ++ t))) with true
      by (symmetry; apply Nat.ltb_lt; simpl; lia).
    rewrite app_nil_r. apply hd_error_app. apply IH; try assumption.
    simpl in Hn. lia.
Qed.

Lemma hd_stars a t caps :
  Forall (fun c => sameCharT asterisk c = true) a ->
  match t with [] => True | c :: _ => sameCharT asterisk c = false end ->
  hd_error (runT stars (mkMatchState (a ++ t) caps))
  = Some (mkMatchState t caps).
Proof.
  intros Ha Ht. unfold stars. cbn [run rest].
  apply (iterate_greedy_head _ (sameCharT asterisk)); auto.
Qed.

Lemma hd_spaces b t caps :
  Forall (fun c => isWhiteSpace c = true) b ->
  match t with [] => True | c :: _ => isWhiteSpace c = false end ->
  hd_error (runT spaces (mkMatchState (b ++ t) caps))
  = Some (mkMatchState t caps).
Proof.
  intros Hb Ht. unfold spaces. cbn [run rest].
  apply (iterate_greedy_head _ isWhiteSpace); auto.
Qed.

Lemma trimStart_split s :
  exists b, s = b ++ trimStart s /\ Forall (fun c => isWhiteSpace c = true) b.
Proof.
  induction s as [|c s [b [E Hb]]]; [exists []; split; [reflexivity|constructor]|].
  simpl. destruct (isWhiteSpace c) eqn:Hc.
  - exists (c :: b). split; [simpl; f_equal; exact E | constructor; assumption].
  - exists []. split; [reflexivity | constructor].
Qed.

Lemma trimStart_stops s :
  match trimStart s with [] => True | c :: _ => isWhiteSpace c = false end.
Proof.
  induction s as [|c s IH]; simpl; [exact I|].
  destruct (isWhiteSpace c) eqn:Hc; [exact IH | exact Hc].
Qed.

Lemma hd_spaces_trim s caps :
  hd_error (runT spaces (mkMatchState s caps))
  = Some (mkMatchState (trimStart s) caps).
Proof.
  destruct (trimStart_split s) as [b [E Hb]].
  rewrite E at 1. apply hd_spaces; [exact Hb | apply trimStart_stops].
Qed.

(** The lazy [[\s\S]*?] before a lookahead that fails at every code unit
    but a line feed: the first result is at the first place where the
    lookahead holds. *)
Lemma lazy_scan (F : MatchState -> list MatchState) :
  (forall c u caps, c <> lineFeed -> F (mkMatchState (c :: u) caps) = []) ->
  forall G t caps n y,
    (forall c, In c G -> c <> lineFeed) ->
    hd_error (F (mkMatchState t caps)) = Some y ->
    length (G ++ t) <= n ->
    hd_error
      (flat_map F (iterate false (runT AnyChar) n (mkMatchState (G ++ t) caps)))
    = Some y.
Proof.
  intros HF. induction G as [|c G IH]; intros t caps n y HG Hy Hn.
  - simpl app. destruct n as [|n]; simpl; apply hd_error_app; exact Hy.
  - destruct n as [|n]; [simpl in Hn; lia|].
    simpl app. cbn [iterate run rest flat_map captures].
    replace (Nat.ltb (length (G ++ t)) (length (c :: G ++ t))) with true
      by (symmetry; apply Nat.ltb_lt; simpl; lia).
    rewrite app_nil_r. rewrite HF; [|apply HG; left; reflexivity].
    simpl app. apply IH; try assumption.
    + intros d Hd. apply HG. right. exact Hd.
    + simpl in Hn. lia.
Qed.

Lemma firstn_prefix (A : Type) (G t : list A) :
  firstn (length (G ++ t) - length t) (G ++ t) = G.
Proof.
  rewrite length_app, Nat.add_sub.
  induction G as [|c G IH]; simpl; [reflexivity | f_equal; exact IH].
Qed.

Lemma hd_capture L G t u caps :
  (forall c, In c G -> c <> lineFeed) ->
  (forall c v caps', c <> lineFeed ->
     runT L (mkMatchState (c :: v) caps') = []) ->
  (forall caps', hd_error (runT L (mkMatchState t caps'))
                 = Some (mkMatchState u caps')) ->
  hd_error (runT (Group 1 (Star false AnyChar) >> Lookahead L)
              (mkMatchState (G ++ t) caps))
  = Some (mkMatchState t (setCapture 1 G caps)).
Proof.
  intros HG Hfail Hpass.
  change (runT (Group 1 (Star false AnyChar) >> Lookahead L)
            (mkMatchState (G ++ t) caps))
    with (flat_map (runT (Lookahead L))
            (map (fun y =>
                    mkMatchState (rest y)
                      (setCapture 1
                         (firstn (length (G ++ t) - length (rest y)) (G ++ t))
                         (captures y)))
               (iterate false (runT AnyChar) (length (G ++ t))
                  (mkMatchState (G ++ t) caps)))).
  rewrite flat_map_map. apply lazy_scan.
  - intros c v caps' Hc. cbn [run rest captures]. rewrite Hfail; auto.
  - exact HG.
  - cbn [run rest captures]. rewrite firstn_prefix.
    specialize (Hpass (setCapture 1 G caps)).
    destruct (runT L _) as [|y l]; [discriminate|].
    injection Hpass as ->. reflexivity.
  - apply Nat.le_refl.
Qed.

Lemma lookahead_fails X c v caps :
  c <> lineFeed ->
  runT (Alt (Lit lineFeed >> X) EndOfInput) (mkMatchState (c :: v) caps) = [].
Proof.
  intros Hc. cbn [run rest]. rewrite sameChar_low_neq; [reflexivity| |exact Hc].
  reflexivity.
Qed.

Lemma lookahead_at_end X caps :
  hd_error (runT (Alt (Lit lineFeed >> X) EndOfInput) (mkMatchState [] caps))
  = Some (mkMatchState [] caps).
Proof. reflexivity. Qed.

(** The first result of a section pattern where a header stands, after
    asterisks and white space, before a colon: the content is captured from
    the first code unit that is no white space up to the first place where
    the lookahead holds. *)
Lemma hd_section cur look a b c0 H after G t u caps :
  Forall (fun c => sameCharT asterisk c = true) a ->
  Forall (fun c => isWhiteSpace c = true) b ->
  isWhiteSpace c0 = false ->
  sameCharT asterisk c0 = false ->
  (forall v caps',
     runT (disjunction cur) (mkMatchState (c0 :: H ++ v) caps')
     = [mkMatchState v caps']) ->
  trimStart after = G ++ t ->
  (forall c, In c G -> c <> lineFeed) ->
  (forall caps',
     hd_error
       (runT (Alt (Lit lineFeed >> spaces >> stars >> spaces
                     >> disjunction look >> stars >> spaces >> Lit colon)
                EndOfInput)
          (mkMatchState t caps'))
     = Some (mkMatchState u caps')) ->
  hd_error (runT (sectionRegex cur look)
              (mkMatchState (a ++ b ++ c0 :: H ++ colon :: after) caps))
  = Some (mkMatchState t (setCapture 1 G caps)).
Proof.
  intros Ha Hb Hw Hs Hcur Et HG Hlook. unfold sectionRegex.
  eapply hd_seq.
  { apply hd_stars; [exact Ha|].
    destruct b as [|d b]; [exact Hs|].
    apply whiteSpace_not_asterisk. inversion Hb; assumption. }
  eapply hd_seq. { apply hd_spaces; [exact Hb | exact Hw]. }
  eapply hd_seq. { rewrite Hcur. reflexivity. }
  eapply hd_seq. { apply (hd_stars []); [constructor | reflexivity]. }
  eapply hd_seq. { apply (hd_spaces []); [constructor | reflexivity]. }
  eapply hd_seq. { reflexivity. }
  eapply hd_seq. { cbn [rest captures]. apply hd_spaces_trim. }
  rewrite Et. eapply hd_capture; [exact HG | | exact Hlook].
  intros c v caps' Hc. apply lookahead_fails. exact Hc.
Qed.

(** *** Where a section pattern can match *)

Ltac seq_inv H w1 w2 M1 M2 :=
  inversion H as [| | | |? ? w1 w2 ? M1 M2| | | | | | |]; subst; clear H.

Lemma section_shape cur look s caps y :
  cur <> [] ->
  In y (runT (sectionRegex cur look) (mkMatchState s caps)) ->
  exists a0 b0 hw a b post h,
    s = ((a0 ++ b0) ++ hw ++ a ++ b) ++ colon :: post
    /\ Forall (fun c => sameCharT asterisk c = true) a0
    /\ Forall (fun c => isWhiteSpace c = true) b0
    /\ In h cur /\ sameTextT h hw
    /\ Forall (fun c => sameCharT asterisk c = true) a
    /\ Forall (fun c => isWhiteSpace c = true) b.
Proof.
  intros Hne Hy.
  destruct (run_sound toUpperCaseTab _ _ _ Hy) as [w [E M]].
  simpl in E. unfold sectionRegex in M.
  seq_inv M v1 u1 A1 B1. seq_inv B1 v2 u2 A2 B2. seq_inv B2 v3 u3 A3 B3.
  seq_inv B3 v4 u4 A4 B4. seq_inv B4 v5 u5 A5 B5. seq_inv B5 v6 u6 A6 B6.
  inversion A6 as [|? c ? Hc| | | | | | | | | |]; subst.
  apply sameChar_low in Hc; [|reflexivity]. subst c.
  destruct (Matches_disjunction toUpperCaseTab cur Hne _ _ A3) as [h [Hin Hh]].
  exists v1, v2, v3, v4, v5, (u6 ++ rest y), h. repeat split.
  - rewrite <- !app_assoc. reflexivity.
  - eapply Matches_stars; eassumption.
  - eapply Matches_spaces; eassumption.
  - exact Hin.
  - exact Hh.
  - eapply Matches_stars; eassumption.
  - eapply Matches_spaces; eassumption.
Qed.

Lemma asterisks_no_colon a :
  Forall (fun c => sameCharT asterisk c = true) a -> ~ In colon a.
Proof.
  intros Ha Hin. rewrite Forall_forall in Ha. specialize (Ha _ Hin).
  apply sameChar_low in Ha; [discriminate | reflexivity].
Qed.

Lemma spaces_no_colon b :
  Forall (fun c => isWhiteSpace c = true) b -> ~ In colon b.
Proof.
  intros Hb Hin. rewrite Forall_forall in Hb. specialize (Hb _ Hin).
  discriminate.
Qed.

Lemma sameText_no_colon h : forall hw,
  sameTextT h hw -> ~ In colon h -> ~ In colon hw.
Proof.
  induction h as [|p h IH]; intros hw H Hh Hin; inversion H; subst.
  - destruct Hin.
  - destruct Hin as [->|Hin].
    + apply Hh. left.
      match goal with Hc : sameCharT p colon = true |- _ =>
        apply sameChar_low_pattern in Hc; [exact Hc | reflexivity] end.
    + eapply IH; [eassumption | | exact Hin].
      intros Hp. apply Hh. right. exact Hp.
Qed.

Lemma sameText_length h : forall hw, sameTextT h hw -> length hw = length h.
Proof.
  intros hw H. symmetry. eapply Forall2_length. exact H.
Qed.

Lemma shape_no_colon a0 b0 hw a b h :
  Forall (fun c => sameCharT asterisk c = true) a0 ->
  Forall (fun c => isWhiteSpace c = true) b0 ->
  sameTextT h hw -> ~ In colon h ->
  Forall (fun c => sameCharT asterisk c = true) a ->
  Forall (fun c => isWhiteSpace c = true) b ->
  ~ In colon ((a0 ++ b0) ++ hw ++ a ++ b).
Proof.
  intros Ha0 Hb0 Hh Hc Ha Hb Hin.
  repeat (apply in_app_or in Hin; destruct Hin as [Hin|Hin]).
  - exact (asterisks_no_colon _ Ha0 Hin).
  - exact (spaces_no_colon _ Hb0 Hin).
  - exact (sameText_no_colon _ _ Hh Hc Hin).
  - exact (asterisks_no_colon _ Ha Hin).
  - exact (spaces_no_colon _ Hb Hin).
Qed.

(** Two colon-free beginnings that are followed by a colon are the same. *)
Lemma colon_split (c : codeUnit) S : forall X post R,
  ~ In c S -> ~ In c X ->
  X ++ c :: post = S ++ c :: R -> X = S /\ post = R.
Proof.
  induction S as [|s S IH]; intros [|x X] post R HS HX E; simpl in E.
  - injection E as ->. split; reflexivity.
  - injection E as -> _. elim HX. left. reflexivity.
  - injection E as <- _. elim HS. left. reflexivity.
  - injection E as -> E.
    destruct (IH X post R) as [-> ->]; try assumption.
    + intros H. apply HS. right. exact H.
    + intros H. apply HX. right. exact H.
    + split; reflexivity.
Qed.

(** An end of [S ++ c :: R] begins in [S] or in [R]. *)
Lemma suffix_split (c : codeUnit) S R : forall q v,
  q ++ v = S ++ c :: R ->
  (exists v1, v = v1 ++ c :: R /\ q ++ v1 = S)
  \/ (exists q', q = S ++ c :: q' /\ q' ++ v = R).
Proof.
  induction S as [|s S IH]; intros [|x q] v E; simpl in E.
  - left. exists []. split; [exact E | reflexivity].
  - injection E as -> E. right. exists q. split; [reflexivity | exact E].
  - left. exists (s :: S). split; [exact E | reflexivity].
  - injection E as -> E. destruct (IH q v E) as [[v1 [E1 E2]]|[q' [E1 E2]]].
    + left. exists v1. split; [exact E1 | simpl; f_equal; exact E2].
    + right. exists q'. split; [simpl; f_equal; exact E1 | exact E2].
Qed.

Lemma trailing_nil (p : codeUnit -> bool) l Y X x :
  Y ++ l = X ++ [x] -> Forall (fun c => p c = true) l -> p x = false ->
  l = [].
Proof.
  intros E Hl Hx. destruct l as [|d l] using rev_ind; [reflexivity|].
  exfalso. rewrite app_assoc in E. apply app_inj_tail in E.
  destruct E as [_ ->]. rewrite Forall_forall in Hl.
  rewrite Hl in Hx; [discriminate|]. apply in_or_app. right. left. reflexivity.
Qed.

(** A header cannot end where its last code unit differs from the last code
    unit before the colon. *)
Lemma no_end_last h p hw a b P X x :
  sameTextT (h ++ [p]) hw ->
  Forall (fun c => sameCharT asterisk c = true) a ->
  Forall (fun c => isWhiteSpace c = true) b ->
  P ++ hw ++ a ++ b = X ++ [x] ->
  isWhiteSpace x = false -> sameCharT asterisk x = false ->
  sameCharT p x = false ->
  False.
Proof.
  intros Hh Ha Hb E Hw Hs Hp.
  assert (b = []) as ->.
  { apply (trailing_nil isWhiteSpace b (P ++ hw ++ a) X x); auto.
    rewrite <- !app_assoc. exact E. }
  rewrite app_nil_r in E.
  assert (a = []) as ->.
  { apply (trailing_nil (sameCharT asterisk) a (P ++ hw) X x); auto.
    rewrite <- !app_assoc. exact E. }
  rewrite app_nil_r in E.
  apply Forall2_app_inv_l in Hh. destruct Hh as [w1 [w2 [H1 [H2 ->]]]].
  inversion H2 as [|? c ? ? Hc H3]; subst. inversion H3; subst.
  rewrite app_assoc in E. apply app_inj_tail in E. destruct E as [_ ->].
  rewrite Hc in Hp. discriminate.
Qed.

Lemma app_inj_length (A : Type) (l1 : list A) : forall l1' l2 l2',
  l1 ++ l2 = l1' ++ l2' -> length l2 = length l2' -> l1 = l1' /\ l2 = l2'.
Proof.
  induction l1 as [|x l1 IH]; intros [|y l1'] l2 l2' E Hl; simpl in E.
  - split; [reflexivity | exact E].
  - exfalso. rewrite E in Hl. simpl in Hl. rewrite length_app in Hl. lia.
  - exfalso. rewrite <- E in Hl. simpl in Hl. rewrite length_app in Hl. lia.
  - injection E as -> E. destruct (IH _ _ _ E Hl) as [-> ->].
    split; reflexivity.
Qed.

(** Where the header itself stands before the colon, the match begins with
    nothing but asterisks and white space before the header. *)
Lemma end_exact h hw a b P pre H x :
  sameTextT h hw -> length h = length (H ++ [x]) ->
  Forall (fun c => sameCharT asterisk c = true) a ->
  Forall (fun c => isWhiteSpace c = true) b ->
  isWhiteSpace x = false -> sameCharT asterisk x = false ->
  P ++ hw ++ a ++ b = pre ++ H ++ [x] ->
  P = pre.
Proof.
  intros Hh Hl Ha Hb Hw Hs E.
  assert (b = []) as ->.
  { apply (trailing_nil isWhiteSpace b (P ++ hw ++ a) (pre ++ H) x); auto.
    rewrite <- !app_assoc. exact E. }
  rewrite app_nil_r in E.
  assert (a = []) as ->.
  { apply (trailing_nil (sameCharT asterisk) a (P ++ hw) (pre ++ H) x); auto.
    rewrite <- !app_assoc. exact E. }
  rewrite app_nil_r in E.
  apply app_inj_length in E; [tauto|].
  rewrite (sameText_length _ _ Hh). exact Hl.
Qed.

Lemma no_end_short h hw a b P X :
  sameTextT h hw -> P ++ hw ++ a ++ b = X -> length X < length h -> False.
Proof.
  intros Hh <- Hl. rewrite !length_app, (sameText_length _ _ Hh) in Hl. lia.
Qed.

(** *** The first match in a text *)

Lemma exec_eq r s :
  exec toUpperCaseTab r s
  = match runT r (mkMatchState s noCaptures) with
    | m :: _ => Some m
    | [] =>
        match s with
        | [] => None
        | _ :: s' => exec toUpperCaseTab r s'
        end
    end.
Proof. destruct s; reflexivity. Qed.

Lemma exec_skip r (Q : MatchState -> Prop) R : forall pre,
  (forall q v y, pre = q ++ v ->
     hd_error (runT r (mkMatchState (v ++ R) noCaptures)) = Some y -> Q y) ->
  runT r (mkMatchState R noCaptures) <> [] ->
  exists m, exec toUpperCaseTab r (pre ++ R) = Some m /\ Q m.
Proof.
  induction pre as [|c pre IH]; intros Hall Hlast; rewrite exec_eq.
  - simpl app. destruct (runT r (mkMatchState R noCaptures)) as [|y l] eqn:E;
      [congruence|].
    exists y. split; [reflexivity|].
    apply (Hall [] [] y eq_refl). simpl app. rewrite E. reflexivity.
  - destruct (runT r (mkMatchState ((c :: pre) ++ R) noCaptures))
      as [|y l] eqn:E.
    + simpl app. apply IH; [|exact Hlast].
      intros q v y -> Hy. apply (Hall (c :: q) v y eq_refl Hy).
    + exists y. split; [reflexivity|].
      apply (Hall [] (c :: pre) y eq_refl). rewrite E. reflexivity.
Qed.

(** The content of a section whose header is the first place where the
    section pattern can match. *)
Lemma getSectionContent_at cur pre c0 H after G t u :
  (forall q v y, pre = q ++ v ->
     In y (runT (sectionRegex cur
                   (filter
                      (fun h =>
                         negb (existsb
                                 (fun ch => jsstring_eqb (toLowerCaseTab h)
                                              (toLowerCaseTab ch)) cur))
                      allHeaders))
             (mkMatchState (v ++ c0 :: H ++ colon :: after) noCaptures)) ->
     exists a b,
       v = a ++ b
       /\ Forall (fun c => sameCharT asterisk c = true) a
       /\ Forall (fun c => isWhiteSpace c = true) b) ->
  isWhiteSpace c0 = false ->
  sameCharT asterisk c0 = false ->
  (forall v caps',
     runT (disjunction cur) (mkMatchState (c0 :: H ++ v) caps')
     = [mkMatchState v caps']) ->
  trimStart after = G ++ t ->
  (forall c, In c G -> c <> lineFeed) ->
  (forall caps',
     hd_error
       (runT (Alt (Lit lineFeed >> spaces >> stars >> spaces
                     >> disjunction
                          (filter
                             (fun h =>
                                negb (existsb
                                        (fun ch =>
                                           jsstring_eqb (toLowerCaseTab h)
                                             (toLowerCaseTab ch)) cur))
                             allHeaders)
                     >> stars >> spaces >> Lit colon)
                EndOfInput)
          (mkMatchState t caps'))
     = Some (mkMatchState u caps')) ->
  getSectionContent toUpperCaseTab toLowerCaseTab
    (pre ++ c0 :: H ++ colon :: after) cur
  = clean (Some G).
Proof.
  intros Hzone Hw Hs Hcur Et HG Hlook. unfold getSectionContent.
  set (look := filter _ allHeaders) in *.
  assert (Hhead : forall a b,
            Forall (fun c => sameCharT asterisk c = true) a ->
            Forall (fun c => isWhiteSpace c = true) b ->
            hd_error (runT (sectionRegex cur look)
                        (mkMatchState ((a ++ b) ++ c0 :: H ++ colon :: after)
                           noCaptures))
            = Some (mkMatchState t (setCapture 1 G noCaptures))).
  { intros a b Ha Hb. rewrite <- app_assoc.
    eapply hd_section; eassumption. }
  destruct (exec_skip (sectionRegex cur look)
              (fun m => captures m 1 = Some G)
              (c0 :: H ++ colon :: after) pre) as [m [-> ->]];
    [| |reflexivity].
  - intros q v y E Hy.
    destruct (Hzone q v y E) as [a [b [-> [Ha Hb]]]].
    { destruct (runT _ _) as [|y' l]; [discriminate|].
      injection Hy as ->. left. reflexivity. }
    rewrite (Hhead a b Ha Hb) in Hy. injection Hy as <-. reflexivity.
  - intros En. specialize (Hhead [] [] (Forall_nil _) (Forall_nil _)).
    simpl app in Hhead. rewrite En in Hhead. discriminate.
Qed.

(** *** The three sections of the requested format *)

Local Abbreviation lookFor cur :=
  (filter
     (fun h =>
        negb (existsb
                (fun ch => jsstring_eqb (toLowerCaseTab h) (toLowerCaseTab ch))
                cur))
     allHeaders).

Ltac no_colon_in H :=
  vm_compute in H; repeat (destruct H as [H|H]; [discriminate|]); exact H.

Lemma title_positions after q v y :
  [] = q ++ v ->
  In y (runT (sectionRegex [lit "Заголовок"; lit "Title"]
                (lookFor [lit "Заголовок"; lit "Title"]))
          (mkMatchState (v ++ 84%N :: lit "itle" ++ colon :: after)
             noCaptures)) ->
  exists a b,
    v = a ++ b
    /\ Forall (fun c => sameCharT asterisk c = true) a
    /\ Forall (fun c => isWhiteSpace c = true) b.
Proof.
  intros E _. symmetry in E. apply app_eq_nil in E. destruct E as [_ ->].
  exists [], []. repeat split; constructor.
Qed.

Lemma russianTitle_positions A after q v y :
  ~ In colon A ->
  lit "Title" ++ colon :: A ++ [lineFeed] = q ++ v ->
  In y (runT (sectionRegex [lit "Russian Title"; lit "Русский заголовок"]
                (lookFor [lit "Russian Title"; lit "Русский заголовок"]))
          (mkMatchState (v ++ 82%N :: lit "ussian Title" ++ colon :: after)
             noCaptures)) ->
  exists a b,
    v = a ++ b
    /\ Forall (fun c => sameCharT asterisk c = true) a
    /\ Forall (fun c => isWhiteSpace c = true) b.
Proof.
  intros HA E Hy.
  apply section_shape in Hy; [|discriminate].
  destruct Hy
    as [a0 [b0 [hw [a [b [post [h [Es [Ha0 [Hb0 [Hin [Hh [Ha Hb]]]]]]]]]]]]].
  assert (Hh0 : ~ In colon h).
  { destruct Hin as [<-|[<-|[]]]; intros H; no_colon_in H. }
  pose proof (shape_no_colon _ _ _ _ _ _ Ha0 Hb0 Hh Hh0 Ha Hb) as HW.
  symmetry in E. apply suffix_split in E.
  destruct E as [[v1 [-> E]]|[q' [-> E]]].
  - exfalso. rewrite <- app_assoc in Es. cbn [app] in Es.
    symmetry in Es. apply colon_split in Es; [|
      intros H; assert (H' : In colon (lit "Title"))
        by (rewrite <- E; apply in_or_app; right; exact H); no_colon_in H'
      | exact HW].
    destruct Es as [Es _]. rewrite <- Es, app_assoc in E.
    eapply no_end_short; [exact Hh | exact E |].
    destruct Hin as [<-|[<-|[]]]; vm_compute; lia.
  - assert (Hv : ~ In colon (v ++ 82%N :: lit "ussian Title")).
    { intros H. apply in_app_or in H. destruct H as [H|H].
      - assert (H' : In colon (A ++ [lineFeed]))
          by (rewrite <- E; apply in_or_app; right; exact H).
        apply in_app_or in H'. destruct H' as [H'|[H'|[]]];
          [exact (HA H') | discriminate].
      - no_colon_in H. }
    change (v ++ 82%N :: lit "ussian Title" ++ colon :: after)
      with (v ++ (82%N :: lit "ussian Title") ++ colon :: after) in Es.
    rewrite app_assoc in Es. symmetry in Es.
    apply colon_split in Es; [|exact Hv | exact HW].
    destruct Es as [Es _].
    replace (82%N :: lit "ussian Title")
      with (lit "Russian Titl" ++ [101%N]) in Es by (vm_compute; reflexivity).
    destruct Hin as [<-|[<-|[]]].
    + exists a0, b0. repeat split; try assumption. symmetry.
      eapply end_exact; [exact Hh | | exact Ha | exact Hb | | | exact Es];
        vm_compute; reflexivity.
    + exfalso.
      replace (lit "Русский заголовок")
        with (lit "Русский заголово" ++ [1082%N]) in Hh
        by (vm_compute; reflexivity).
      rewrite (app_assoc v) in Es.
      eapply no_end_last; [exact Hh | exact Ha | exact Hb | exact Es | | |];
        vm_compute; reflexivity.
Qed.

Lemma keywords_positions A B after q v y :
  ~ In colon A -> ~ In colon B ->
  lit "Title" ++ colon :: A ++ lineFeed :: lit "Russian Title"
    ++ colon :: B ++ [lineFeed] = q ++ v ->
  In y (runT (sectionRegex [lit "Ключевые слова"; lit "Keywords"]
                (lookFor [lit "Ключевые слова"; lit "Keywords"]))
          (mkMatchState (v ++ 75%N :: lit "eywords" ++ colon :: after)
             noCaptures)) ->
  exists a b,
    v = a ++ b
    /\ Forall (fun c => sameCharT asterisk c = true) a
    /\ Forall (fun c => isWhiteSpace c = true) b.
Proof.
  intros HA HB E Hy.
  apply section_shape in Hy; [|discriminate].
  destruct Hy
    as [a0 [b0 [hw [a [b [post [h [Es [Ha0 [Hb0 [Hin [Hh [Ha Hb]]]]]]]]]]]]].
  assert (Hh0 : ~ In colon h).
  { destruct Hin as [<-|[<-|[]]]; intros H; no_colon_in H. }
  pose proof (shape_no_colon _ _ _ _ _ _ Ha0 Hb0 Hh Hh0 Ha Hb) as HW.
  symmetry in E. apply suffix_split in E.
  destruct E as [[v1 [-> E]]|[q' [-> E]]].
  - exfalso. rewrite <- app_assoc in Es. cbn [app] in Es.
    symmetry in Es. apply colon_split in Es; [|
      intros H; assert (H' : In colon (lit "Title"))
        by (rewrite <- E; apply in_or_app; right; exact H); no_colon_in H'
      | exact HW].
    destruct Es as [Es _]. rewrite <- Es, app_assoc in E.
    eapply no_end_short; [exact Hh | exact E |].
    destruct Hin as [<-|[<-|[]]]; vm_compute; lia.
  - assert (HS : ~ In colon (A ++ lineFeed :: lit "Russian Title")).
    { intros H. apply in_app_or in H. destruct H as [H|[H|H]];
        [exact (HA H) | discriminate | no_colon_in H]. }
    replace (A ++ lineFeed :: lit "Russian Title" ++ colon :: B ++ [lineFeed])
      with ((A ++ lineFeed :: lit "Russian Title") ++ colon :: B ++ [lineFeed])
      in E by (rewrite <- app_assoc; reflexivity).
    apply suffix_split in E.
    destruct E as [[v1 [-> E]]|[q'' [-> E]]].
    + exfalso. rewrite <- app_assoc in Es. cbn [app] in Es.
      symmetry in Es. apply colon_split in Es; [|
        intros H; apply HS; rewrite <- E; apply in_or_app; right; exact H
        | exact HW].
      destruct Es as [Es _]. rewrite <- Es, app_assoc in E.
      replace (A ++ lineFeed :: lit "Russian Title")
        with ((A ++ lineFeed :: lit "Russian Titl") ++ [101%N]) in E
        by (rewrite <- app_assoc; f_equal; vm_compute; reflexivity).
      destruct Hin as [<-|[<-|[]]].
      * replace (lit "Ключевые слова")
          with (lit "Ключевые слов" ++ [1072%N]) in Hh
          by (vm_compute; reflexivity).
        eapply no_end_last; [exact Hh | exact Ha | exact Hb | exact E | | |];
          vm_compute; reflexivity.
      * replace (lit "Keywords") with (lit "Keyword" ++ [115%N]) in Hh
          by (vm_compute; reflexivity).
        eapply no_end_last; [exact Hh | exact Ha | exact Hb | exact E | | |];
          vm_compute; reflexivity.
    + assert (Hv : ~ In colon (v ++ 75%N :: lit "eywords")).
      { intros H. apply in_app_or in H. destruct H as [H|H].
        - assert (H' : In colon (B ++ [lineFeed]))
            by (rewrite <- E; apply in_or_app; right; exact H).
          apply in_app_or in H'. destruct H' as [H'|[H'|[]]];
            [exact (HB H') | discriminate].
        - no_colon_in H. }
      change (v ++ 75%N :: lit "eywords" ++ colon :: after)
        with (v ++ (75%N :: lit "eywords") ++ colon :: after) in Es.
      rewrite app_assoc in Es. symmetry in Es.
      apply colon_split in Es; [|exact Hv | exact HW].
      destruct Es as [Es _].
      replace (75%N :: lit "eywords")
        with (lit "Keyword" ++ [115%N]) in Es by (vm_compute; reflexivity).
      destruct Hin as [<-|[<-|[]]].
      * exfalso.
        replace (lit "Ключевые слова")
          with (lit "Ключевые слов" ++ [1072%N]) in Hh
          by (vm_compute; reflexivity).
        rewrite (app_assoc v) in Es.
        eapply no_end_last; [exact Hh | exact Ha | exact Hb | exact Es | | |];
          vm_compute; reflexivity.
      * exists a0, b0. repeat split; try assumption. symmetry.
        eapply end_exact; [exact Hh | | exact Ha | exact Hb | | | exact Es];
          vm_compute; reflexivity.
Qed.

(** *** Trimming *)

Lemma trimStart_app A t :
  trimStart A <> [] -> trimStart (A ++ t) = trimStart A ++ t.
Proof.
  induction A as [|c A IH]; simpl; [congruence|].
  destruct (isWhiteSpace c); [exact IH | reflexivity].
Qed.

Lemma trimStart_blank b t :
  Forall (fun c => isWhiteSpace c = true) b ->
  trimStart (b ++ t) = trimStart t.
Proof.
  induction 1 as [|c b Hc Hb IH]; simpl; [reflexivity|].
  rewrite Hc. exact IH.
Qed.

Lemma trimStart_nil s :
  trimStart s = [] -> Forall (fun c => isWhiteSpace c = true) s.
Proof.
  induction s as [|c s IH]; simpl; [constructor|].
  destruct (isWhiteSpace c) eqn:Hc; [|discriminate].
  intros H. constructor; [exact Hc | exact (IH H)].
Qed.

Lemma trim_nonempty s : trim s <> [] -> trimStart s <> [].
Proof. intros H E. apply H. unfold trim. rewrite E. reflexivity. Qed.

Lemma trim_blank s :
  trim s = [] -> Forall (fun c => isWhiteSpace c = true) s.
Proof.
  unfold trim, trimEnd. intros H.
  apply (f_equal (@rev codeUnit)) in H. rewrite rev_involutive in H.
  simpl in H. apply trimStart_nil in H. apply Forall_rev in H.
  rewrite rev_involutive in H.
  destruct (trimStart s) as [|c r] eqn:E; [apply trimStart_nil; exact E|].
  exfalso. pose proof (trimStart_stops s) as Hs. rewrite E in Hs.
  inversion H; subst. congruence.
Qed.

Lemma In_trimStart c s : In c (trimStart s) -> In c s.
Proof.
  destruct (trimStart_split s) as [b [E _]]. intros H. rewrite E.
  apply in_or_app. right. exact H.
Qed.

Lemma clean_trimStart s : clean (Some (trimStart s)) = clean (Some s).
Proof.
  unfold clean. induction s as [|c s IH]; [reflexivity|]. simpl trimStart.
  destruct (isWhiteSpace c) eqn:Hc; [|reflexivity].
  rewrite IH. unfold removeAsterisks. simpl filter.
  destruct (N.eqb_spec c asterisk) as [->|Hne]; [discriminate|].
  simpl. unfold trim. simpl. rewrite Hc. reflexivity.
Qed.

(** *** The fields *)

Lemma sameText_refl h : sameTextT h h.
Proof.
  induction h as [|c h IH]; constructor; [|exact IH].
  unfold sameChar. apply N.eqb_refl.
Qed.

Lemma SeoData_eta d :
  d = mkSeoData (title d) (russianTitle d) (keywords d).
Proof. destruct d; reflexivity. Qed.

Lemma requested_title A rest :
  ~ In lineFeed A -> trim A <> [] ->
  title (parse (lit "Title:" ++ A ++ lineFeed :: lit "Russian Title:" ++ rest))
  = clean (Some A).
Proof.
  intros A_line A_text. unfold parse.
  replace (lit "Title:" ++ A ++ lineFeed :: lit "Russian Title:" ++ rest)
    with (84%N :: lit "itle" ++ colon
            :: A ++ lineFeed :: lit "Russian Title" ++ colon :: rest)
    by (vm_compute; reflexivity).
  cbn [app parseSeoResponse title].
  change (84%N :: lit "itle" ++ colon :: ?x)
    with ([] ++ 84%N :: lit "itle" ++ colon :: x).
  rewrite <- clean_trimStart.
  eapply getSectionContent_at.
  - intros q v y. apply title_positions.
  - reflexivity.
  - reflexivity.
  - intros v caps'. vm_compute. reflexivity.
  - apply trimStart_app. apply trim_nonempty. exact A_text.
  - intros c Hc ->. apply A_line. apply In_trimStart. exact Hc.
  - intros caps'. vm_compute. reflexivity.
Qed.

Lemma requested_russianTitle_at A after G t u :
  ~ In colon A ->
  trimStart after = G ++ t ->
  (forall c, In c G -> c <> lineFeed) ->
  (forall caps',
     hd_error
       (runT (Alt (Lit lineFeed >> spaces >> stars >> spaces
                     >> disjunction
                          (lookFor [lit "Russian Title";
                                    lit "Русский заголовок"])
                     >> stars >> spaces >> Lit colon)
                EndOfInput)
          (mkMatchState t caps'))
     = Some (mkMatchState u caps')) ->
  russianTitle
    (parse (lit "Title:" ++ A ++ lineFeed :: lit "Russian Title:" ++ after))
  = clean (Some G).
Proof.
  intros A_colon Et HG Hlook. unfold parse.
  replace (lit "Title:" ++ A ++ lineFeed :: lit "Russian Title:" ++ after)
    with (84%N :: (lit "itle" ++ colon :: A ++ [lineFeed])
            ++ 82%N :: lit "ussian Title" ++ colon :: after)
    by (rewrite <- app_assoc; cbn [app]; rewrite <- app_assoc;
        vm_compute; reflexivity).
  cbn [parseSeoResponse russianTitle].
  change (84%N :: (lit "itle" ++ colon :: A ++ [lineFeed]) ++ ?x)
    with ((84%N :: lit "itle" ++ colon :: A ++ [lineFeed]) ++ x).
  eapply getSectionContent_at; try eassumption.
  - intros q v y E. apply (russianTitle_positions A _ q v y A_colon).
    rewrite <- E. vm_compute. reflexivity.
  - reflexivity.
  - reflexivity.
  - intros v caps'. vm_compute. reflexivity.
Qed.

Lemma keywords_fallback_off text h :
  In h allHeaders ->
  HeaderBeforeColon toUpperCaseTab h text ->
  keywords (parse text)
  = getSectionContent toUpperCaseTab toLowerCaseTab text
      [lit "Ключевые слова"; lit "Keywords"].
Proof. exact (keywords_of_section toUpperCaseTab toLowerCaseTab text h). Qed.

Lemma requested_keywords A B C :
  ~ In colon A -> ~ In colon B -> ~ In lineFeed C ->
  keywords
    (parse (lit "Title:" ++ A ++ lineFeed :: lit "Russian Title:" ++ B
              ++ lineFeed :: lit "Keywords:" ++ C))
  = clean (Some C).
Proof.
  intros A_colon B_colon C_line.
  rewrite (keywords_fallback_off _ (lit "Title")).
  - replace (lit "Title:" ++ A ++ lineFeed :: lit "Russian Title:" ++ B
               ++ lineFeed :: lit "Keywords:" ++ C)
      with ((84%N :: lit "itle" ++ colon :: A ++ lineFeed
               :: lit "Russian Title" ++ colon :: B ++ [lineFeed])
              ++ 75%N :: lit "eywords" ++ colon :: C)
      by (do 6 (cbn [app]; rewrite <- ?app_assoc); vm_compute; reflexivity).
    rewrite <- clean_trimStart.
    eapply (getSectionContent_at _ _ _ _ _ _ []).
    + intros q v y E. apply (keywords_positions A B _ q v y A_colon B_colon).
      rewrite <- E. vm_compute. reflexivity.
    + reflexivity.
    + reflexivity.
    + intros v caps'. vm_compute. reflexivity.
    + symmetry. apply app_nil_r.
    + intros c Hc ->. apply C_line. apply In_trimStart. exact Hc.
    + intros caps'. apply lookahead_at_end.
  - vm_compute. tauto.
  - exists [], (lit "Title"), [], [], colon,
      (A ++ lineFeed :: lit "Russian Title:" ++ B
         ++ lineFeed :: lit "Keywords:" ++ C).
    repeat split; try constructor.
    + vm_compute. reflexivity.
    + apply sameText_refl.
Qed.

Lemma In_literal_lineFeed : ~ In lineFeed (lit "Keywords:").
Proof.
  intros H. vm_compute in H.
  repeat (destruct H as [H|H]; [discriminate|]). exact H.
Qed.

(** X22: the format that the correction prompt asks for is read back.  For
    the text [Title:A], [Russian Title:B], [Keywords:C] on three lines, where
    the three contents hold no line feed, the title and the localized title
    hold no colon and neither of the two is blank, the parser returns the
    three contents, each cleaned: the title [A], the localized title [B],
    the keywords [C].  Contents without asterisks and without white space at
    their ends come back as they are.  The case conversion is the tabulated
    one. *)
Theorem parse_requested_format (A B C : jsstring) :
  ~ In lineFeed (A ++ B ++ C) ->
  ~ In colon (A ++ B) ->
  trim A <> [] -> trim B <> [] ->
  parse (lit "Title:" ++ A ++ lineFeed :: lit "Russian Title:" ++ B
           ++ lineFeed :: lit "Keywords:" ++ C)
  = mkSeoData (clean (Some A)) (clean (Some B)) (clean (Some C)).
Proof.
  intros Hline Hcolon HA HB.
  assert (A_line : ~ In lineFeed A)
    by (intros H; apply Hline; apply in_or_app; left; exact H).
  assert (B_line : ~ In lineFeed B)
    by (intros H; apply Hline; apply in_or_app; right;
        apply in_or_app; left; exact H).
  assert (C_line : ~ In lineFeed C)
    by (intros H; apply Hline; apply in_or_app; right;
        apply in_or_app; right; exact H).
  assert (A_colon : ~ In colon A)
    by (intros H; apply Hcolon; apply in_or_app; left; exact H).
  assert (B_colon : ~ In colon B)
    by (intros H; apply Hcolon; apply in_or_app; right; exact H).
  rewrite (SeoData_eta (parse _)). f_equal.
  - apply requested_title; assumption.
  - rewrite <- clean_trimStart.
    eapply requested_russianTitle_at; [exact A_colon | | |].
    + apply trimStart_app. apply trim_nonempty. exact HB.
    + intros c Hc ->. apply B_line. apply In_trimStart. exact Hc.
    + intros caps'. vm_compute. reflexivity.
  - apply requested_keywords; assumption.
Qed.

(** X23: a blank section takes the next one.  In the same three-line text,
    when the localized title is blank (empty or white space only), the white
    space after its colon runs over the line feed, and the parser returns as
    localized title the whole next line, header included: [Keywords:C],
    cleaned.  The title and the keywords are returned as in the format read
    back. *)
Theorem parse_blank_section (A B C : jsstring) :
  ~ In lineFeed (A ++ C) ->
  ~ In colon A ->
  trim A <> [] -> trim B = [] ->
  parse (lit "Title:" ++ A ++ lineFeed :: lit "Russian Title:" ++ B
           ++ lineFeed :: lit "Keywords:" ++ C)
  = mkSeoData (clean (Some A)) (clean (Some (lit "Keywords:" ++ C)))
      (clean (Some C)).
Proof.
  intros Hline A_colon HA HB.
  assert (A_line : ~ In lineFeed A)
    by (intros H; apply Hline; apply in_or_app; left; exact H).
  assert (C_line : ~ In lineFeed C)
    by (intros H; apply Hline; apply in_or_app; right; exact H).
  apply trim_blank in HB.
  assert (B_colon : ~ In colon B) by (apply spaces_no_colon; exact HB).
  rewrite (SeoData_eta (parse _)). f_equal.
  - apply requested_title; assumption.
  - eapply (requested_russianTitle_at _ _ _ []); [exact A_colon | | |].
    + rewrite app_nil_r.
      change (B ++ lineFeed :: lit "Keywords:" ++ C)
        with (B ++ [lineFeed] ++ lit "Keywords:" ++ C).
      rewrite app_assoc, trimStart_blank.
      * vm_compute. reflexivity.
      * apply Forall_app. split; [exact HB|]. repeat constructor.
    + intros c Hc ->. apply in_app_or in Hc. destruct Hc as [Hc|Hc].
      * exact (In_literal_lineFeed Hc).
      * exact (C_line Hc).
    + intros caps'. apply lookahead_at_end.
  - apply requested_keywords; assumption.
Qed.

(** ** The properties above on the examples *)

Ltac not_in_literal H :=
  vm_compute in H; repeat (destruct H as [H|H]; [discriminate|]); exact H.

Lemma droppedFiles_entries :
  newVideoEntries exampleUUID exampleObjectURL 0 droppedFiles
  = [droppedEntry 0; droppedEntry 1].
Proof. reflexivity. Qed.

Lemma droppedFiles_NoDup :
  NoDup (map Entry.id
           (videoFiles initialState
              ++ newVideoEntries exampleUUID exampleObjectURL 0 droppedFiles)).
Proof.
  rewrite droppedFiles_entries. simpl. repeat constructor.
  - intros [E|[]]. vm_compute in E. discriminate.
  - intros [].
Qed.

Lemma threeVideos_NoDup : NoDup (map Entry.id (videoFiles threeVideos)).
Proof.
  simpl. repeat constructor.
  - intros [E|[E|[]]]; vm_compute in E; discriminate.
  - intros [E|[]]. vm_compute in E. discriminate.
  - intros [].
Qed.

Lemma handleRemoveVideo_active_valid_witness :
  ActiveValid (handleRemoveVideo (lit "a") twoVideos).
Proof.
  apply (handleRemoveVideo_active_valid (lit "a") twoVideos).
  exists (readyVideo "a"). split; [left; reflexivity | reflexivity].
Defined.

Lemma processAndUploadFiles_isolates_witness :
  let fresh := newVideoEntries exampleUUID exampleObjectURL 0 droppedFiles in
  let s' :=
    processAndUploadFiles exampleUUID exampleObjectURL firstUploadOnly 0
      droppedFiles [1; 0] initialState in
  length (videoFiles s') = length (videoFiles initialState) + length fresh
  /\ (forall j v, nth_error (videoFiles initialState) j = Some v ->
        nth_error (videoFiles s') j = Some v)
  /\ (forall k e, nth_error fresh k = Some e ->
        exists e',
          nth_error (videoFiles s') (length (videoFiles initialState) + k)
          = Some e'
          /\ Entry.id e' = Entry.id e
          /\ Entry.name e' = Entry.name e
          /\ Entry.url e' = Entry.url e
          /\ Entry.file e' = Entry.file e
          /\ Entry.seoData e' = None
          /\ Entry.textResponse e' = None
          /\ Entry.timecodeList e' = None
          /\ match firstUploadOnly k with
             | Fulfilled geminiFile =>
                 Entry.geminiFile e' = Some geminiFile
                 /\ Entry.uploadError e' = None
             | Rejected _ =>
                 Entry.geminiFile e' = None
                 /\ Entry.uploadError e' = Some (lit "Ошибка загрузки")
             end)
  /\ (videoError s' = true <->
      exists k message,
        k < length fresh /\ firstUploadOnly k = Rejected message)
  /\ isUploading s' = false.
Proof.
  apply (processAndUploadFiles_isolates exampleUUID exampleObjectURL
           firstUploadOnly 0 droppedFiles [1; 0] initialState).
  - rewrite droppedFiles_entries. discriminate.
  - exact droppedFiles_NoDup.
  - repeat constructor; simpl; intuition discriminate.
  - intros k. rewrite droppedFiles_entries. simpl. split.
    + intros [<-|[<-|[]]]; lia.
    + intros Hk.
      destruct k as [|[|k]];
        [right; left; reflexivity | left; reflexivity | lia].
Defined.

Lemma processAndUploadFiles_no_video_witness :
  processAndUploadFiles exampleUUID exampleObjectURL firstUploadOnly 0
    [notesFile] [] twoVideos
  = setVideoError false (setIsUploading false twoVideos).
Proof.
  apply (processAndUploadFiles_no_video exampleUUID exampleObjectURL
           firstUploadOnly 0 [notesFile] [] twoVideos).
  intros f [<-|[]]. vm_compute. reflexivity.
Defined.


Lemma handleCorrection_not_made_witness :
  handleCorrection toUpperCaseTab toLowerCaseTab answersCats true twoVideos
  = (twoVideos, true).
Proof.
  apply (handleCorrection_not_made toUpperCaseTab toLowerCaseTab answersCats
           true twoVideos).
  left. reflexivity.
Defined.

Lemma handleCorrection_rejected_witness :
  fst (handleCorrection toUpperCaseTab toLowerCaseTab alwaysRejects false
         correcting)
  = correcting.
Proof.
  apply (handleCorrection_rejected toUpperCaseTab toLowerCaseTab alwaysRejects
           false correcting).
  intros g. exists (lit "quota exceeded"). reflexivity.
Defined.

Lemma handleCorrection_success_witness :
  let parsed :=
    parseSeoResponse toUpperCaseTab toLowerCaseTab
      (Response.text catsTextResponse) in
  let nothing := isEmpty (title parsed) && isEmpty (keywords parsed) in
  let s' :=
    fst (handleCorrection toUpperCaseTab toLowerCaseTab answersCats false
           correcting) in
  let shown := rendersAfter toUpperCaseTab toLowerCaseTab correcting s' in
  nothing = false
  /\ snd (handleCorrection toUpperCaseTab toLowerCaseTab answersCats false
            correcting) = false
  /\ (forall j v, nth_error (videoFiles correcting) j = Some v ->
        exists v',
          nth_error (videoFiles s') j = Some v'
          /\ Entry.id v' = Entry.id v
          /\ Entry.name v' = Entry.name v
          /\ Entry.url v' = Entry.url v
          /\ Entry.file v' = Entry.file v
          /\ Entry.geminiFile v' = Entry.geminiFile v
          /\ Entry.uploadError v' = Entry.uploadError v
          /\ Entry.timecodeList v' = Entry.timecodeList v
          /\ Entry.textResponse v'
             = (if hasId (lit "a") v
                then Response.text catsTextResponse
                else Entry.textResponse v)
          /\ Entry.seoData v'
             = (if hasId (lit "a") v then Some parsed else Entry.seoData v))
  /\ videoFiles shown = videoFiles s'
  /\ correctionText shown = []
  /\ seoData shown = (if nothing then emptySeoData else parsed)
  /\ textResponse shown
     = (if nothing then None else Response.text catsTextResponse)
  /\ timecodeList shown
     = (if nothing
        then Entry.timecodeList (readyVideo "a")
        else timecodeList correcting)
  /\ activeMode shown
     = (if nothing
        then match Entry.timecodeList (readyVideo "a") with
             | Some _ => Some (lit "Аудио/Видео субтитры")
             | None => None
             end
        else Some MODE_SEO).
Proof.
  cbv zeta. split; [vm_compute; reflexivity|].
  apply (handleCorrection_success toUpperCaseTab toLowerCaseTab answersCats
           false correcting (lit "a") (readyVideo "a") (remoteFile "ACTIVE")
           catsTextResponse).
  - vm_compute. reflexivity.
  - intros E. vm_compute in E. discriminate E.
  - reflexivity.
  - vm_compute. reflexivity.
  - reflexivity.
  - reflexivity.
Defined.

Lemma onModeSelect_spares_others_witness :
  nth_error
    (videoFiles
       (finalState
          (onModeSelect toUpperCaseTab toLowerCaseTab exampleModes
             secondCallFails subtitlesMode threeVideos))) 0
  = Some (readyVideo "a").
Proof.
  apply (onModeSelect_spares_others toUpperCaseTab toLowerCaseTab exampleModes
           secondCallFails subtitlesMode threeVideos 0 (readyVideo "a")).
  - exact threeVideos_NoDup.
  - reflexivity.
  - intros H. vm_compute in H. destruct H as [H|[]]. discriminate.
Defined.

Lemma onModeSelect_nothing_ready_witness :
  exists s',
    onModeSelect toUpperCaseTab toLowerCaseTab exampleModes secondCallFails
      subtitlesMode uploading = Completed s'
    /\ onModeSelect toUpperCaseTab toLowerCaseTab exampleModes
         secondCallDeclines subtitlesMode uploading = Completed s'
    /\ videoFiles s' = videoFiles uploading
    /\ activeMode s' = Some subtitlesMode
    /\ textResponse s' = None
    /\ timecodeList s' = None
    /\ seoData s' = emptySeoData
    /\ isLoading s' = false.
Proof.
  apply (onModeSelect_nothing_ready toUpperCaseTab toLowerCaseTab exampleModes
           secondCallFails subtitlesMode subtitlesConfig uploading
           secondCallDeclines).
  - vm_compute. reflexivity.
  - intros v [<-|[<-|[]]]; reflexivity.
Defined.

Lemma onModeSelect_caches_text_witness :
  exists s' v',
    onModeSelect toUpperCaseTab toLowerCaseTab exampleModes
      everyCallAnswersCats MODE_SEO twoVideos = Completed s'
    /\ nth_error (videoFiles s') 0 = Some v'
    /\ Entry.textResponse v' = Response.text catsTextResponse
    /\ Entry.seoData v'
       = Some (parseSeoResponse toUpperCaseTab toLowerCaseTab
                 (Response.text catsTextResponse))
    /\ Entry.id v' = Entry.id (readyVideo "a")
    /\ Entry.name v' = Entry.name (readyVideo "a")
    /\ Entry.url v' = Entry.url (readyVideo "a")
    /\ Entry.file v' = Entry.file (readyVideo "a")
    /\ Entry.geminiFile v' = Entry.geminiFile (readyVideo "a")
    /\ Entry.uploadError v' = Entry.uploadError (readyVideo "a")
    /\ Entry.timecodeList v' = Entry.timecodeList (readyVideo "a").
Proof.
  apply (onModeSelect_caches_text toUpperCaseTab toLowerCaseTab exampleModes
           everyCallAnswersCats MODE_SEO seoConfig twoVideos 0 0
           (readyVideo "a") catsTextResponse).
  - vm_compute. reflexivity.
  - reflexivity.
  - exact twoVideos_NoDup.
  - reflexivity.
  - reflexivity.
  - reflexivity.
Defined.

Lemma onModeSelect_invalid_response_witness :
  exists s',
    onModeSelect toUpperCaseTab toLowerCaseTab exampleModes secondCallDeclines
      subtitlesMode twoVideos = Completed s'
    /\ nth_error (videoFiles s') 1 = Some (readyVideo "b")
    /\ (isActiveId (Entry.id (readyVideo "b")) twoVideos = true ->
        textResponse s' = Some (lit "Ошибка: Некорректный ответ модели.")).
Proof.
  apply (onModeSelect_invalid_response toUpperCaseTab toLowerCaseTab
           exampleModes secondCallDeclines subtitlesMode subtitlesConfig
           twoVideos 1 1 (readyVideo "b") (Response.mk None None)).
  - vm_compute. reflexivity.
  - reflexivity.
  - exact twoVideos_NoDup.
  - reflexivity.
  - reflexivity.
  - reflexivity.
  - left. reflexivity.
Defined.

Lemma reachable_invariant_witness :
  let s :=
    handleRemoveVideo (exampleUUID 0)
      (processAndUploadFiles exampleUUID exampleObjectURL firstUploadOnly 0
         droppedFiles [1; 0] initialState) in
  CacheConsistent toUpperCaseTab toLowerCaseTab s
  /\ ActiveValid s /\ DistinctIds s.
Proof.
  apply (reachable_invariant toUpperCaseTab toLowerCaseTab).
  eapply ReachableStep; [|apply StepRemove].
  eapply ReachableStep; [apply ReachableInitial|].
  apply StepAdd. exact droppedFiles_NoDup.
Defined.

Lemma uploadFile_never_settles_witness :
  runUpload exampleFile stuckRemote ≈ ITree.spin
  /\ forall r, ~ runUpload exampleFile stuckRemote ≈ Ret r.
Proof.
  apply (uploadFile_never_settles exampleFile stuckRemote).
  intros n. vm_compute. reflexivity.
Defined.

Lemma parse_fields_from_text_witness : In 1050%N catsText.
Proof.
  apply (parse_fields_from_text toUpperCaseTab toLowerCaseTab catsText 1050%N).
  right. left. vm_compute. left. reflexivity.
Defined.

Lemma parse_header_no_fallback_witness :
  keywords (parseSeoResponse toUpperCaseTab toLowerCaseTab
              (Some (lit "Title: **")))
  = getSectionContent toUpperCaseTab toLowerCaseTab (lit "Title: **")
      [lit "Ключевые слова"; lit "Keywords"].
Proof.
  apply (parse_header_no_fallback toUpperCaseTab toLowerCaseTab
           (lit "Title: **") (lit "Title")).
  - right. left. reflexivity.
  - exists [], (lit "Title"), [], [], colon, (lit " **").
    split; [vm_compute; reflexivity|]. split; [apply sameText_refl|].
    split; [constructor|]. split; [constructor | reflexivity].
Defined.

Lemma parse_requested_format_witness :
  parse (lit "Title:" ++ lit " Cats" ++ lineFeed :: lit "Russian Title:"
           ++ lit " Кошки" ++ lineFeed :: lit "Keywords:" ++ lit " cat, pet")
  = mkSeoData (clean (Some (lit " Cats"))) (clean (Some (lit " Кошки")))
      (clean (Some (lit " cat, pet"))).
Proof.
  apply (parse_requested_format (lit " Cats") (lit " Кошки") (lit " cat, pet")).
  - intros H. not_in_literal H.
  - intros H. not_in_literal H.
  - vm_compute. discriminate.
  - vm_compute. discriminate.
Defined.

Lemma parse_blank_section_witness :
  parse (lit "Title:" ++ lit " Cats" ++ lineFeed :: lit "Russian Title:"
           ++ lit " " ++ lineFeed :: lit "Keywords:" ++ lit " cat, pet")
  = mkSeoData (clean (Some (lit " Cats")))
      (clean (Some (lit "Keywords:" ++ lit " cat, pet")))
      (clean (Some (lit " cat, pet"))).
Proof.
  apply (parse_blank_section (lit " Cats") (lit " ") (lit " cat, pet")).
  - intros H. not_in_literal H.
  - intros H. not_in_literal H.
  - vm_compute. discriminate.
  - vm_compute. reflexivity.
Defined.

Lemma onModeSelect_displays_parsed_witness :
  let parsed := parseSeoResponse toUpperCaseTab toLowerCaseTab (Some catsText) in
  let nothing := isEmpty (title parsed) && isEmpty (keywords parsed) in
  nothing = false
  /\ exists s',
       onModeSelect toUpperCaseTab toLowerCaseTab exampleModes
         everyCallAnswersCats MODE_SEO twoVideos = Completed s'
       /\ let shown :=
            rendersAfter toUpperCaseTab toLowerCaseTab twoVideos s' in
          seoData shown = (if nothing then emptySeoData else parsed)
          /\ textResponse shown = (if nothing then None else Some catsText)
          /\ timecodeList shown
             = (if nothing then Entry.timecodeList (readyVideo "a") else None)
          /\ activeMode shown
             = (if nothing
                then match Entry.timecodeList (readyVideo "a") with
                     | Some _ => Some (lit "Аудио/Видео субтитры")
                     | None => None
                     end
                else Some MODE_SEO).
Proof.
  cbv zeta. split; [vm_compute; reflexivity|].
  apply (onModeSelect_displays_parsed toUpperCaseTab toLowerCaseTab
           exampleModes everyCallAnswersCats seoConfig twoVideos twoVideos 0
           (readyVideo "a") catsTextResponse catsText).
  - vm_compute. reflexivity.
  - reflexivity.
  - exact twoVideos_NoDup.
  - reflexivity.
  - vm_compute. reflexivity.
  - intros E. vm_compute in E. discriminate E.
  - reflexivity.
  - reflexivity.
  - vm_compute. discriminate.
  - reflexivity.
Defined.
